(** * sql-data-migration-poc: validation, bulk load, backup restore

    A shallow embedding of the ingestion core of the repository
    (data_migration/validators.py, data_migration/services.py, the
    management commands run_kafka_consumer, run_migration_truncate_load,
    run_backup_parquet and run_restore_parquet, the ingest endpoint of
    data_migration/views.py, and the tables data_migration/models.py
    declares, with their primary and foreign keys) together with the
    properties of its specification and further properties of the
    code.

    Python values are modelled by an inductive type, Python [str] by lists
    of Unicode code points, Python dicts by [gmap], exceptions by a result
    type threaded through a small state monad over the relational store. *)

From Stdlib Require Import ZArith NArith Lia Ascii.
From stdpp Require Import gmap strings list fin_maps pretty sorting.

Local Open Scope Z_scope.

(* ===================================================================== *)
(** ** Python strings and values *)
(* ===================================================================== *)

Module Py.

(** A Python [str] is a sequence of code points: [len], [strip] and the
    [re] module all work on code points, not on encoded bytes. *)
Definition str := list N.

(** Source literals are written as Rocq strings (UTF-8 bytes) and decoded. *)
Fixpoint utf8_decode (bs : list N) : str :=
  match bs with
  | [] => []
  | b :: rest =>
    if (b <? 0x80)%N then b :: utf8_decode rest
    else if (b <? 0xE0)%N then
      match rest with
      | b1 :: r => ((b mod 0x20) * 0x40 + b1 mod 0x40)%N :: utf8_decode r
      | _ => []
      end
    else if (b <? 0xF0)%N then
      match rest with
      | b1 :: b2 :: r =>
        ((b mod 0x10) * 0x1000 + (b1 mod 0x40) * 0x40 + b2 mod 0x40)%N
          :: utf8_decode r
      | _ => []
      end
    else
      match rest with
      | b1 :: b2 :: b3 :: r =>
        ((b mod 0x08) * 0x40000 + (b1 mod 0x40) * 0x1000
         + (b2 mod 0x40) * 0x40 + b3 mod 0x40)%N :: utf8_decode r
      | _ => []
      end
  end.

Definition u (s : string) : str :=
  utf8_decode (map Ascii.N_of_ascii (String.list_ascii_of_string s)).

(** [str.isspace] for one code point; the same set is what [str.strip()]
    removes and what [\s] matches in a [str] pattern. *)
Definition is_space (c : N) : bool :=
  ((0x09 <=? c) && (c <=? 0x0D) || (0x1C <=? c) && (c <=? 0x20)
   || (c =? 0x85) || (c =? 0xA0) || (c =? 0x1680)
   || (0x2000 <=? c) && (c <=? 0x200A)
   || (c =? 0x2028) || (c =? 0x2029) || (c =? 0x202F) || (c =? 0x205F)
   || (c =? 0x3000))%N.

Fixpoint lstrip (s : str) : str :=
  match s with
  | c :: rest => if is_space c then lstrip rest else s
  | [] => []
  end.

Definition rstrip (s : str) : str := reverse (lstrip (reverse s)).

Definition strip (s : str) : str := rstrip (lstrip s).

(** [datetime.datetime]: the fields Python stores; [tzinfo] is the UTC
    offset in microseconds of an aware value, [None] for a naive one. *)
Record datetime := mk_datetime {
  year : Z; month : Z; day : Z;
  hour : Z; minute : Z; second : Z; microsecond : Z;
  tzinfo : option Z
}.

(** Days from 1970-01-01 to a proleptic Gregorian date. *)
Definition days_from_civil (y m d : Z) : Z :=
  let y' := if m <=? 2 then y - 1 else y in
  let era := y' / 400 in
  let yoe := y' - era * 400 in
  let mp := (m + 9) mod 12 in
  let doy := (153 * mp + 2) / 5 + d - 1 in
  let doe := yoe * 365 + yoe / 4 - yoe / 100 + doy in
  era * 146097 + doe - 719468.

(** Wall-clock microseconds since the epoch, ignoring [tzinfo]. *)
Definition wall_micros (d : datetime) : Z :=
  (((days_from_civil (year d) (month d) (day d) * 24 + hour d) * 60
    + minute d) * 60 + second d) * 1000000 + microsecond d.

(** The instant of an aware datetime, which is what [<] and [>] compare. *)
Definition utc_micros (d : datetime) : Z :=
  wall_micros d - default 0 (tzinfo d).

Definition pad (width : nat) (z : Z) : string :=
  let digits := pretty (Z.abs z) in
  String.concat "" (replicate (width - String.length digits) "0"%string)
    +:+ digits.

Definition pretty_offset (off : Z) : string :=
  let minutes := Z.abs off / 60000000 in
  (if off <? 0 then "-" else "+") +:+ pad 2 (minutes / 60) +:+ ":"
    +:+ pad 2 (minutes mod 60).

(** [str(dt)], that is [dt.isoformat(sep=' ')]. *)
Definition datetime_str (d : datetime) : string :=
  pad 4 (year d) +:+ "-" +:+ pad 2 (month d) +:+ "-" +:+ pad 2 (day d)
  +:+ " " +:+ pad 2 (hour d) +:+ ":" +:+ pad 2 (minute d) +:+ ":"
  +:+ pad 2 (second d)
  +:+ (if microsecond d =? 0 then "" else "." +:+ pad 6 (microsecond d))
  +:+ match tzinfo d with Some off => pretty_offset off | None => "" end.

(** The values a record (a decoded JSON object, or a row handed over by
    pandas) can hold in the fields the validators read. Numbers with a
    fraction, arrays and nested objects are left out: no statement below
    is about a record that holds one. *)
Inductive value :=
  | VNone
  | VBool (b : bool)
  | VInt (z : Z)
  | VStr (s : str)
  | VTimestamp (d : datetime)   (* pandas.Timestamp *)
  | VDatetime (d : datetime).   (* datetime.datetime *)

#[export] Instance value_inhabited : Inhabited value := populate VNone.

#[export] Instance datetime_eq_dec : EqDecision datetime.
Proof. solve_decision. Defined.

#[export] Instance value_eq_dec : EqDecision value.
Proof. solve_decision. Defined.

(** Truth value, as used by [not v]. *)
Definition truthy (v : value) : bool :=
  match v with
  | VNone => false
  | VBool b => b
  | VInt z => negb (z =? 0)
  | VStr s => match s with [] => false | _ => true end
  | VTimestamp _ | VDatetime _ => true
  end.

(** [str(v)]. *)
Definition to_str (v : value) : str :=
  match v with
  | VNone => u "None"
  | VBool true => u "True"
  | VBool false => u "False"
  | VInt z => u (pretty z)
  | VStr s => s
  | VTimestamp d | VDatetime d => u (datetime_str d)
  end.

(** The record of a message or request: a Python dict with string keys. *)
Abbreviation record := (gmap string value).

(** ['; '.join(errors)]. *)
Definition join (sep : string) (parts : list string) : string :=
  String.concat sep parts.

(** The three formats the employee validator tries, in its order:
    ['%Y-%m-%dT%H:%M:%S'], ['%Y-%m-%dT%H:%M:%S.%f'], ['%Y-%m-%d %H:%M:%S']. *)
Inductive strptime_format := Fmt_T | Fmt_T_f | Fmt_space.

(** What the repository takes from the Python runtime and from Django's
    settings rather than defining itself. *)
Record runtime := {
  (** [datetime.strptime(text, fmt)]; [None] stands for [ValueError]. *)
  strptime : str -> strptime_format -> option datetime;
  (** [timezone.make_aware(dt)] under the configured time zone; the error
      case carries the text of the exception. *)
  make_aware : datetime -> datetime + string;
  (** [int(text)] on a [str]; [None] stands for [ValueError]. *)
  int_of_str : str -> option Z;
  (** One element of [pd.to_datetime(column, errors='coerce')]; [None]
      stands for [NaT]. *)
  pd_to_datetime : value -> option datetime;
  (** One element of [pd.to_numeric(column, errors='coerce')] once cast
      to an integer dtype; [None] stands for [NaN]. *)
  pd_to_int : value -> option Z;
  (** PostgreSQL reading the text of an [integer] column; [None] stands
      for its syntax error. *)
  pg_integer : str -> option Z;
  (** PostgreSQL reading the text of a [timestamp] column. *)
  pg_timestamp : str -> option datetime;
}.

(** [int(v)]; [None] stands for [ValueError] or [TypeError]. *)
Definition to_int (rt : runtime) (v : value) : option Z :=
  match v with
  | VInt z => Some z
  | VBool b => Some (if b then 1 else 0)
  | VStr s => int_of_str rt s
  | VNone | VTimestamp _ | VDatetime _ => None
  end.

End Py.

Import Py.

(* ===================================================================== *)
(** ** The relational store *)
(* ===================================================================== *)

Module Store.

(** Rows of [departments] and of [jobs] (models.Department, models.Job). *)
Record ref_row := { r_id : Z; r_name : str }.

(** Rows of [hired_employees] (models.HiredEmployee). *)
Record emp_row := {
  e_id : Z;
  e_name : str;
  e_datetime : datetime;
  e_department_id : Z;
  e_job_id : Z
}.

(** The three tables; [identity] is the sequence behind
    [hired_employees.id] once the column has been given one ([None] until
    then), holding the next value it hands out. *)
Record store := {
  departments : list ref_row;
  jobs : list ref_row;
  hired_employees : list emp_row;
  identity : option Z
}.

Definition empty : store :=
  {| departments := []; jobs := []; hired_employees := []; identity := None |}.

(** [Model.objects.filter(id=i).exists()] *)
Definition department_exists (db : store) (i : Z) : bool :=
  bool_decide (i ∈ r_id <$> departments db).

Definition job_exists (db : store) (i : Z) : bool :=
  bool_decide (i ∈ r_id <$> jobs db).

Definition employee_exists (db : store) (i : Z) : bool :=
  bool_decide (i ∈ e_id <$> hired_employees db).

End Store.

Import Store.

(* ===================================================================== *)
(** ** Statements the store executes *)
(* ===================================================================== *)

Module Sql.

(** A row as COPY receives it for [hired_employees]; [i_id] is [None]
    when the column list leaves the id out. *)
Record emp_input := {
  i_id : option Z;
  i_name : str;
  i_datetime : datetime;
  i_department_id : Z;
  i_job_id : Z
}.

Definition int32 (z : Z) : bool := (-2147483648 <=? z) && (z <=? 2147483647).

Definition restart (seq : option Z) : option Z := (λ _, 1) <$> seq.

(** [TRUNCATE TABLE t RESTART IDENTITY CASCADE]. [hired_employees] has
    foreign keys to [departments] and to [jobs] (models.HiredEmployee), so
    truncating either of those empties it as well. An unknown relation is
    an error. *)
Definition truncate (db : store) (table : string) : option store :=
  if String.eqb table "hired_employees" then
    Some {| departments := departments db; jobs := jobs db;
            hired_employees := []; identity := restart (identity db) |}
  else if String.eqb table "departments" then
    Some {| departments := []; jobs := jobs db;
            hired_employees := []; identity := restart (identity db) |}
  else if String.eqb table "jobs" then
    Some {| departments := departments db; jobs := [];
            hired_employees := []; identity := restart (identity db) |}
  else None.

(** The constraints on a table with an integer primary key and a
    [varchar(255)] name: ids are int32 and unique. *)
Definition reference_rows_ok (existing new : list ref_row) : bool :=
  bool_decide (NoDup (r_id <$> existing ++ new))
  && forallb (λ r, int32 (r_id r) && (length (r_name r) <=? 255)%nat) new.

Definition copy_departments (db : store) (rows : list ref_row) : option store :=
  if reference_rows_ok (departments db) rows then
    Some {| departments := departments db ++ rows; jobs := jobs db;
            hired_employees := hired_employees db; identity := identity db |}
  else None.

Definition copy_jobs (db : store) (rows : list ref_row) : option store :=
  if reference_rows_ok (jobs db) rows then
    Some {| departments := departments db; jobs := jobs db ++ rows;
            hired_employees := hired_employees db; identity := identity db |}
  else None.

(** The stored row of an input row once its id is known. *)
Definition with_id (i : Z) (r : emp_input) : emp_row :=
  {| e_id := i; e_name := i_name r; e_datetime := i_datetime r;
     e_department_id := i_department_id r; e_job_id := i_job_id r |}.

(** Ids for the rows of a COPY: the given id, or the next value of the
    identity sequence when the column list leaves it out. Without a
    sequence an omitted id is null, which the primary key refuses. *)
Fixpoint assign_ids (seq : option Z) (rows : list emp_input)
  : option (list emp_row * option Z) :=
  match rows with
  | [] => Some ([], seq)
  | r :: rest =>
    match i_id r, seq with
    | Some i, _ =>
      match assign_ids seq rest with
      | Some (rows', seq') => Some (with_id i r :: rows', seq')
      | None => None
      end
    | None, Some next =>
      match assign_ids (Some (next + 1)) rest with
      | Some (rows', seq') => Some (with_id next r :: rows', seq')
      | None => None
      end
    | None, None => None
    end
  end.

(** What the store checks on a new employee row: the id is an int32, the
    name fits [varchar(255)], and both foreign keys find their row. *)
Definition employee_row_ok (db : store) (r : emp_row) : bool :=
  int32 (e_id r) && (length (e_name r) <=? 255)%nat
  && department_exists db (e_department_id r) && job_exists db (e_job_id r).

(** COPY into [hired_employees] followed by COMMIT: all rows or none. The
    advance a failed COPY leaves on the sequence is not modelled. *)
Definition copy_employees (db : store) (rows : list emp_input) : option store :=
  match assign_ids (identity db) rows with
  | Some (new, seq) =>
    if bool_decide (NoDup (e_id <$> hired_employees db ++ new))
       && forallb (employee_row_ok db) new
    then Some {| departments := departments db; jobs := jobs db;
                 hired_employees := hired_employees db ++ new;
                 identity := seq |}
    else None
  | None => None
  end.

(** [ALTER TABLE hired_employees ALTER COLUMN id
     ADD GENERATED BY DEFAULT AS IDENTITY]: an error when the column has
    an identity already. *)
Definition add_identity (db : store) : option store :=
  match identity db with
  | None => Some {| departments := departments db; jobs := jobs db;
                    hired_employees := hired_employees db;
                    identity := Some 1 |}
  | Some _ => None
  end.

End Sql.

(* ===================================================================== *)
(** ** data_migration/validators.py *)
(* ===================================================================== *)

Module Validators.

Inductive error_type := MISSING_REQUIRED_FIELDS | VALIDATION_ERROR | UNKNOWN_TABLE.

(** The tuple [(is_valid, error_message, error_type)]. *)
Definition verdict : Type := bool * option string * option error_type.

Definition rejected (errors : list string) (kind : error_type) : verdict :=
  (false, Some (join "; " errors), Some kind).

Definition accepted : verdict := (true, None, None).

(** [field not in record or not record[field]
     or str(record[field]).strip() == ''] *)
Definition field_missing (r : record) (field : string) : bool :=
  match r !! field with
  | None => true
  | Some v => negb (truthy v) || bool_decide (strip (to_str v) = [])
  end.

Definition missing_message (field : string) : string :=
  "Campo requerido '" +:+ field +:+ "' está vacío o faltante".

Definition collect_missing (r : record) (required : list string) : list string :=
  missing_message <$> filter (λ f, field_missing r f = true) required.

(** The character class [[a-zA-ZáéíóúÁÉÍÓÚñÑ\s\-\.]]. *)
Definition name_class (c : N) : bool :=
  ((0x61 <=? c) && (c <=? 0x7A) || (0x41 <=? c) && (c <=? 0x5A))%N
  || bool_decide (c ∈ u "áéíóúÁÉÍÓÚñÑ")
  || is_space c || (c =? 0x2D)%N || (c =? 0x2E)%N.

(** [re.match(r'^[cls]+$', s)] where the pattern is one class under [+]:
    the class is matched greedily with backtracking, and [$] holds at the
    end of the text or just before a newline that ends it. [started]
    tells whether the class has matched a character already. *)
Fixpoint match_class_plus (cls : N -> bool) (started : bool) (s : str) : bool :=
  match s with
  | [] => started
  | c :: rest =>
    started && (c =? 0x0A)%N && bool_decide (rest = [])
    || cls c && match_class_plus cls true rest
  end.

Definition name_pattern (name : str) : bool :=
  match_class_plus name_class false name.

(** The name rule shared by the three validators: [str(...).strip()] and
    the [if]/[elif] chain on its length and characters. *)
Definition name_errors (v : value) : list string :=
  let name := strip (to_str v) in
  if (length name <? 2)%nat then ["Nombre debe tener al menos 2 caracteres"]
  else if (255 <? length name)%nat then ["Nombre no puede exceder 255 caracteres"]
  else if negb (name_pattern name) then ["Nombre contiene caracteres inválidos"]
  else [].

(** Outcome of the date block: it either returns from the validator at
    once or leaves zero or more errors and lets validation go on. *)
Inductive date_outcome :=
  | DateReturn (error : string)
  | DateErrors (errors : list string).

Definition parse_datetime (rt : runtime) (text : str) : option datetime :=
  match strptime rt text Fmt_T with
  | Some dt => Some dt
  | None =>
    match strptime rt text Fmt_T_f with
    | Some dt => Some dt
    | None => strptime rt text Fmt_space
    end
  end.

(** From [if dt.tzinfo is None] to the end of the [try] block. *)
Definition check_not_future (rt : runtime) (now : datetime) (dt : datetime)
  : list string :=
  let aware :=
    match tzinfo dt with
    | None => make_aware rt dt
    | Some _ => inl dt
    end in
  match aware with
  | inl dt' =>
    if utc_micros now <? utc_micros dt' then ["Fecha no puede ser futura"] else []
  | inr text => ["Error validando fecha: " +:+ text]
  end.

Definition datetime_errors (rt : runtime) (now : datetime) (v : value)
  : date_outcome :=
  match v with
  | VStr text =>
    match parse_datetime rt text with
    | None => DateReturn "Formato de fecha inválido (esperado: YYYY-MM-DDTHH:MM:SS)"
    | Some dt => DateErrors (check_not_future rt now dt)
    end
  | VTimestamp d => DateErrors (check_not_future rt now d)
  | VDatetime d => DateErrors (check_not_future rt now d)
  | _ => DateReturn "Tipo de fecha inválido"
  end.

Definition department_id_errors (rt : runtime) (db : store) (v : value)
  : list string :=
  match to_int rt v with
  | Some dept_id =>
    if dept_id <=? 0 then ["department_id debe ser un entero positivo"]
    else if negb (department_exists db dept_id)
    then ["department_id " +:+ pretty dept_id +:+ " no existe en la base de datos"]
    else []
  | None => ["department_id debe ser un entero válido"]
  end.

Definition job_id_errors (rt : runtime) (db : store) (v : value) : list string :=
  match to_int rt v with
  | Some job_id =>
    if job_id <=? 0 then ["job_id debe ser un entero positivo"]
    else if negb (job_exists db job_id)
    then ["job_id " +:+ pretty job_id +:+ " no existe en la base de datos"]
    else []
  | None => ["job_id debe ser un entero válido"]
  end.

(** [if 'id' in record and record['id'] is not None] *)
Definition explicit_id (r : record) : option value :=
  match r !! "id" with
  | Some VNone | None => None
  | Some v => Some v
  end.

Definition employee_id_errors (rt : runtime) (db : store) (r : record)
  : list string :=
  match explicit_id r with
  | None => []
  | Some v =>
    match to_int rt v with
    | Some emp_id =>
      if (emp_id <=? 0) || (2147483647 <? emp_id)
      then ["id debe estar entre 1 y 2147483647"]
      else if employee_exists db emp_id
      then ["id " +:+ pretty emp_id +:+ " ya existe en la base de datos"]
      else []
    | None => ["id debe ser un entero válido"]
    end
  end.

Definition employee_required : list string :=
  ["name"; "datetime"; "department_id"; "job_id"].

(** [DataQualityValidator.validate_hired_employee]; [now] is
    [timezone.now()]. *)
Definition validate_hired_employee (rt : runtime) (db : store) (now : datetime)
    (r : record) : verdict :=
  let errors := collect_missing r employee_required in
  if negb (bool_decide (errors = [])) then rejected errors MISSING_REQUIRED_FIELDS
  else
    let errors := name_errors (r !!! "name") in
    match datetime_errors rt now (r !!! "datetime") with
    | DateReturn e => rejected (errors ++ [e]) VALIDATION_ERROR
    | DateErrors es =>
      let errors := errors ++ es in
      let errors := errors ++ department_id_errors rt db (r !!! "department_id") in
      let errors := errors ++ job_id_errors rt db (r !!! "job_id") in
      let errors := errors ++ employee_id_errors rt db r in
      if negb (bool_decide (errors = [])) then rejected errors VALIDATION_ERROR
      else accepted
    end.

(** The id block of [validate_department] and [validate_job]; [taken]
    is the existence query on the record's own table. *)
Definition reference_id_errors (rt : runtime) (taken : Z -> bool) (r : record)
  : list string :=
  match explicit_id r with
  | None => []
  | Some v =>
    match to_int rt v with
    | Some i =>
      if i <=? 0 then ["id debe ser un entero positivo"]
      else if taken i
      then ["id " +:+ pretty i +:+ " ya existe en la base de datos"]
      else []
    | None => ["id debe ser un entero válido"]
    end
  end.

Definition reference_required : list string := ["name"].

Definition validate_reference (rt : runtime) (taken : Z -> bool) (r : record)
  : verdict :=
  let errors := collect_missing r reference_required in
  if negb (bool_decide (errors = [])) then rejected errors MISSING_REQUIRED_FIELDS
  else
    let errors := name_errors (r !!! "name") in
    let errors := errors ++ reference_id_errors rt taken r in
    if negb (bool_decide (errors = [])) then rejected errors VALIDATION_ERROR
    else accepted.

(** [DataQualityValidator.validate_department] *)
Definition validate_department (rt : runtime) (db : store) (r : record) : verdict :=
  validate_reference rt (department_exists db) r.

(** [DataQualityValidator.validate_job] *)
Definition validate_job (rt : runtime) (db : store) (r : record) : verdict :=
  validate_reference rt (job_exists db) r.

(** The validator [validate_and_log_record] selects for a table name; an
    unknown name has no validator. *)
Definition validate (rt : runtime) (db : store) (now : datetime)
    (table_name : string) (r : record) : option verdict :=
  if String.eqb table_name "hired_employees"
  then Some (validate_hired_employee rt db now r)
  else if String.eqb table_name "departments" then Some (validate_department rt db r)
  else if String.eqb table_name "jobs" then Some (validate_job rt db r)
  else None.

(** The fields each validator requires to be present. *)
Definition required_fields (table_name : string) : list string :=
  if String.eqb table_name "hired_employees" then employee_required
  else reference_required.

End Validators.

Import Validators.

(* ===================================================================== *)
(** ** The world the services act on *)
(* ===================================================================== *)

Module World.

(** A pandas DataFrame, row by row; a column a row lacks reads as NaN. *)
Abbreviation dataframe := (list record).

(** What an object of the bucket holds, as pandas or PyArrow reads it. *)
Inductive object :=
  | CsvObject (df : dataframe)
  | ParquetObject (df : dataframe)
  | Unreadable.

(** The lines of the loggers and of the commands that the properties
    speak of. *)
Inductive event :=
  | TruncateDone (table : string)
  | TruncateError (table e : string)
  | LoadDone (table : string) (rows : nat)
  | LoadError (e : string)
  | BatchError (table e : string)
  | ProcessError (e : string)
  | FileError (key e : string)
  | LoadTableError (table e : string)
  | RestoreRowsError (e : string)
  | RestoredFile (key : string) (rows : nat)
  | RestoreDone (table : string) (total : nat)
  | RestoreError (table e : string)
  | NoBackup (table : string)
  | NoParquet (path : string)
  | Started (table : string)
  | TableMigrated (table : string)
  | TableFailed (table : string)
  | StepFailed (table : string)
  | Completed
  | FlushDone (table : string) (rows : nat)
  | FlushError (table e : string)
  | Rejected (table : string) (message : string) (kind : error_type)
  | Skipped (table : string).

(** What lies outside the repository and can fail: the n-th connection to
    PostgreSQL, the n-th request to MinIO, the CSV files under /app/data
    (whether their column structure is valid, and the frame pandas reads
    from them), and the newest snapshot directory of a table as
    [get_latest_backup_path] finds it. *)
Record environment := {
  connect_ok : nat → bool;
  minio_ok : nat → bool;
  csv_file : string → option (bool * dataframe);
  latest_backup : string → option string
}.

Record world := {
  db : store;
  bucket : list (string * object);
  connections : nat;
  requests : nat;
  journal : list event
}.

Definition with_db (w : world) (d : store) : world :=
  {| db := d; bucket := bucket w; connections := connections w;
     requests := requests w; journal := journal w |}.

(** Python's two ways out of a call. *)
Inductive result (A : Type) :=
  | Ok (a : A)
  | Raise (e : string).
Arguments Ok {A} a.
Arguments Raise {A} e.

Definition io (A : Type) : Type := world → result A * world.

#[export] Instance io_ret : MRet io := λ A a w, (Ok a, w).

#[export] Instance io_bind : MBind io := λ A B f m w,
  match m w with
  | (Ok a, w') => f a w'
  | (Raise e, w') => (Raise e, w')
  end.

Definition raise {A} (e : string) : io A := λ w, (Raise e, w).

(** [try: body except Exception as e: handler(e)] *)
Definition try {A} (body : io A) (handler : string → io A) : io A := λ w,
  match body w with
  | (Ok a, w') => (Ok a, w')
  | (Raise e, w') => handler e w'
  end.

Definition log (ev : event) : io unit := λ w,
  (Ok tt, {| db := db w; bucket := bucket w; connections := connections w;
             requests := requests w; journal := journal w ++ [ev] |}).

Definition get_bucket : io (list (string * object)) := λ w, (Ok (bucket w), w).

Definition set_bucket (f : list (string * object) → list (string * object))
  : io unit := λ w,
  (Ok tt, {| db := db w; bucket := f (bucket w); connections := connections w;
             requests := requests w; journal := journal w |}).

(** [for x in xs: body(x)] *)
Fixpoint for_each {A} (xs : list A) (body : A → io unit) : io unit :=
  match xs with
  | [] => mret tt
  | x :: rest => body x;; for_each rest body
  end.

(** The object stored under a key; a missing one cannot be read. *)
Definition object_at (entries : list (string * object)) (key : string) : object :=
  default Unreadable
    ((λ found, found.2.2) <$> list_find (λ entry, entry.1 = key) entries).

(** The keys a listing by prefix returns. *)
Definition listing (entries : list (string * object)) (prefix : string)
  : list string :=
  filter (λ key, String.prefix prefix key = true) entries.*1.

Section Infrastructure.
Context (env : environment).

(** [psycopg2.connect(...)] *)
Definition connect : io unit := λ w,
  let w' := {| db := db w; bucket := bucket w;
               connections := S (connections w); requests := requests w;
               journal := journal w |} in
  if connect_ok env (connections w) then (Ok tt, w')
  else (Raise "could not connect to server", w').

(** A statement followed by COMMIT on the open connection. *)
Definition execute (statement : store → option store) (error : string)
  : io unit := λ w,
  match statement (db w) with
  | Some d => (Ok tt, with_db w d)
  | None => (Raise error, w)
  end.

(** Statements that yield a value, followed by COMMIT. *)
Definition transaction {A} (body : store → option (store * A)) (error : string)
  : io A := λ w,
  match body (db w) with
  | Some (d, a) => (Ok a, with_db w d)
  | None => (Raise error, w)
  end.

Definition request : io unit := λ w,
  let w' := {| db := db w; bucket := bucket w; connections := connections w;
               requests := S (requests w); journal := journal w |} in
  if minio_ok env (requests w) then (Ok tt, w')
  else (Raise "could not reach the object storage", w').

(** [client.upload_file] *)
Definition put_object (key : string) (o : object) : io unit :=
  request;;
  set_bucket (λ entries, (key, o) :: filter (λ entry, entry.1 ≠ key) entries).

(** [client.list_objects_v2(Bucket=..., Prefix=prefix)]: the keys. *)
Definition list_objects (prefix : string) : io (list string) :=
  request;;
  entries ← get_bucket;
  mret (listing entries prefix).

(** [client.get_object] or [client.download_file], then the reader. *)
Definition get_object (key : string) : io object :=
  request;;
  entries ← get_bucket;
  mret (object_at entries key).

End Infrastructure.

End World.

Import World.

(* ===================================================================== *)
(** ** data_migration/services.py *)
(* ===================================================================== *)

Module Services.

(** [range(0, stop, step)] for a positive step. *)
Fixpoint range_from (fuel start stop step : nat) : list nat :=
  match fuel with
  | O => []
  | S fuel' =>
    if (start <? stop)%nat then start :: range_from fuel' (start + step) stop step
    else []
  end.

Definition range (stop step : nat) : list nat := range_from stop 0 stop step.

(** [df.iloc[i:j]] *)
Definition iloc (df : dataframe) (i j : nat) : dataframe := take (j - i) (drop i df).

Definition has_column (df : dataframe) (column : string) : bool :=
  existsb (λ r : record, bool_decide (is_Some (r !! column))) df.

Definition has_columns (df : dataframe) (columns : list string) : bool :=
  forallb (has_column df) columns.

Definition notna (v : value) : bool := negb (bool_decide (v = VNone)).

(** The texts the cleaning treats as null. *)
Definition null_texts : list str :=
  u <$> ["nan"; "NaN"; "NAN"; "null"; "NULL"; "None"; "NONE"; ""].

(** [df.dropna(how='all')] *)
Definition dropna_all (df : dataframe) : dataframe :=
  filter (λ r : record, ¬ map_Forall (λ _ v, v = VNone) r) df.

(** [df.replace([...], pd.NA)] *)
Definition replace_null_texts (df : dataframe) : dataframe :=
  fmap (M := gmap string)
    (λ v, if bool_decide (v ∈ VStr <$> null_texts) then VNone else v) <$> df.

(** [df.dropna(subset=columns)] *)
Definition dropna (columns : list string) (df : dataframe) : dataframe :=
  filter (λ r : record, Forall (λ c, r !!! c ≠ VNone) columns) df.

(** [str.lower] on the letters that matter for the comparison with
    ['nan'], ['none'] and ['null']: only A to Z lower to ASCII letters of
    these words. *)
Definition lower (s : str) : str :=
  (λ c, if ((0x41 <=? c) && (c <=? 0x5A))%N then (c + 0x20)%N else c) <$> s.

(** [df[column].astype(str).str.strip()] on one row. *)
Definition strip_column (column : string) (r : record) : record :=
  <[column := VStr (strip (to_str (r !!! column)))]> r.

(** [df.drop_duplicates(subset=['id'], keep='first')] *)
Fixpoint drop_duplicates (seen : list value) (df : dataframe) : dataframe :=
  match df with
  | [] => []
  | r :: rest =>
    if bool_decide (r !!! "id" ∈ seen) then drop_duplicates seen rest
    else r :: drop_duplicates (r !!! "id" :: seen) rest
  end.

Section Service.
Context (rt : runtime) (env : environment).

(** [self.batch_size], which [__init__] sets to 1000. *)
Context (batch_size : nat).

(** [pd.to_datetime(df['datetime'], errors='coerce')] then
    [dropna(subset=['datetime'])], row by row. *)
Definition coerce_datetime (r : record) : option record :=
  d ← pd_to_datetime rt (r !!! "datetime");
  Some (<["datetime" := VTimestamp d]> r).

(** [pd.to_numeric(..., errors='coerce')], [dropna] and the integer cast
    for one column of one row. *)
Definition coerce_int (column : string) (r : record) : option record :=
  z ← pd_to_int rt (r !!! column);
  Some (<[column := VInt z]> r).

Definition positive_ids (r : record) : bool :=
  match r !!! "department_id", r !!! "job_id" with
  | VInt d, VInt j => (0 <? d) && (0 <? j)
  | _, _ => false
  end.

Definition employee_columns : list string :=
  ["id"; "name"; "datetime"; "department_id"; "job_id"].

(** The [hired_employees] branch of [_clean_dataframe]. On a frame that
    lacks one of the columns, [dropna(subset=...)] raises [KeyError] and
    the handler returns the frame as it stands. *)
Definition clean_hired_employees (frame : dataframe) : dataframe :=
  let df := dropna_all frame in
  let df := replace_null_texts df in
  if negb (has_columns frame employee_columns) then df else
  let df := dropna employee_columns df in
  let df := strip_column "name" <$> df in
  let df := filter (λ r : record, r !!! "name" ≠ VStr []) df in
  let df := filter (λ r : record,
                      VStr (lower (to_str (r !!! "name")))
                      ∉ VStr ∘ u <$> ["nan"; "none"; "null"; ""]) df in
  let df := omap coerce_datetime df in
  let df := strip_column "job_id" ∘ strip_column "department_id" <$> df in
  let df := filter (λ r : record, r !!! "department_id" ∉ VStr <$> null_texts) df in
  let df := filter (λ r : record, r !!! "job_id" ∉ VStr <$> null_texts) df in
  let df := omap (λ r, coerce_int "department_id" r ≫= coerce_int "job_id") df in
  let df := filter (λ r, positive_ids r = true) df in
  drop_duplicates [] df.

(** The branch of [departments] and [jobs], with the same handler. *)
Definition clean_reference (frame : dataframe) : dataframe :=
  let df := dropna_all frame in
  let df := replace_null_texts df in
  if negb (has_columns frame ["id"; "name"]) then df else
  let df := dropna ["id"; "name"] df in
  let df := strip_column "name" <$> df in
  let df := filter (λ r : record, r !!! "name" ≠ VStr []) df in
  (* [df['id'].astype('int32')] raises on a text that is no number, and
     the handler again returns the frame as it stands. *)
  match mapM (coerce_int "id") df with
  | Some df' => drop_duplicates [] df'
  | None => df
  end.

(** [DataMigrationService._clean_dataframe] *)
Definition _clean_dataframe (df : dataframe) (table : string) : dataframe :=
  if String.eqb table "hired_employees" then clean_hired_employees df
  else if String.eqb table "departments" || String.eqb table "jobs"
  then clean_reference df
  else df.

(** An integer column written by [astype(str)] or [to_csv] and read back
    by the store. *)
Definition pg_int (v : value) : option Z :=
  match v with
  | VInt z => Some z
  | _ => pg_integer rt (to_str v)
  end.

(** Rows for [columns=('id', 'name', 'datetime', 'department_id',
    'job_id')]; [.dt.strftime] needs datetime cells. *)
Definition employee_row_with_id (r : record) : option Sql.emp_input :=
  d ← match r !!! "datetime" with VTimestamp d => Some d | _ => None end;
  i ← pg_int (r !!! "id");
  dep ← pg_int (r !!! "department_id");
  job ← pg_int (r !!! "job_id");
  Some {| Sql.i_id := Some i; Sql.i_name := to_str (r !!! "name");
          Sql.i_datetime := d; Sql.i_department_id := dep;
          Sql.i_job_id := job |}.

(** Rows for [columns=('name', 'datetime', 'department_id', 'job_id')]
    after the coercions of [_copy_hired_employees_no_id], which drop the
    rows they cannot convert. *)
Definition employee_row_no_id (r : record) : option Sql.emp_input :=
  d ← pd_to_datetime rt (r !!! "datetime");
  dep ← pd_to_int rt (r !!! "department_id");
  job ← pd_to_int rt (r !!! "job_id");
  Some {| Sql.i_id := None; Sql.i_name := to_str (r !!! "name");
          Sql.i_datetime := d; Sql.i_department_id := dep;
          Sql.i_job_id := job |}.

Definition reference_row (r : record) : option ref_row :=
  i ← pg_int (r !!! "id");
  Some {| r_id := i; r_name := to_str (r !!! "name") |}.

Definition copy_error : string := "COPY failed".

(** [_copy_hired_employees] and the COMMIT that follows it *)
Definition _copy_hired_employees (df : dataframe) : io unit :=
  execute (λ d, mapM employee_row_with_id df ≫= Sql.copy_employees d) copy_error.

(** [_copy_hired_employees_no_id] and the COMMIT that follows it *)
Definition _copy_hired_employees_no_id (df : dataframe) : io unit :=
  execute (λ d, Sql.copy_employees d (omap employee_row_no_id df)) copy_error.

(** [_copy_departments] and the COMMIT that follows it *)
Definition _copy_departments (df : dataframe) : io unit :=
  execute (λ d, mapM reference_row df ≫= Sql.copy_departments d) copy_error.

(** [_copy_jobs] and the COMMIT that follows it *)
Definition _copy_jobs (df : dataframe) : io unit :=
  execute (λ d, mapM reference_row df ≫= Sql.copy_jobs d) copy_error.

(** The [try] block of [_truncate_table_before_load]. *)
Definition truncate_statement (table : string) : io unit :=
  connect env;;
  execute (λ d, Sql.truncate d table) "relation does not exist";;
  log (TruncateDone table).

(** [DataMigrationService._truncate_table_before_load] *)
Definition _truncate_table_before_load (table : string) : io unit :=
  try (truncate_statement table) (λ e, log (TruncateError table e)).

(** [DataMigrationService._load_with_copy] *)
Definition _load_with_copy (df : dataframe) (table : string) : io unit :=
  try (connect env;;
       (if String.eqb table "hired_employees" then _copy_hired_employees df
        else if String.eqb table "departments" then _copy_departments df
        else if String.eqb table "jobs" then _copy_jobs df
        else mret tt);;
       log (LoadDone table (length df)))
      (λ e, log (LoadError e);; raise e).

(** [DataMigrationService._load_with_copy_no_id] *)
Definition _load_with_copy_no_id (df : dataframe) (table : string) : io unit :=
  try (connect env;;
       try (execute Sql.add_identity "column is already an identity column")
           (λ _, mret tt);;
       (if String.eqb table "hired_employees" then _copy_hired_employees_no_id df
        else if String.eqb table "departments"
        then raise "AttributeError: _copy_departments_truncate_load"
        else mret tt);;
       log (LoadDone table (length df)))
      (λ e, log (LoadError e);; raise e).

(** [DataMigrationService._load_with_copy_batches] *)
Definition _load_with_copy_batches (df : dataframe) (table : string) : io unit :=
  try (if bool_decide (batch_size = O)
       then raise "range() arg 3 must not be zero"
       else for_each (range (length df) batch_size)
              (λ i, _load_with_copy (iloc df i (i + batch_size)) table))
      (λ e, log (BatchError table e);; raise e).

(** [DataMigrationService._process_csv], from the frame pandas reads. *)
Definition _process_csv (content : object) (table : string) : io unit :=
  try (match content with
       | CsvObject df =>
         let df := _clean_dataframe df table in
         if bool_decide (df = []) then mret tt
         else _load_with_copy_batches df table
       | _ => raise "could not decode the file"
       end)
      (λ e, log (ProcessError e);; raise e).

Definition ends_with (suffix s : string) : bool :=
  String.prefix (String.rev suffix) (String.rev s).

(** What [load_from_minio_to_postgres] does once the table is truncated:
    every CSV object under the prefix of the table is processed, a failing
    one is logged and skipped. *)
Definition load_listed_files (table : string) : io bool :=
  keys ← list_objects env ("raw_data/" +:+ table +:+ "/");
  for_each (filter (λ key, ends_with ".csv" key = true) keys)
    (λ key, try (content ← get_object env key; _process_csv content table)
                (λ e, log (FileError key e)));;
  mret true.

(** [DataMigrationService.load_from_minio_to_postgres] *)
Definition load_from_minio_to_postgres (table : string) : io bool :=
  try (_truncate_table_before_load table;; load_listed_files table)
      (λ e, log (LoadTableError table e);; mret false).

(** [DataMigrationService.load_csv_to_minio] *)
Definition load_csv_to_minio (csv_path table : string) : io bool :=
  match csv_file env csv_path with
  | Some (true, df) =>
    try (put_object env ("raw_data/" +:+ table +:+ "/" +:+ table +:+ ".csv")
           (CsvObject df);;
         mret true)
        (λ _, mret false)
  | _ => mret false
  end.

(** The [csv_files] dict of [run_full_migration] and of the command, in
    the order the dict literal lists its keys. *)
Definition csv_files : list (string * string) :=
  [ ("hired_employees", "/app/data/hired_employees.csv");
    ("departments", "/app/data/departments.csv");
    ("jobs", "/app/data/jobs.csv") ].

Inductive status := success | failed | file_not_found.

(** One turn of the loop of [run_full_migration]. *)
Definition migrate_entry (entry : string * string) : io status :=
  let '(table, csv_path) := entry in
  log (Started table);;
  if bool_decide (is_Some (csv_file env csv_path)) then
    uploaded ← load_csv_to_minio csv_path table;
    if uploaded : bool then
      loaded ← load_from_minio_to_postgres table;
      mret (if loaded : bool then success else failed)
    else mret failed
  else mret file_not_found.

Fixpoint migrate_entries (entries : list (string * string))
    (results : gmap string status) : io (gmap string status) :=
  match entries with
  | [] => mret results
  | entry :: rest =>
    s ← migrate_entry entry;
    migrate_entries rest (<[entry.1 := s]> results)
  end.

(** [DataMigrationService.run_full_migration] *)
Definition run_full_migration : io (gmap string status) :=
  migrate_entries csv_files ∅.

End Service.

(** [backup_path.rstrip('/')], through the reversed text. *)
Fixpoint lstrip_slash (s : string) : string :=
  match s with
  | String "/"%char rest => lstrip_slash rest
  | _ => s
  end.

Definition rstrip_slash (s : string) : string :=
  String.rev (lstrip_slash (String.rev s)).

(** The prefix the restore lists: what follows the bucket in an [s3://]
    URL, or the path without its trailing slashes. The model has a single
    bucket. *)
Definition backup_prefix (backup_path : string) : string :=
  if String.prefix "s3://" backup_path then
    let rest := String.substring 5 (String.length backup_path - 5) backup_path in
    match String.index 0 "/" rest with
    | Some i => String.substring (S i) (String.length rest - S i) rest
    | None => rest
    end
  else rstrip_slash backup_path.

Section Restore.
Context (rt : runtime) (env : environment).

(** A timestamp column written by [to_csv] and read back by the store. *)
Definition pg_datetime (v : value) : option datetime :=
  match v with
  | VTimestamp d | VDatetime d => Some d
  | _ => pg_timestamp rt (to_str v)
  end.

Definition restored_employee (with_id : bool) (r : record) : option Sql.emp_input :=
  i ← (if with_id then Some <$> pg_int rt (r !!! "id") else Some None);
  d ← pg_datetime (r !!! "datetime");
  dep ← pg_int rt (r !!! "department_id");
  job ← pg_int rt (r !!! "job_id");
  Some {| Sql.i_id := i; Sql.i_name := to_str (r !!! "name");
          Sql.i_datetime := d; Sql.i_department_id := dep;
          Sql.i_job_id := job |}.

(** The COPY of one batch inside the transaction of a restore;
    [id_column] tells whether the frame has an [id] column. When it has
    one and the cells of the batch are all null, the buffer still carries
    five columns for a list of four, which the store refuses. *)
Definition restore_batch (table : string) (id_column : bool) (d : store)
    (batch : dataframe) : option store :=
  if String.eqb table "hired_employees" then
    if id_column && existsb (λ r : record, notna (r !!! "id")) batch
    then mapM (restored_employee true) batch ≫= Sql.copy_employees d
    else if id_column then None
    else mapM (restored_employee false) batch ≫= Sql.copy_employees d
  else if String.eqb table "departments"
  then mapM (reference_row rt) batch ≫= Sql.copy_departments d
  else if String.eqb table "jobs"
  then mapM (reference_row rt) batch ≫= Sql.copy_jobs d
  else None.

Fixpoint restore_batches (table : string) (id_column : bool) (d : store)
    (batches : list dataframe) (total_restored : nat) : option (store * nat) :=
  match batches with
  | [] => Some (d, total_restored)
  | batch :: rest =>
    d' ← restore_batch table id_column d batch;
    restore_batches table id_column d' rest (total_restored + length batch)
  end.

(** [DataMigrationService._restore_dataframe_to_postgres]: every batch of
    the frame in one transaction, committed after the last. *)
Definition _restore_dataframe_to_postgres (df : dataframe) (table : string)
    (chunk_size : nat) : io nat :=
  try (connect env;;
       if bool_decide (chunk_size = O)
       then raise "range() arg 3 must not be zero"
       else transaction
              (λ d, restore_batches table (has_column df "id") d
                      ((λ i, iloc df i (i + chunk_size))
                         <$> range (length df) chunk_size) 0)
              copy_error)
      (λ e, log (RestoreRowsError e);; raise e).

(** The loop of the restore over the sorted Parquet files, with the
    running [total_restored]. *)
Fixpoint restore_files (table : string) (chunk_size : nat)
    (files : list string) (total_restored : nat) : io nat :=
  match files with
  | [] => mret total_restored
  | parquet_file :: rest =>
    content ← get_object env parquet_file;
    match content with
    | ParquetObject df =>
      if bool_decide (df = []) then restore_files table chunk_size rest total_restored
      else
        restored_count ← _restore_dataframe_to_postgres df table chunk_size;
        log (RestoredFile parquet_file restored_count);;
        restore_files table chunk_size rest (total_restored + restored_count)
    | _ => raise "could not read the Parquet file"
    end
  end.

(** The Parquet files of a snapshot, in the order the restore reads
    them. *)
Definition parquet_files (keys : list string) : list string :=
  merge_sort String.le (filter (λ key, ends_with ".parquet" key = true) keys).

(** What the restore does once the table is truncated. *)
Definition restore_from (table path : string) (chunk_size : nat) : io bool :=
  keys ← list_objects env (backup_prefix path);
  if bool_decide (filter (λ key, ends_with ".parquet" key = true) keys = [])
  then log (NoParquet path);; mret false
  else
    total_restored ← restore_files table chunk_size (parquet_files keys) 0;
    log (RestoreDone table total_restored);;
    mret true.

(** [DataMigrationService.restore_table_from_parquet_in_minio] *)
Definition restore_table_from_parquet_in_minio (table : string)
    (backup_path : option string) (chunk_size : nat) : io bool :=
  try (match from_option Some (latest_backup env table) backup_path with
       | None => log (NoBackup table);; mret false
       | Some path =>
         _truncate_table_before_load env table;;
         restore_from table path chunk_size
       end)
      (λ e, log (RestoreError table e);; mret false).

End Restore.
End Services.

Import Services.

(* ===================================================================== *)
(** ** management/commands/run_migration_truncate_load.py *)
(* ===================================================================== *)

Module MigrationCommand.
Section Command.
Context (rt : runtime) (env : environment) (batch_size : nat).

(** [Command._migrate_table_truncate_load]; each way out writes its line
    for the table. *)
Definition _migrate_table_truncate_load (table : string) : io bool :=
  match (list_to_map csv_files : gmap string string) !! table with
  | None => log (TableFailed table);; mret false
  | Some csv_path =>
    if negb (bool_decide (is_Some (csv_file env csv_path)))
    then log (TableFailed table);; mret false
    else
      uploaded ← load_csv_to_minio env csv_path table;
      if negb uploaded then log (TableFailed table);; mret false
      else
        loaded ← load_from_minio_to_postgres rt env batch_size table;
        if loaded : bool then log (TableMigrated table);; mret true
        else log (TableFailed table);; mret false
  end.

(** [Command.handle], after the wait for MinIO. *)
Definition handle : io unit :=
  log (Started "departments");;
  dept_success ← _migrate_table_truncate_load "departments";
  if negb dept_success then log (StepFailed "departments")
  else
    log (Started "jobs");;
    job_success ← _migrate_table_truncate_load "jobs";
    if negb job_success then log (StepFailed "jobs")
    else
      log (Started "hired_employees");;
      emp_success ← _migrate_table_truncate_load "hired_employees";
      if negb emp_success then log (StepFailed "hired_employees")
      else log Completed.

End Command.
End MigrationCommand.

(* ===================================================================== *)
(** ** management/commands/run_kafka_consumer.py *)
(* ===================================================================== *)

Module Consumer.

(** [buffers = defaultdict(list)]: a table without an entry reads as the
    empty list. *)
Abbreviation buffers := (gmap string (list record)).

Section Consumer.
Context (rt : runtime) (env : environment).

(** The [--batch-size] option. *)
Context (batch_size : nat).

(** Selecting columns a frame lacks is a [KeyError]. *)
Definition require_columns (columns : list string) (df : dataframe) : io unit :=
  if forallb (has_column df) columns then mret tt else raise "KeyError".

(** The rows [df[df['id'].notna()]] and [df[df['id'].isna()]] of the
    [hired_employees] branch. *)
Definition rows_with_id (df : dataframe) : dataframe :=
  if has_column df "id" then filter (λ r : record, notna (r !!! "id") = true) df
  else [].

Definition rows_without_id (df : dataframe) : dataframe :=
  if has_column df "id" then filter (λ r : record, notna (r !!! "id") = false) df
  else df.

(** [if not with_id.empty: ...], the rows that carry an id; the columns
    are those of the whole frame [df]. *)
Definition flush_with_id (df with_id : dataframe) : io unit :=
  if bool_decide (with_id = []) then mret tt
  else
    require_columns ["id"; "name"; "datetime"; "department_id"; "job_id"] df;;
    let tmp := omap (M := list) (coerce_datetime rt) with_id in
    let tmp :=
      omap (M := list)
        (λ r, r ← coerce_int rt "id" r; r ← coerce_int rt "department_id" r;
              coerce_int rt "job_id" r) tmp in
    _load_with_copy rt env tmp "hired_employees".

(** [if not without_id.empty: ...], the rows the store gives an id. *)
Definition flush_without_id (df without_id : dataframe) : io unit :=
  if bool_decide (without_id = []) then mret tt
  else
    require_columns ["name"; "datetime"; "department_id"; "job_id"] df;;
    _load_with_copy_no_id rt env without_id "hired_employees".

(** The [hired_employees] branch of [_flush]. *)
Definition flush_hired_employees (df : dataframe) : io unit :=
  flush_with_id df (rows_with_id df);;
  flush_without_id df (rows_without_id df).

(** The [departments] and [jobs] branches of [_flush]. *)
Definition flush_reference (table : string) (df : dataframe) : io unit :=
  require_columns ["id"; "name"] df;;
  let tmp := omap (M := list) (coerce_int rt "id") df in
  let tmp := filter (λ r : record, notna (r !!! "name") = true) tmp in
  _load_with_copy rt env tmp table.

(** The [try] block of [_flush] up to the load. *)
Definition flush_items (table : string) (items : list record) : io unit :=
  if String.eqb table "hired_employees" then flush_hired_employees items
  else if String.eqb table "departments" then flush_reference "departments" items
  else if String.eqb table "jobs" then flush_reference "jobs" items
  else mret tt.

(** [_flush(table)] *)
Definition _flush (table : string) (bufs : buffers) (w : world)
  : buffers * world :=
  let items := bufs !!! table in
  if bool_decide (items = []) then (bufs, w)
  else
    match flush_items table items w with
    | (Ok _, w') =>
      (<[table := []]> bufs, (log (FlushDone table (length items)) w').2)
    | (Raise e, w') =>
      (<[table := []]> bufs, (log (FlushError table e) w').2)
    end.

(** [validate_and_log_record]: the verdict, and a row of the validation
    log for a rejection. *)
Definition validate_and_log_record (now : datetime) (table : string)
    (r : record) : io bool := λ w,
  match validate rt (db w) now table r with
  | None =>
    (log (Rejected table ("Tabla desconocida: " +:+ table) UNKNOWN_TABLE);;
     mret false) w
  | Some (true, _, _) => (Ok true, w)
  | Some (false, message, kind) =>
    (log (Rejected table (default "" message) (default VALIDATION_ERROR kind));;
     mret false) w
  end.

(** The tables of the [required_fields] dict of the loop. *)
Definition known_tables : list string := ["hired_employees"; "departments"; "jobs"].

(** One message of the loop: [now] is the clock of the validator and
    [due] tells whether two seconds have passed since the last flush of
    the table. *)
Definition on_message (now : datetime) (due : bool) (table : string)
    (payload : record) (bufs : buffers) (w : world) : buffers * world :=
  if negb (bool_decide (table ∈ known_tables)) then (bufs, (log (Skipped table) w).2)
  else
    match validate_and_log_record now table payload w with
    | (Ok true, w') =>
      let bufs' := <[table := bufs !!! table ++ [payload]]> bufs in
      if (batch_size <=? length (bufs' !!! table))%nat || due
      then _flush table bufs' w'
      else (bufs', w')
    | (_, w') => (bufs, w')
    end.

(** A poll without a message, and the shutdown: the tables whose turn it
    is are flushed one after the other. *)
Fixpoint flush_all (tables : list string) (bufs : buffers) (w : world)
  : buffers * world :=
  match tables with
  | [] => (bufs, w)
  | table :: rest =>
    let '(bufs', w') := _flush table bufs w in
    flush_all rest bufs' w'
  end.

End Consumer.
End Consumer.

(* ===================================================================== *)
(** ** A runtime for the scenarios *)
(* ===================================================================== *)

(** The fragment of CPython's [datetime.strptime] and [int] on which the
    scenarios of the specification run: zero-padded fields, ASCII digits,
    and [TIME_ZONE = 'UTC']. Only examples use it; the properties are
    stated for every runtime. *)
Module Scenario.

Definition digit (c : N) : option Z :=
  if ((0x30 <=? c) && (c <=? 0x39))%N then Some (Z.of_N c - 0x30) else None.

Fixpoint digits_from (acc : Z) (s : str) : option Z :=
  match s with
  | [] => Some acc
  | c :: rest => d ← digit c; digits_from (acc * 10 + d) rest
  end.

Definition number (s : str) : option Z :=
  match s with
  | [] => None
  | _ => digits_from 0 s
  end.

Definition int_of_str (s : str) : option Z :=
  match strip s with
  | 0x2D%N :: ds => Z.opp <$> number ds
  | 0x2B%N :: ds => number ds
  | ds => number ds
  end.

Definition is_leap (y : Z) : bool :=
  (y mod 4 =? 0) && (negb (y mod 100 =? 0) || (y mod 400 =? 0)).

Definition days_in_month (y m : Z) : Z :=
  if m =? 2 then (if is_leap y then 29 else 28)
  else if bool_decide (m ∈ [4; 6; 9; 11]) then 30 else 31.

Definition in_range (lo hi : Z) (z : Z) : option Z :=
  if (lo <=? z) && (z <=? hi) then Some z else None.

(** [YYYY-MM-DD?HH:MM:SS] with separator [sep], then an optional fraction. *)
Definition strptime (text : str) (fmt : strptime_format) : option datetime :=
  let sep := match fmt with Fmt_space => 0x20%N | _ => 0x54%N end in
  match text with
  | y1 :: y2 :: y3 :: y4 :: 0x2D%N :: m1 :: m2 :: 0x2D%N :: d1 :: d2 :: c
      :: h1 :: h2 :: 0x3A%N :: i1 :: i2 :: 0x3A%N :: s1 :: s2 :: frac =>
    if negb (c =? sep)%N then None else
    y ← number [y1; y2; y3; y4] ≫= in_range 1 9999;
    m ← number [m1; m2] ≫= in_range 1 12;
    d ← number [d1; d2] ≫= in_range 1 (days_in_month y m);
    h ← number [h1; h2] ≫= in_range 0 23;
    i ← number [i1; i2] ≫= in_range 0 59;
    s ← number [s1; s2] ≫= in_range 0 59;
    match fmt, frac with
    | Fmt_T_f, 0x2E%N :: f =>
      if (6 <? length f)%nat then None else
      us ← number f;
      Some (mk_datetime y m d h i s (us * 10 ^ Z.of_nat (6 - length f)) None)
    | Fmt_T_f, _ => None
    | _, [] => Some (mk_datetime y m d h i s 0 None)
    | _, _ => None
    end
  | _ => None
  end.

Definition make_aware (dt : datetime) : datetime + string :=
  inl (mk_datetime (year dt) (month dt) (day dt) (hour dt) (minute dt)
         (second dt) (microsecond dt) (Some 0)).

Definition to_datetime (v : value) : option datetime :=
  match v with
  | VStr text =>
    match strptime text Fmt_T, strptime text Fmt_T_f with
    | Some d, _ | None, Some d => Some d
    | None, None => strptime text Fmt_space
    end
  | VTimestamp d | VDatetime d => Some d
  | _ => None
  end.

Definition to_numeric (v : value) : option Z :=
  match v with
  | VInt z => Some z
  | VStr s => int_of_str s
  | _ => None
  end.

Definition rt : runtime :=
  {| Py.strptime := strptime; Py.make_aware := make_aware;
     Py.int_of_str := int_of_str; Py.pd_to_datetime := to_datetime;
     Py.pd_to_int := to_numeric; Py.pg_integer := int_of_str;
     Py.pg_timestamp := λ text, strptime text Fmt_space |}.

(** A moment taken as the present: 2025-10-07 12:00:00 UTC. *)
Definition now : datetime := mk_datetime 2025 10 7 12 0 0 0 (Some 0).

(** Departments 1 and 2, jobs 1 and 2, and one employee with id 5. *)
Definition db : store :=
  {| departments := [ {| r_id := 1; r_name := u "Ventas" |};
                      {| r_id := 2; r_name := u "Finanzas" |} ];
     jobs := [ {| r_id := 1; r_name := u "Analista" |};
               {| r_id := 2; r_name := u "Gerente" |} ];
     hired_employees :=
       [ {| e_id := 5; e_name := u "Luz Mora";
            e_datetime := mk_datetime 2021 3 4 9 30 0 0 (Some 0);
            e_department_id := 1; e_job_id := 1 |} ];
     identity := None |}.

(** [{name: "Ana Ruiz", datetime: "2023-01-05T10:00:00", department_id: 1,
     job_id: 2}] *)
Definition ana : record :=
  {[ "name" := VStr (u "Ana Ruiz");
     "datetime" := VStr (u "2023-01-05T10:00:00");
     "department_id" := VInt 1;
     "job_id" := VInt 2 ]}.

(** The CSV files under /app/data. The second employee row has an empty
    id cell. *)
Definition departments_csv : dataframe :=
  [ {[ "id" := VInt 1; "name" := VStr (u "Ventas") ]};
    {[ "id" := VInt 2; "name" := VStr (u "Finanzas") ]} ].

Definition jobs_csv : dataframe :=
  [ {[ "id" := VInt 1; "name" := VStr (u "Analista") ]};
    {[ "id" := VInt 2; "name" := VStr (u "Gerente") ]} ].

Definition employees_csv : dataframe :=
  [ {[ "id" := VStr (u "1"); "name" := VStr (u "Ana Ruiz");
       "datetime" := VStr (u "2023-01-05T10:00:00");
       "department_id" := VInt 1; "job_id" := VInt 2 ]};
    {[ "id" := VStr []; "name" := VStr (u "Iván Gil");
       "datetime" := VStr (u "2022-11-30T08:15:00");
       "department_id" := VInt 2; "job_id" := VInt 1 ]} ].

Definition files : gmap string (bool * dataframe) :=
  {[ "/app/data/departments.csv" := (true, departments_csv);
     "/app/data/jobs.csv" := (true, jobs_csv);
     "/app/data/hired_employees.csv" := (true, employees_csv) ]}.

(** Everything outside the repository works. *)
Definition env : environment :=
  {| connect_ok := λ _, true; minio_ok := λ _, true;
     csv_file := λ path, files !! path; latest_backup := λ _, None |}.

(** The same, except that the connection numbered [n] is refused. *)
Definition env_refusing (n : nat) : environment :=
  {| connect_ok := λ k, negb (k =? n)%nat; minio_ok := λ _, true;
     csv_file := λ path, files !! path; latest_backup := λ _, None |}.

(** Five department rows, the last of which repeats the id of the
    first. *)
Definition five_departments : dataframe :=
  [ {[ "id" := VInt 1; "name" := VStr (u "Ventas") ]};
    {[ "id" := VInt 2; "name" := VStr (u "Finanzas") ]};
    {[ "id" := VInt 3; "name" := VStr (u "Compras") ]};
    {[ "id" := VInt 4; "name" := VStr (u "Legal") ]};
    {[ "id" := VInt 1; "name" := VStr (u "Ventas Norte") ]} ].

(** The same, except that /app/data/hired_employees.csv is missing. *)
Definition env_without_employees : environment :=
  {| connect_ok := λ _, true; minio_ok := λ _, true;
     csv_file := λ path, delete "/app/data/hired_employees.csv" files !! path;
     latest_backup := λ _, None |}.

Definition world_of (d : store) (objects : list (string * object)) : world :=
  {| World.db := d; bucket := objects; connections := 0; requests := 0;
     journal := [] |}.

End Scenario.

(* ===================================================================== *)
(** ** Vocabulary of the specification *)
(* ===================================================================== *)

(** The rule accepts a name when it leaves no error. *)
Definition name_accepted (name : str) : bool :=
  bool_decide (name_errors (VStr name) = []).

(** The characters the pattern admits, one alternative per item of the
    class. *)
Definition pattern_char (c : N) : Prop :=
  (0x61 ≤ c ≤ 0x7A)%N ∨ (0x41 ≤ c ≤ 0x5A)%N ∨ c ∈ u "áéíóúÁÉÍÓÚñÑ"
  ∨ is_space c = true ∨ c = 0x2D%N ∨ c = 0x2E%N.

(** The rule as the specification words it. Letters are those of general
    category L in the Basic Latin and Latin-1 Supplement blocks, which is
    where the accented Latin letters of the examples live. *)
Definition spec_letter (c : N) : bool :=
  ((0x41 <=? c) && (c <=? 0x5A) || (0x61 <=? c) && (c <=? 0x7A)
   || (c =? 0xAA) || (c =? 0xB5) || (c =? 0xBA)
   || (0xC0 <=? c) && (c <=? 0xD6) || (0xD8 <=? c) && (c <=? 0xF6)
   || (0xF8 <=? c) && (c <=? 0xFF))%N.

Definition spec_name_char (c : N) : bool :=
  spec_letter c || (c =? 0x20)%N || (c =? 0x2D)%N || (c =? 0x2E)%N.

Definition spec_name_rule (name : str) : Prop :=
  (2 ≤ length (strip name) ≤ 255)%nat
  ∧ Forall (λ c, spec_name_char c = true) (strip name).

(** A required field is absent, null, or blank after trimming. *)
Definition absent_or_blank (r : record) (field : string) : Prop :=
  r !! field = None ∨ r !! field = Some VNone
  ∨ ∃ s, r !! field = Some (VStr s) ∧ strip s = [].

(** A message lists a part when the part occurs in it. *)
Definition lists (message part : string) : Prop :=
  ∃ before after, message = before +:+ part +:+ after.

(** The three table kinds that have a validator. *)
Definition table_kinds : list string := ["hired_employees"; "departments"; "jobs"].

(** All required fields of an employee record are present. *)
Definition employee_fields_present (r : record) : Prop :=
  ∀ field, field ∈ employee_required → field_missing r field = false.

(** The hired_at of a record once parsed and normalized: an aware
    datetime, or [None] when the value is not a well-formed date. *)
Definition hired_at (rt : runtime) (r : record) : option datetime :=
  dt ← match r !!! "datetime" with
       | VStr text => parse_datetime rt text
       | VTimestamp d | VDatetime d => Some d
       | _ => None
       end;
  match tzinfo dt with
  | Some _ => Some dt
  | None => match make_aware rt dt with inl dt' => Some dt' | inr _ => None end
  end.

(** A field of the record reads as the id of an existing row. *)
Definition references (rt : runtime) (exist : Z → bool) (r : record)
    (field : string) : Prop :=
  ∃ i, to_int rt (r !!! field) = Some i ∧ exist i = true.

Definition references_positive (rt : runtime) (exist : Z → bool) (r : record)
    (field : string) : Prop :=
  ∃ i, to_int rt (r !!! field) = Some i ∧ 0 < i ∧ exist i = true.

(** The explicit id of an employee record, if there is one, is an int32
    greater than zero that no employee row uses yet. *)
Definition explicit_id_free (rt : runtime) (db : store) (r : record) : Prop :=
  match explicit_id r with
  | None => True
  | Some v =>
    ∃ i, to_int rt v = Some i ∧ 1 ≤ i ≤ 2147483647 ∧ employee_exists db i = false
  end.

(** A computation keeps a property of the world, whichever way it ends. *)
Definition preserves {A} (I : world → Prop) (m : io A) : Prop :=
  ∀ w, I w → I (m w).2.

(** A computation leaves an observation of the world as it found it. *)
Definition unchanged {A S} (view : world → S) (m : io A) : Prop :=
  ∀ w, view (m w).2 = view w.

(** A computation returns; no exception leaves it. *)
Definition never_raises {A} (m : io A) : Prop :=
  ∀ w, ∃ a, (m w).1 = Ok a.

(** Every employee row of the store references a department row and a
    job row of the store. *)
Definition fk_ok (d : store) : Prop :=
  ∀ row, row ∈ hired_employees d →
    department_exists d (e_department_id row) = true
    ∧ job_exists d (e_job_id row) = true.

Definition fk_view (w : world) : Prop := fk_ok (db w).

(** The lines that tell which table a migration is at. *)
Definition is_step (ev : event) : bool :=
  match ev with
  | Started _ | TableMigrated _ | TableFailed _ | StepFailed _ | Completed => true
  | _ => false
  end.

Definition steps (lines : list event) : list event :=
  filter (λ ev, is_step ev = true) lines.

Definition step_view (w : world) : list event := steps (journal w).

(** The rows of the partition stored under a key, and of a snapshot. *)
Definition partition_rows (entries : list (string * object)) (key : string) : nat :=
  match object_at entries key with
  | ParquetObject df => length df
  | _ => O
  end.

Definition snapshot_rows (entries : list (string * object)) (files : list string)
  : nat :=
  sum_list (partition_rows entries <$> files).

(** The step lines of the command that stops at the first failure, from
    its first line on: each table is announced, then reported as migrated
    or failed; a failure is followed by the line of the step that failed
    and by nothing else. *)
Definition command_traces : list (list event) :=
  [ [ Started "departments"; TableFailed "departments";
      StepFailed "departments" ];
    [ Started "departments"; TableMigrated "departments";
      Started "jobs"; TableFailed "jobs"; StepFailed "jobs" ];
    [ Started "departments"; TableMigrated "departments";
      Started "jobs"; TableMigrated "jobs";
      Started "hired_employees"; TableFailed "hired_employees";
      StepFailed "hired_employees" ];
    [ Started "departments"; TableMigrated "departments";
      Started "jobs"; TableMigrated "jobs";
      Started "hired_employees"; TableMigrated "hired_employees";
      Completed ] ].

(** The rows of a table, whichever of the three it is. *)
Inductive stored_row :=
  | ReferenceRow (r : ref_row)
  | EmployeeRow (r : emp_row).

Definition table_rows (d : store) (table : string) : list stored_row :=
  if String.eqb table "hired_employees" then EmployeeRow <$> hired_employees d
  else if String.eqb table "departments" then ReferenceRow <$> departments d
  else if String.eqb table "jobs" then ReferenceRow <$> jobs d
  else [].

(** The rows a frame becomes in its table when [_load_with_copy] loads
    it; [None] when a cell cannot be converted. *)
Definition loaded_rows (rt : runtime) (table : string) (df : dataframe)
  : option (list stored_row) :=
  if String.eqb table "hired_employees" then
    fmap (λ x, EmployeeRow (Sql.with_id (default 0 (Sql.i_id x)) x))
      <$> mapM (employee_row_with_id rt) df
  else if String.eqb table "departments" || String.eqb table "jobs" then
    fmap ReferenceRow <$> mapM (reference_row rt) df
  else Some [].

(** The chunks [_load_with_copy_batches] cuts a frame into. *)
Definition chunks (size : nat) (df : dataframe) : list dataframe :=
  (λ i, iloc df i (i + size)) <$> range (length df) size.

(** The lines [_load_with_copy] writes, one per call. *)
Definition is_load (ev : event) : bool :=
  match ev with
  | LoadDone _ _ | LoadError _ => true
  | _ => false
  end.

Definition loads (lines : list event) : nat :=
  length (filter (λ ev, is_load ev = true) lines).

(** The calls of [_load_with_copy] that committed. *)
Definition is_commit (ev : event) : bool :=
  match ev with
  | LoadDone _ _ => true
  | _ => false
  end.

Definition commits (lines : list event) : nat :=
  length (filter (λ ev, is_commit ev = true) lines).

(* ===================================================================== *)
(** ** Backups in MinIO and the commands around them *)
(* ===================================================================== *)

(** [backup_table_to_parquet_in_minio] of services.py and the commands
    run_backup_parquet and run_restore_parquet. The timestamp of a backup
    is written for the years from 1000 on, which [%Y] gives four
    digits. *)
Module Backup.

(** A row of [departments] or [jobs] as [pd.DataFrame(rows,
    columns=colnames)] holds it. *)
Definition reference_record (row : ref_row) : record :=
  {[ "id" := VInt (r_id row); "name" := VStr (r_name row) ]}.

Definition employee_record (row : emp_row) : record :=
  {[ "id" := VInt (e_id row); "name" := VStr (e_name row);
     "datetime" := VTimestamp (e_datetime row);
     "department_id" := VInt (e_department_id row);
     "job_id" := VInt (e_job_id row) ]}.

(** [SELECT * FROM "table"]; an unknown relation is an error. *)
Definition select_all (d : store) (table : string) : option dataframe :=
  if String.eqb table "hired_employees"
  then Some (employee_record <$> hired_employees d)
  else if String.eqb table "departments"
  then Some (reference_record <$> departments d)
  else if String.eqb table "jobs" then Some (reference_record <$> jobs d)
  else None.

(** The loop [while True: rows = cursor.fetchmany(chunk_size); if not
    rows: break; ...]: one part per fetch, until a fetch comes back
    empty. Every fetch but the last takes a row at least, so the number
    of rows bounds the number of turns. *)
Fixpoint fetch_parts (turns chunk_size : nat) (rows : dataframe) : list dataframe :=
  match turns with
  | O => []
  | S turns' =>
    let part := take chunk_size rows in
    if bool_decide (part = []) then []
    else part :: fetch_parts turns' chunk_size (drop chunk_size rows)
  end.

(** [datetime.utcnow().strftime('%Y%m%dT%H%M%S')] *)
Definition strftime_compact (now : datetime) : string :=
  pad 4 (year now) +:+ pad 2 (month now) +:+ pad 2 (day now) +:+ "T"
  +:+ pad 2 (hour now) +:+ pad 2 (minute now) +:+ pad 2 (second now).

(** [f"backups/{table_name}/{ts}"] *)
Definition object_prefix (now : datetime) (table : string) : string :=
  "backups/" +:+ table +:+ "/" +:+ strftime_compact now.

(** [f"{object_prefix}/part-{part:04d}.parquet"] *)
Definition part_key (prefix : string) (part : nat) : string :=
  prefix +:+ "/part-" +:+ pad 4 (Z.of_nat part) +:+ ".parquet".

(** The list [tmp_files]: the key of each part with its rows. *)
Definition part_files (prefix : string) (parts : list dataframe)
  : list (string * dataframe) :=
  imap (λ part batch_df, (part_key prefix part, batch_df)) parts.

Section Backup.
Context (env : environment).

(** [settings.MINIO_BUCKET_NAME] *)
Context (bucket_name : string).

(** The rows the server-side cursor reads. *)
Definition fetch_all (table : string) : io dataframe := λ w,
  match select_all (db w) table with
  | Some rows => (Ok rows, w)
  | None => (Raise "relation does not exist", w)
  end.

(** [DataMigrationService.backup_table_to_parquet_in_minio]; [now] is
    [datetime.utcnow()]. Its handler logs and raises again, and its
    [finally] block removes the temporary files. *)
Definition backup_table_to_parquet_in_minio (now : datetime) (table : string)
    (chunk_size : nat) : io string :=
  connect env;;
  rows ← fetch_all table;
  let tmp_files :=
    part_files (object_prefix now table)
      (fetch_parts (length rows) chunk_size rows) in
  for_each tmp_files (λ file, put_object env file.1 (ParquetObject file.2));;
  mret ("s3://" +:+ bucket_name +:+ "/" +:+ object_prefix now table +:+ "/").

(** [Command.handle] of run_backup_parquet: the line it writes. *)
Definition handle (now : datetime) (table : string) (chunk_size : nat)
  : io string :=
  try (uri ← backup_table_to_parquet_in_minio now table chunk_size;
       mret ("Backup completed: " +:+ uri))
      (λ e, mret ("Backup failed: " +:+ e)).

End Backup.
End Backup.

Module RestoreCommand.
Section Command.
Context (rt : runtime) (env : environment).

Definition valid_tables : list string := ["hired_employees"; "departments"; "jobs"].

(** [Command.handle] of run_restore_parquet: it returns, or raises
    [CommandError] with the text given. *)
Definition handle (table : string) (backup_path : option string)
    (chunk_size : nat) : io unit :=
  if negb (bool_decide (table ∈ valid_tables))
  then raise ("Tabla inválida: " +:+ table +:+ ". Tablas válidas: "
              +:+ join ", " valid_tables)
  else
    try (success ← restore_table_from_parquet_in_minio rt env table backup_path
                     chunk_size;
         if success : bool then mret tt else raise "La restauración falló")
        (λ e, raise ("Error durante la restauración: " +:+ e)).

End Command.
End RestoreCommand.

(** The endpoint [/ingest] of views.py, past its permission classes, for
    a request whose body is a JSON object. An item of [records] that is
    no object is [None]; a [table] that is absent or no string is
    [None], and so is a [records] that is absent or no list. *)
Module Views.

(** A message handed to the producer: [producer.produce(topic=..., key=...,
    value={"table": table, "payload": r})]. *)
Record message := {
  topic : string;
  key : str;
  m_table : string;
  payload : record
}.

(** An entry of the [errors] list of a response: [{"index": idx, "error":
    reason}]. *)
Abbreviation rejection := (option nat * string)%type.

(** What the endpoint answers. With 202 go the messages it has handed to
    the producer; their delivery is reported to a callback that only
    logs. What a producer that fails has sent before is not modelled. *)
Inductive response :=
  | Refused (error : string)                                 (* 400 *)
  | NothingValid (rejected : nat) (errors : list rejection)  (* 400 *)
  | KafkaFailed (accepted rejected : nat) (errors : list rejection) (* 500 *)
  | Accepted (accepted rejected : nat) (errors : list rejection)
      (produced : list message).                             (* 202 *)

Section Ingest.
Context (rt : runtime).

(** The exception of the producer, if it raises one. *)
Context (kafka_error : option string).

(** The clock at the validation of the record of each index. *)
Context (clock : nat → datetime).

Definition tables : list string := ["hired_employees"; "departments"; "jobs"].

(** The loop [for idx, r in enumerate(records)], from index [idx] on:
    the lists [valid] and [errors]. *)
Fixpoint validate_records (table : string) (idx : nat)
    (records : list (option record)) : io (list record * list rejection) :=
  match records with
  | [] => mret ([], [])
  | None :: rest =>
    checked ← validate_records table (S idx) rest;
    mret (checked.1, (Some idx, "record is not an object") :: checked.2)
  | Some r :: rest =>
    ok ← Consumer.validate_and_log_record rt (clock idx) table r;
    checked ← validate_records table (S idx) rest;
    mret (if ok : bool then (r :: checked.1, checked.2)
          else (checked.1,
                (Some idx, "record failed validation rules") :: checked.2))
  end.

(** [str(r.get('id', ''))] *)
Definition key_of (r : record) : str :=
  match r !! "id" with
  | Some v => to_str v
  | None => []
  end.

Definition envelope (table : string) (r : record) : message :=
  {| topic := "raw." +:+ table; key := key_of r; m_table := table; payload := r |}.

(** [ingest(request)] *)
Definition ingest (table : option string) (records : option (list (option record)))
  : io response :=
  match table with
  | Some table =>
    if negb (bool_decide (table ∈ tables))
    then mret (Refused "Invalid or missing table")
    else
      match records with
      | Some records =>
        if negb ((1 <=? length records)%nat && (length records <=? 1000)%nat)
        then mret (Refused "records must be a list of 1..1000 items")
        else
          checked ← validate_records table 0 records;
          let valid := checked.1 in
          let errors := checked.2 in
          if bool_decide (valid = [])
          then mret (NothingValid (length errors) errors)
          else
            match kafka_error with
            | Some e =>
              mret (KafkaFailed 0 (length records)
                      (errors ++ [(None, "kafka error: " +:+ e)]))
            | None =>
              mret (Accepted (length valid) (length errors) errors
                      (envelope table <$> valid))
            end
      | None => mret (Refused "records must be a list of 1..1000 items")
      end
  | None => mret (Refused "Invalid or missing table")
  end.

End Ingest.
End Views.

(** [get_latest_backup_path] of services.py, on its own: the restore
    above takes its answer from the environment. A listing returns a
    thousand entries at most; the function is written for the listings
    that fit. Its log lines are left out. *)
Module LatestBackup.

(** The folder of a key under a prefix: what lies between the prefix
    and the next slash. [list_objects_v2(..., Delimiter='/')] gathers the
    keys that have one under the common prefix [prefix + folder + '/'],
    and [path.split('/')[-2]] reads the folder off that. *)
Definition folder (prefix key : string) : option string :=
  if String.prefix prefix key then
    let rest :=
      String.substring (String.length prefix)
        (String.length key - String.length prefix) key in
    i ← String.index 0 "/" rest;
    Some (String.substring 0 i rest)
  else None.

(** [sorted(backup_timestamps, reverse=True)[0]] *)
Definition latest (backup_timestamps : list string) : option string :=
  head (reverse (merge_sort String.le backup_timestamps)).

Section LatestBackup.
Context (env : environment).

(** [DataMigrationService.get_latest_backup_path]; [len] counts the
    characters of a text, not its bytes. *)
Definition get_latest_backup_path (table : string) : io (option string) :=
  let prefix := "backups/" +:+ table +:+ "/" in
  try (keys ← list_objects env prefix;
       let folders := omap (folder prefix) keys in
       if bool_decide (folders = []) then mret None
       else
         let backup_timestamps :=
           filter (λ timestamp_part, length (u timestamp_part) = 15%nat) folders in
         match latest backup_timestamps with
         | None => mret None
         | Some latest_timestamp =>
           mret (Some (prefix +:+ latest_timestamp +:+ "/"))
         end)
      (λ _, mret None).

End LatestBackup.
End LatestBackup.

(* ===================================================================== *)
(** ** Vocabulary of the further properties *)
(* ===================================================================== *)

(** A numeral without a leading zero: "0", or one that starts with
    another digit. *)
Definition no_leading_zero (s : string) : Prop :=
  s = "0" ∨ ∃ c rest, s = String c rest ∧ c ≠ "0"%char.

(** The zeros [pad] puts in front of a short numeral. *)
Definition zeros (n : nat) : string := String.concat "" (replicate n "0"%string).

(** What [put_object] makes of the entries of the bucket. *)
Definition put (entries : list (string * object)) (key : string) (o : object)
  : list (string * object) :=
  (key, o) :: filter (λ entry, entry.1 ≠ key) entries.

(** The world after [n] more requests that left [entries] in the bucket. *)
Definition uploaded (w : world) (entries : list (string * object)) (n : nat)
  : world :=
  {| db := db w; bucket := entries; connections := connections w;
     requests := (requests w + n)%nat; journal := journal w |}.

(** The entry of the bucket a part of a backup becomes. *)
Definition parquet_entry (file : string * dataframe) : string * object :=
  (file.1, ParquetObject file.2).

(** The entries of the bucket after the parts are uploaded in turn. *)
Definition put_all (entries : list (string * object))
    (files : list (string * dataframe)) : list (string * object) :=
  foldl (λ b file, put b file.1 (ParquetObject file.2)) entries files.

(** The pieces [range] and [iloc] cut a list into. *)
Definition slices {A} (size : nat) (l : list A) : list (list A) :=
  (λ i, take size (drop i l)) <$> range (length l) size.

(** The first thousand part numbers, padded: four characters each, in
    ascending order. *)
Definition ascending_pads (n : nat) : bool :=
  forallb (λ k, (String.length (pad 4 (Z.of_nat k)) =? 4)%nat
                && (String.length (pad 4 (Z.of_nat (S k))) =? 4)%nat
                && String.leb (pad 4 (Z.of_nat k)) (pad 4 (Z.of_nat (S k))))
    (seq 0 n).

(** A text without a slash, as the name of a bucket is. *)
Fixpoint no_slash (s : string) : bool :=
  match s with
  | "" => true
  | String c rest => negb (Ascii.eqb c "/") && no_slash rest
  end.

(** The store with the rows of one table replaced. *)
Definition set_departments (d : store) (rows : list ref_row) : store :=
  {| departments := rows; jobs := jobs d; hired_employees := hired_employees d;
     identity := identity d |}.

Definition set_jobs (d : store) (rows : list ref_row) : store :=
  {| departments := departments d; jobs := rows;
     hired_employees := hired_employees d; identity := identity d |}.

Definition set_hired_employees (d : store) (rows : list emp_row) : store :=
  {| departments := departments d; jobs := jobs d; hired_employees := rows;
     identity := identity d |}.

(** What lets a COPY of employee rows with their ids through. *)
Definition employees_fit (d : store) (rows : list emp_row) : Prop :=
  NoDup (e_id <$> hired_employees d ++ rows)
  ∧ forallb (Sql.employee_row_ok d) rows = true.

(** A stored employee as the COPY with the id column receives it. *)
Definition employee_input (row : emp_row) : Sql.emp_input :=
  {| Sql.i_id := Some (e_id row); Sql.i_name := e_name row;
     Sql.i_datetime := e_datetime row;
     Sql.i_department_id := e_department_id row; Sql.i_job_id := e_job_id row |}.

(** The constraints of the schema hold in a store: ids are unique and
    int32, names fit, and every employee references its rows. *)
Definition constraints_hold (d : store) : bool :=
  Sql.reference_rows_ok [] (departments d)
  && Sql.reference_rows_ok [] (jobs d)
  && bool_decide (NoDup (e_id <$> hired_employees d))
  && forallb (Sql.employee_row_ok d) (hired_employees d).

(** A text that [to_csv] writes without quotes and COPY reads back as it
    is: no tab, line feed, carriage return, double quote or backslash. *)
Definition copy_plain (s : str) : bool :=
  forallb (λ c, negb (bool_decide (c ∈ [0x09; 0x0A; 0x0D; 0x22; 0x5C]%N))) s.

(** The rows of a table pass through a snapshot unchanged: their names
    are plain, and their dates lie in the years a pandas timestamp
    holds. *)
Definition snapshot_safe (d : store) (table : string) : bool :=
  if String.eqb table "hired_employees" then
    forallb (λ row, copy_plain (e_name row)
                    && (1678 <=? year (e_datetime row))
                    && (year (e_datetime row) <=? 2261))
      (hired_employees d)
  else if String.eqb table "departments"
  then forallb (λ row, copy_plain (r_name row)) (departments d)
  else forallb (λ row, copy_plain (r_name row)) (jobs d).

(** The table of employees is empty. *)
Definition no_employees (d : store) : Prop := hired_employees d = [].

(** The two tables [hired_employees] references. *)
Definition reference_tables : list string := ["departments"; "jobs"].

(** The explicit id of a department or job record, if there is one, is
    an integer greater than zero that no row of its table uses yet. *)
Definition reference_id_free (rt : runtime) (taken : Z → bool) (r : record) : Prop :=
  match explicit_id r with
  | None => True
  | Some v => ∃ i, to_int rt v = Some i ∧ 0 < i ∧ taken i = false
  end.

(** Everything works except the request to MinIO numbered [n]. *)
Definition env_minio_refusing (n : nat) : environment :=
  {| connect_ok := λ _, true; minio_ok := λ k, negb (k =? n)%nat;
     csv_file := λ path, Scenario.files !! path; latest_backup := λ _, None |}.

(** A batch of the consumer: an employee that repeats the id of the
    scenario's row, and one without an id. *)
Definition batch_with_taken_id : Consumer.buffers :=
  {[ "hired_employees" := [ <["id" := VInt 5]> Scenario.ana; Scenario.ana ] ]}.

(** A record passes the validator of its table, against a store and at
    a moment. *)
Definition passes (rt : runtime) (d : store) (now : datetime) (table : string)
    (r : record) : bool :=
  match validate rt d now table r with
  | Some (true, _, _) => true
  | _ => false
  end.

(** The item of a request at an index, if it is an object that passes. *)
Definition passed (rt : runtime) (d : store) (clock : nat → datetime)
    (table : string) (idx : nat) (item : option record) : option record :=
  r ← item; if passes rt d (clock idx) table r then Some r else None.

(** The index of an item of a request, if the item does not pass. *)
Definition failed_index (rt : runtime) (d : store) (clock : nat → datetime)
    (table : string) (idx : nat) (item : option record) : option nat :=
  match passed rt d clock table idx item with
  | Some _ => None
  | None => Some idx
  end.

(** A folder of the table with a name of fifteen characters. *)
Definition backup_folder (entries : list (string * object)) (table ts : string)
  : Prop :=
  length (u ts) = 15%nat
  ∧ ∃ key, key ∈ entries.*1
           ∧ LatestBackup.folder ("backups/" +:+ table +:+ "/") key = Some ts.

(** A bucket with two backups of [jobs] and a folder that is no
    timestamp. *)
Definition two_backups : list (string * object) :=
  [ ("backups/jobs/20250101T000000/part-0000.parquet",
     ParquetObject Scenario.jobs_csv);
    ("backups/jobs/latest/part-0000.parquet", ParquetObject Scenario.jobs_csv);
    ("backups/jobs/20251007T120000/part-0000.parquet",
     ParquetObject Scenario.jobs_csv) ].

(* ===================================================================== *)
(** * Properties *)
(* ===================================================================== *)

Example u_accents : u "Ñandú" = [0xD1; 0x61; 0x6E; 0x64; 0xFA]%N.
Proof. reflexivity. Qed.

Example strip_example : strip (u "  Ana Ruiz ") = u "Ana Ruiz".
Proof. reflexivity. Qed.

Example datetime_str_example :
  datetime_str (mk_datetime 2023 1 5 10 0 0 0 (Some 0))
  = "2023-01-05 10:00:00+00:00"%string.
Proof. vm_compute. reflexivity. Qed.

Example days_from_civil_example : days_from_civil 2023 1 5 = 19362.
Proof. reflexivity. Qed.

Example scenario_strptime :
  Scenario.strptime (u "2023-01-05T10:00:00") Fmt_T
  = Some (mk_datetime 2023 1 5 10 0 0 0 None).
Proof. vm_compute. reflexivity. Qed.

Example scenario_ana_accepted :
  validate_hired_employee Scenario.rt Scenario.db Scenario.now Scenario.ana
  = accepted.
Proof. vm_compute. reflexivity. Qed.

Example scenario_future_rejected :
  validate_hired_employee Scenario.rt Scenario.db Scenario.now
    (<["id" := VInt 7]> (<["datetime" := VStr (u "2099-01-01T00:00:00")]> Scenario.ana))
  = rejected ["Fecha no puede ser futura"] VALIDATION_ERROR.
Proof. vm_compute. reflexivity. Qed.

Example scenario_department_bang :
  validate_department Scenario.rt Scenario.db
    {[ "id" := VInt 9; "name" := VStr (u "R&D!") ]}
  = rejected ["Nombre contiene caracteres inválidos"] VALIDATION_ERROR.
Proof. vm_compute. reflexivity. Qed.

(* --------------------------------------------------------------------- *)
(** ** The name rule *)
(* --------------------------------------------------------------------- *)

Lemma name_class_spec c : name_class c = true ↔ pattern_char c.
Proof.
  unfold name_class, pattern_char.
  rewrite !orb_true_iff, !andb_true_iff, !N.leb_le, !N.eqb_eq, bool_decide_eq_true.
  tauto.
Qed.

(** A pattern [^[cls]+$] whose class contains the newline matches exactly
    the non-empty texts made of class characters: [$] before a final
    newline adds nothing. *)
Lemma match_class_plus_spec (cls : N → bool) :
  cls 0x0A%N = true →
  ∀ s started,
    match_class_plus cls started s = true
    ↔ Forall (λ c, cls c = true) s ∧ (started = true ∨ s ≠ []).
Proof.
  intros Hnl s. induction s as [|c rest IH]; intros started; simpl.
  - split.
    + intros ->. split; [constructor | by left].
    + intros [_ [-> | ?]]; done.
  - rewrite orb_true_iff, !andb_true_iff, N.eqb_eq, bool_decide_eq_true, IH.
    split.
    + intros [[[_ ->] ->] | [Hc [Hrest _]]].
      * split; [repeat constructor; done | by right].
      * split; [by constructor | by right].
    + intros [Hall _]. inversion Hall; subst. right. split; [done|].
      split; [done | by left].
Qed.

Lemma name_pattern_spec name :
  name_pattern name = true ↔ name ≠ [] ∧ Forall pattern_char name.
Proof.
  unfold name_pattern. rewrite match_class_plus_spec by reflexivity.
  rewrite (Forall_iff _ name pattern_char) by (intros c; apply name_class_spec).
  split.
  - intros [? [? | ?]]; done.
  - intros [? ?]. split; [done | by right].
Qed.

(** C6 (as the code has it). The name rule accepts a name if and only if
    its trimmed length is between 2 and 255 and every character of the
    trimmed name is an ASCII letter, one of the twelve letters
    á é í ó ú Á É Í Ó Ú ñ Ñ, a whitespace character, a hyphen or a
    period. *)
Theorem name_rule_accepts_iff (name : str) :
  name_accepted name = true
  ↔ (2 ≤ length (strip name) ≤ 255)%nat ∧ Forall pattern_char (strip name).
Proof.
  unfold name_accepted, name_errors. rewrite bool_decide_eq_true. simpl.
  destruct (Nat.ltb_spec (length (strip name)) 2) as [Hshort | Hlen2].
  { split; [done | lia]. }
  destruct (Nat.ltb_spec 255 (length (strip name))) as [Hlong | Hlen255].
  { split; [done | lia]. }
  destruct (name_pattern (strip name)) eqn:Hpat; simpl.
  - apply name_pattern_spec in Hpat as [_ Hall]. split; [|done].
    intros _. split; [lia | done].
  - split; [done|]. intros [_ Hall].
    assert (name_pattern (strip name) = true) as Hyes; [|congruence].
    apply name_pattern_spec. split; [|done].
    intros Hnil. rewrite Hnil in Hlen2. simpl in Hlen2. lia.
Qed.

(** C6 (as stated) fails: "Müller" has trimmed length 6 and consists of
    Unicode letters only, yet the rule rejects it, since ü is not in the
    character class of the pattern. *)
Lemma name_rule_rejects_unicode_letter :
  spec_name_rule (u "Müller") ∧ name_accepted (u "Müller") = false.
Proof.
  split; [|vm_compute; reflexivity].
  split; [vm_compute; lia|].
  apply Forall_forall. intros c Hc.
  vm_compute in Hc. repeat (apply elem_of_cons in Hc as [-> | Hc]; [reflexivity|]).
  by apply elem_of_nil in Hc.
Qed.

(* --------------------------------------------------------------------- *)
(** ** Required fields *)
(* --------------------------------------------------------------------- *)

Lemma append_assoc (a b c : string) : (a +:+ b) +:+ c = a +:+ b +:+ c.
Proof.
  induction a as [|x a IH]; [done|].
  change (String x ((a +:+ b) +:+ c) = String x (a +:+ b +:+ c)). by f_equal.
Qed.

Lemma append_nil_r (a : string) : a +:+ "" = a.
Proof.
  induction a as [|x a IH]; [done|].
  change (String x (a +:+ "") = String x a). by f_equal.
Qed.

Lemma lists_join sep (parts : list string) part :
  part ∈ parts → lists (join sep parts) part.
Proof.
  unfold lists, join. induction parts as [|p parts IH]; intros Hin.
  - by apply elem_of_nil in Hin.
  - apply elem_of_cons in Hin as [-> | Hin].
    + destruct parts as [|q parts]; simpl.
      * exists "", "". by rewrite append_nil_r.
      * by exists "", (sep +:+ String.concat sep (q :: parts)).
    + destruct (IH Hin) as (before & after & Heq).
      destruct parts as [|q parts]; [by apply elem_of_nil in Hin|].
      exists (p +:+ sep +:+ before), after.
      change (String.concat sep (p :: q :: parts))
        with (p +:+ sep +:+ String.concat sep (q :: parts)).
      by rewrite Heq, !append_assoc.
Qed.

Lemma absent_or_blank_missing r field :
  absent_or_blank r field → field_missing r field = true.
Proof.
  unfold field_missing.
  intros [-> | [-> | (s & -> & Hblank)]]; [done | done |].
  simpl. rewrite Hblank. by rewrite orb_true_r.
Qed.

Lemma collect_missing_elem r required field :
  field ∈ required → field_missing r field = true →
  missing_message field ∈ collect_missing r required.
Proof.
  intros Hin Hmiss. unfold collect_missing.
  apply list_elem_of_fmap. exists field. split; [done|].
  by apply list_elem_of_filter.
Qed.

Lemma validate_hired_employee_missing rt db now r :
  collect_missing r employee_required ≠ [] →
  validate_hired_employee rt db now r
  = rejected (collect_missing r employee_required) MISSING_REQUIRED_FIELDS.
Proof.
  intros Hne. unfold validate_hired_employee.
  by rewrite bool_decide_eq_false_2.
Qed.

Lemma validate_reference_missing rt taken r :
  collect_missing r reference_required ≠ [] →
  validate_reference rt taken r
  = rejected (collect_missing r reference_required) MISSING_REQUIRED_FIELDS.
Proof.
  intros Hne. unfold validate_reference.
  by rewrite bool_decide_eq_false_2.
Qed.

(** Whatever the table kind, a record with a missing required field gets
    the missing-fields verdict built from [collect_missing]. *)
Lemma validate_missing rt db now table r :
  table ∈ table_kinds →
  collect_missing r (required_fields table) ≠ [] →
  validate rt db now table r
  = Some (rejected (collect_missing r (required_fields table))
            MISSING_REQUIRED_FIELDS).
Proof.
  intros Hkind Hne. unfold table_kinds in Hkind.
  repeat (apply elem_of_cons in Hkind as [-> | Hkind]);
    [| | | by apply elem_of_nil in Hkind];
    unfold validate, required_fields in *; simpl in *.
  - by rewrite validate_hired_employee_missing.
  - unfold validate_department. by rewrite validate_reference_missing.
  - unfold validate_job. by rewrite validate_reference_missing.
Qed.



Example missing_fields_message :
  validate Scenario.rt Scenario.db Scenario.now "hired_employees"
    (<["name" := VStr (u "   ")]> (<["job_id" := VNone]> Scenario.ana))
  = Some (false,
          Some ("Campo requerido 'name' está vacío o faltante; "
                +:+ "Campo requerido 'job_id' está vacío o faltante"),
          Some MISSING_REQUIRED_FIELDS).
Proof. vm_compute. reflexivity. Qed.

(* --------------------------------------------------------------------- *)
(** ** Acceptance of employee records *)
(* --------------------------------------------------------------------- *)

Lemma collect_missing_nil r required :
  (∀ field, field ∈ required → field_missing r field = false) →
  collect_missing r required = [].
Proof.
  intros Hall. unfold collect_missing.
  induction required as [|f required IH]; [done|].
  rewrite filter_cons. rewrite decide_False.
  - apply IH. intros g Hg. apply Hall. by apply elem_of_cons; right.
  - rewrite Hall; [done|]. by apply elem_of_cons; left.
Qed.

Lemma department_id_errors_nil rt db v :
  department_id_errors rt db v = []
  ↔ ∃ i, to_int rt v = Some i ∧ 0 < i ∧ department_exists db i = true.
Proof.
  unfold department_id_errors. destruct (to_int rt v) as [i|].
  - destruct (Z.leb_spec i 0).
    { split; [done | intros (? & [= <-] & ? & _); lia]. }
    destruct (department_exists db i) eqn:Hex; simpl.
    + split; [|done]. intros _. exists i. split; [done | split; [lia | done]].
    + split; [done | intros (? & [= <-] & _ & ?); congruence].
  - split; [done | by intros (? & ? & _)].
Qed.

Lemma job_id_errors_nil rt db v :
  job_id_errors rt db v = []
  ↔ ∃ i, to_int rt v = Some i ∧ 0 < i ∧ job_exists db i = true.
Proof.
  unfold job_id_errors. destruct (to_int rt v) as [i|].
  - destruct (Z.leb_spec i 0).
    { split; [done | intros (? & [= <-] & ? & _); lia]. }
    destruct (job_exists db i) eqn:Hex; simpl.
    + split; [|done]. intros _. exists i. split; [done | split; [lia | done]].
    + split; [done | intros (? & [= <-] & _ & ?); congruence].
  - split; [done | by intros (? & ? & _)].
Qed.

Lemma employee_id_errors_nil rt db r :
  employee_id_errors rt db r = [] ↔ explicit_id_free rt db r.
Proof.
  unfold employee_id_errors, explicit_id_free.
  destruct (explicit_id r) as [v|]; [|done].
  destruct (to_int rt v) as [i|].
  - destruct (Z.leb_spec i 0); simpl.
    { split; [done | intros (? & [= <-] & ? & _); lia]. }
    destruct (Z.ltb_spec 2147483647 i); simpl.
    { split; [done | intros (? & [= <-] & ? & _); lia]. }
    destruct (employee_exists db i) eqn:Hex; simpl.
    + split; [done | intros (? & [= <-] & _ & ?); congruence].
    + split; [|done]. intros _. exists i. split; [done | split; [lia | done]].
  - split; [done | by intros (? & ? & _)].
Qed.

(** A well-formed hired_at passes the date block without an early return,
    and leaves an error exactly when it is later than [now]. *)
Lemma datetime_errors_hired_at rt now r dt :
  hired_at rt r = Some dt →
  ∃ errors, datetime_errors rt now (r !!! "datetime") = DateErrors errors
            ∧ (errors = [] ↔ utc_micros dt ≤ utc_micros now).
Proof.
  unfold hired_at, datetime_errors.
  assert (∀ d0, match tzinfo d0 with
                | Some _ => Some d0
                | None => match make_aware rt d0 with
                          | inl dt' => Some dt' | inr _ => None end
                end = Some dt →
          check_not_future rt now d0 = [] ↔ utc_micros dt ≤ utc_micros now)
    as Hcheck.
  { intros d0 Hd0. unfold check_not_future.
    destruct (tzinfo d0).
    - injection Hd0 as ->. destruct (Z.ltb_spec (utc_micros now) (utc_micros dt));
        split; (done || lia).
    - destruct (make_aware rt d0) as [dt'|]; [|done]. injection Hd0 as ->.
      destruct (Z.ltb_spec (utc_micros now) (utc_micros dt));
        split; (done || lia). }
  destruct (r !!! "datetime") as [| | |text|d|d]; simpl; try done.
  - destruct (parse_datetime rt text) as [d0|]; simpl; [|done].
    intros Hd0. eexists. split; [done | by apply Hcheck].
  - intros Hd0. eexists. split; [done | by apply Hcheck].
  - intros Hd0. eexists. split; [done | by apply Hcheck].
Qed.

(** With the fields present and the name and the date well-formed, the
    verdict turns on the three id blocks and on the comparison with the
    clock. *)
Lemma accepted_iff_no_errors rt db now (r : record) dt :
  employee_fields_present r →
  name_errors (r !!! "name") = [] →
  hired_at rt r = Some dt →
  validate_hired_employee rt db now r = accepted
  ↔ department_id_errors rt db (r !!! "department_id") = []
    ∧ job_id_errors rt db (r !!! "job_id") = []
    ∧ utc_micros dt ≤ utc_micros now
    ∧ employee_id_errors rt db r = [].
Proof.
  intros Hpresent Hname Hdate.
  unfold validate_hired_employee.
  rewrite (collect_missing_nil _ _ Hpresent), Hname. simpl.
  destruct (datetime_errors_hired_at rt now r dt Hdate) as (es & -> & Hes).
  rewrite <- Hes.
  destruct es as [|e es]; simpl.
  - destruct (department_id_errors rt db (r !!! "department_id")); simpl.
    + destruct (job_id_errors rt db (r !!! "job_id")); simpl.
      * destruct (employee_id_errors rt db r); simpl; [done|].
        split; [done | by intros (_ & _ & _ & ?)].
      * split; [done | by intros (_ & ? & _)].
    + split; [done | by intros (? & _)].
  - split; [done | by intros (_ & _ & ? & _)].
Qed.

(** C2 (as the code has it). For every employee record whose required
    fields are present and whose name and hired_at are well-formed, the
    validator returns success if and only if department_id and job_id read
    as integers greater than zero that reference existing rows, the parsed
    hired_at, normalized to UTC, is not later than the current time, and
    the explicit id, if the record has one, is an integer between 1 and
    2147483647 that no employee row uses yet. *)
Theorem employee_accepted_iff rt db now (r : record) dt :
  employee_fields_present r →
  name_errors (r !!! "name") = [] →
  hired_at rt r = Some dt →
  validate_hired_employee rt db now r = accepted
  ↔ references_positive rt (department_exists db) r "department_id"
    ∧ references_positive rt (job_exists db) r "job_id"
    ∧ utc_micros dt ≤ utc_micros now
    ∧ explicit_id_free rt db r.
Proof.
  intros Hpresent Hname Hdate.
  rewrite (accepted_iff_no_errors rt db now r dt) by done.
  unfold references_positive.
  rewrite department_id_errors_nil, job_id_errors_nil.
  by rewrite employee_id_errors_nil.
Qed.

Lemma employee_accepted_iff_witness :
  validate_hired_employee Scenario.rt Scenario.db Scenario.now Scenario.ana
  = accepted
  ↔ references_positive Scenario.rt (department_exists Scenario.db)
      Scenario.ana "department_id"
    ∧ references_positive Scenario.rt (job_exists Scenario.db)
        Scenario.ana "job_id"
    ∧ utc_micros (mk_datetime 2023 1 5 10 0 0 0 (Some 0))
      ≤ utc_micros Scenario.now
    ∧ explicit_id_free Scenario.rt Scenario.db Scenario.ana.
Proof.
  apply employee_accepted_iff.
  - intros field Hfield. unfold employee_required in Hfield.
    repeat (apply elem_of_cons in Hfield as [-> | Hfield]; [reflexivity|]).
    by apply elem_of_nil in Hfield.
  - reflexivity.
  - vm_compute. reflexivity.
Defined.

(** C2 (as stated) fails. The record of Ana Ruiz with the explicit id 5
    has all fields present and well-formed, its department and job exist
    and its date is past, but the validator rejects it because an employee
    row with id 5 exists. And with a department row of id -1 in the store,
    a record that references it is rejected although the row exists. *)
Lemma employee_rejected_despite_references :
  let r := <["id" := VInt 5]> Scenario.ana in
  let r' := <["department_id" := VInt (-1)]> Scenario.ana in
  let db' := {| departments := [ {| r_id := -1; r_name := u "Legado" |} ];
                jobs := jobs Scenario.db; hired_employees := [];
                identity := None |} in
  (employee_fields_present r ∧ name_errors (r !!! "name") = []
   ∧ hired_at Scenario.rt r = Some (mk_datetime 2023 1 5 10 0 0 0 (Some 0))
   ∧ references Scenario.rt (department_exists Scenario.db) r "department_id"
   ∧ references Scenario.rt (job_exists Scenario.db) r "job_id"
   ∧ utc_micros (mk_datetime 2023 1 5 10 0 0 0 (Some 0))
     ≤ utc_micros Scenario.now
   ∧ validate_hired_employee Scenario.rt Scenario.db Scenario.now r
     = rejected ["id 5 ya existe en la base de datos"] VALIDATION_ERROR)
  ∧ (employee_fields_present r' ∧ name_errors (r' !!! "name") = []
     ∧ hired_at Scenario.rt r' = Some (mk_datetime 2023 1 5 10 0 0 0 (Some 0))
     ∧ references Scenario.rt (department_exists db') r' "department_id"
     ∧ references Scenario.rt (job_exists db') r' "job_id"
     ∧ utc_micros (mk_datetime 2023 1 5 10 0 0 0 (Some 0))
       ≤ utc_micros Scenario.now
     ∧ validate_hired_employee Scenario.rt db' Scenario.now r'
       = rejected ["department_id debe ser un entero positivo"] VALIDATION_ERROR).
Proof.
  assert (∀ r : record,
            forallb (λ f, negb (field_missing r f)) employee_required = true →
            employee_fields_present r) as Hpresent.
  { intros r Hall field Hfield. rewrite forallb_forall in Hall.
    apply list_elem_of_In, Hall in Hfield. by apply negb_true_iff in Hfield. }
  intros r r' db'. split.
  - split; [by apply Hpresent; vm_compute|].
    split; [by vm_compute|]. split; [by vm_compute|].
    split; [exists 1; by vm_compute|]. split; [exists 2; by vm_compute|].
    split; [by vm_compute | by vm_compute].
  - split; [by apply Hpresent; vm_compute|].
    split; [by vm_compute|]. split; [by vm_compute|].
    split; [exists (-1); by vm_compute|]. split; [exists 2; by vm_compute|].
    split; [by vm_compute | by vm_compute].
Qed.

(* --------------------------------------------------------------------- *)
(** ** Laws of the computations *)
(* --------------------------------------------------------------------- *)

Section Laws.
Context {A B : Type} (I : world → Prop).

Lemma preserves_ret (a : A) : preserves I (mret a : io A).
Proof. by intros w Hw. Qed.

Lemma preserves_raise (e : string) : preserves I (raise e : io A).
Proof. by intros w Hw. Qed.

Lemma preserves_bind (m : io A) (f : A → io B) :
  preserves I m → (∀ a, preserves I (f a)) → preserves I (m ≫= f).
Proof.
  intros Hm Hf w Hw. specialize (Hm w Hw).
  unfold mbind, io_bind. destruct (m w) as [[a|e] w']; simpl in *; [|done].
  by apply Hf.
Qed.

Lemma preserves_try (m : io A) (h : string → io A) :
  preserves I m → (∀ e, preserves I (h e)) → preserves I (try m h).
Proof.
  intros Hm Hh w Hw. specialize (Hm w Hw).
  unfold try. destruct (m w) as [[a|e] w']; simpl in *; [done|].
  by apply Hh.
Qed.

End Laws.

Lemma preserves_for_each {A} I (xs : list A) (body : A → io unit) :
  (∀ x, preserves I (body x)) → preserves I (for_each xs body).
Proof.
  intros Hbody. induction xs as [|x xs IH]; simpl.
  - apply preserves_ret.
  - apply preserves_bind; [apply Hbody | intros _; apply IH].
Qed.

Lemma try_never_raises {A} (m : io A) (h : string → io A) :
  (∀ e, never_raises (h e)) → never_raises (try m h).
Proof.
  intros Hh w. unfold try. destruct (m w) as [[a|e] w']; [by exists a|].
  apply Hh.
Qed.

Lemma log_then_ret_never_raises {A} ev (a : A) : never_raises (log ev;; mret a).
Proof. intros w. by exists a. Qed.

Lemma unchanged_preserves {A S} (view : world → S) (m : io A) :
  unchanged view m ↔ ∀ s, preserves (λ w, view w = s) m.
Proof.
  split.
  - intros Hm s w <-. apply Hm.
  - intros Hm w. by apply (Hm (view w)).
Qed.

Lemma unchanged_ret {A S} (view : world → S) (a : A) : unchanged view (mret a : io A).
Proof. by intros w. Qed.

Lemma unchanged_raise {A S} (view : world → S) e : unchanged view (raise e : io A).
Proof. by intros w. Qed.

Lemma unchanged_bind {A B S} (view : world → S) (m : io A) (f : A → io B) :
  unchanged view m → (∀ a, unchanged view (f a)) → unchanged view (m ≫= f).
Proof.
  rewrite !unchanged_preserves. intros Hm Hf s. apply preserves_bind; [done|].
  intros a. specialize (Hf a). by rewrite unchanged_preserves in Hf.
Qed.

Lemma unchanged_try {A S} (view : world → S) (m : io A) (h : string → io A) :
  unchanged view m → (∀ e, unchanged view (h e)) → unchanged view (try m h).
Proof.
  rewrite !unchanged_preserves. intros Hm Hh s. apply preserves_try; [done|].
  intros e. specialize (Hh e). by rewrite unchanged_preserves in Hh.
Qed.

Lemma unchanged_for_each {A S} (view : world → S) (xs : list A) body :
  (∀ x, unchanged view (body x)) → unchanged view (for_each xs body).
Proof.
  rewrite unchanged_preserves. intros Hbody s. apply preserves_for_each.
  intros x. specialize (Hbody x). by rewrite unchanged_preserves in Hbody.
Qed.

(** The primitives touch one component of the world each. *)
Ltac primitive :=
  solve [ intros ?w;
          cbv [connect execute transaction request log get_bucket set_bucket
               with_db];
          repeat case_match; simpl; done ].

(** Walks the structure of a computation built from binds, handlers,
    loops and branches down to the primitives; [known] closes the calls
    of functions that have a lemma of their own. *)
Ltac walk known :=
  repeat first
    [ progress intros
    | known
    | apply unchanged_ret | apply unchanged_raise
    | apply unchanged_bind | apply unchanged_try | apply unchanged_for_each
    | primitive
    | case_match ].

(* --------------------------------------------------------------------- *)
(** ** The buffer of the consumer after a flush *)
(* --------------------------------------------------------------------- *)

(** C10. After a flush of a table its buffer is empty, whether the load
    returned or raised. When it raised, the flush does nothing more than
    log the error on top of the world the exception left: the records of
    the batch are in no buffer and no load is tried again. *)
Theorem flush_leaves_buffer_empty rt env table (bufs : Consumer.buffers) w :
  (Consumer._flush rt env table bufs w).1 !!! table = []
  ∧ ∀ e w',
      bufs !!! table ≠ [] →
      Consumer.flush_items rt env table (bufs !!! table) w = (Raise e, w') →
      Consumer._flush rt env table bufs w
      = (<[table := []]> bufs, (log (FlushError table e) w').2).
Proof.
  unfold Consumer._flush. split.
  - case_bool_decide as Hitems; [done|].
    destruct (Consumer.flush_items rt env table (bufs !!! table) w) as [[?|?] ?];
      simpl; apply lookup_total_insert_eq.
  - intros e w' Hne Hraise. rewrite bool_decide_eq_false_2 by done.
    by rewrite Hraise.
Qed.

(** A flush whose connection to the store is refused. *)
Lemma flush_leaves_buffer_empty_witness :
  let bufs : Consumer.buffers := {[ "hired_employees" := [Scenario.ana] ]} in
  let w := Scenario.world_of Scenario.db [] in
  let w' := {| World.db := Scenario.db; bucket := []; connections := 1;
               requests := 0;
               journal := [LoadError "could not connect to server"] |} in
  (Consumer._flush Scenario.rt (Scenario.env_refusing 0) "hired_employees" bufs w).1
    !!! "hired_employees" = []
  ∧ Consumer._flush Scenario.rt (Scenario.env_refusing 0) "hired_employees" bufs w
    = (<["hired_employees" := []]> bufs,
       (log (FlushError "hired_employees" "could not connect to server") w').2).
Proof.
  intros bufs w w'. split.
  - apply flush_leaves_buffer_empty.
  - apply (flush_leaves_buffer_empty Scenario.rt (Scenario.env_refusing 0)
             "hired_employees" bufs w).
    + vm_compute. discriminate.
    + vm_compute. reflexivity.
Defined.

(* --------------------------------------------------------------------- *)
(** ** A truncation that fails *)
(* --------------------------------------------------------------------- *)

Lemma truncate_statement_raise env table w e w0 :
  truncate_statement env table w = (Raise e, w0) → db w0 = db w.
Proof.
  unfold truncate_statement, connect, execute, mbind, io_bind.
  destruct (connect_ok env (connections w)); simpl.
  - destruct (Sql.truncate (db w) table); simpl; [done|].
    by intros [= _ <-].
  - by intros [= _ <-].
Qed.

Lemma load_from_minio_never_raises rt env batch_size table :
  never_raises (load_from_minio_to_postgres rt env batch_size table).
Proof. apply try_never_raises. intros e. apply log_then_ret_never_raises. Qed.

Lemma restore_never_raises rt env table backup_path chunk_size :
  never_raises
    (restore_table_from_parquet_in_minio rt env table backup_path chunk_size).
Proof. apply try_never_raises. intros e. apply log_then_ret_never_raises. Qed.



(* --------------------------------------------------------------------- *)
(** ** The order of the tables in a migration *)
(* --------------------------------------------------------------------- *)

Lemma steps_log ev :
  is_step ev = false → unchanged step_view (log ev).
Proof.
  intros Hev w. unfold step_view, steps, log. simpl.
  rewrite filter_app, filter_cons_False, filter_nil by (by rewrite Hev).
  by rewrite app_nil_r.
Qed.

Ltac quiet_log := apply steps_log; reflexivity.

Lemma load_with_copy_steps rt env df table :
  unchanged step_view (_load_with_copy rt env df table).
Proof.
  unfold _load_with_copy, _copy_hired_employees, _copy_departments, _copy_jobs.
  walk quiet_log.
Qed.

Lemma load_with_copy_batches_steps rt env batch_size df table :
  unchanged step_view (_load_with_copy_batches rt env batch_size df table).
Proof.
  unfold _load_with_copy_batches.
  walk ltac:(first [quiet_log | apply load_with_copy_steps]).
Qed.

Lemma load_from_minio_steps rt env batch_size table :
  unchanged step_view (load_from_minio_to_postgres rt env batch_size table).
Proof.
  unfold load_from_minio_to_postgres, load_listed_files,
    _truncate_table_before_load, truncate_statement, _process_csv,
    list_objects, get_object.
  walk ltac:(first [quiet_log | apply load_with_copy_batches_steps]).
Qed.

Lemma load_csv_to_minio_steps env csv_path table :
  unchanged step_view (load_csv_to_minio env csv_path table).
Proof. unfold load_csv_to_minio, put_object. walk fail. Qed.

Lemma load_csv_to_minio_never_raises env csv_path table :
  never_raises (load_csv_to_minio env csv_path table).
Proof.
  unfold load_csv_to_minio. repeat case_match; try (intros w; by eexists).
  apply try_never_raises. intros e w. by eexists.
Qed.

Lemma steps_log_step ev w :
  is_step ev = true → step_view (log ev w).2 = step_view w ++ [ev].
Proof.
  intros Hev. unfold step_view, steps, log. simpl.
  by rewrite filter_app, filter_cons_True, filter_nil.
Qed.

Lemma bind_ok {A B} (m : io A) (f : A → io B) w a w' :
  m w = (Ok a, w') → (m ≫= f) w = f a w'.
Proof. intros Hm. unfold mbind, io_bind. by rewrite Hm. Qed.

Lemma bind_raise {A B} (m : io A) (f : A → io B) w e w' :
  m w = (Raise e, w') → (m ≫= f) w = (Raise e, w').
Proof. intros Hm. unfold mbind, io_bind. by rewrite Hm. Qed.

Lemma bind_ok_inv {A B} (m : io A) (f : A → io B) w b w' :
  (m ≫= f) w = (Ok b, w') → ∃ a w1, m w = (Ok a, w1) ∧ f a w1 = (Ok b, w').
Proof.
  unfold mbind, io_bind. destruct (m w) as [[a|e] w1]; [eauto | done].
Qed.

Lemma try_ok_inv {A} (m : io A) (h : string → io A) w a w' :
  try m h w = (Ok a, w') →
  m w = (Ok a, w') ∨ ∃ e w1, m w = (Raise e, w1) ∧ h e w1 = (Ok a, w').
Proof.
  unfold try. destruct (m w) as [[a0|e] w1]; [by left | right; eauto].
Qed.

Lemma never_raises_run {A} (m : io A) w :
  never_raises m → ∃ a, m w = (Ok a, (m w).2).
Proof. intros Hm. destruct (Hm w) as [a Ha]. exists a. by destruct (m w); simplify_eq/=. Qed.

(** A table's migration returns, and writes exactly one step line: that
    of its outcome. *)
Lemma migrate_table_steps rt env batch_size table w :
  ∃ b w',
    MigrationCommand._migrate_table_truncate_load rt env batch_size table w
    = (Ok b, w')
    ∧ step_view w'
      = step_view w ++ [if b then TableMigrated table else TableFailed table].
Proof.
  unfold MigrationCommand._migrate_table_truncate_load.
  destruct (_ !! table) as [csv_path|];
    [|exists false; eexists; split; [done | by apply steps_log_step]].
  destruct (negb _);
    [exists false; eexists; split; [done | by apply steps_log_step]|].
  destruct (never_raises_run _ w (load_csv_to_minio_never_raises env csv_path table))
    as [up Hup].
  pose proof (load_csv_to_minio_steps env csv_path table w) as Hsteps1.
  rewrite (bind_ok _ _ _ _ _ Hup).
  destruct up; simpl;
    [|exists false; eexists; split;
      [done | rewrite <- Hsteps1; by apply steps_log_step]].
  set (w1 := (load_csv_to_minio env csv_path table w).2) in *.
  destruct (never_raises_run _ w1
              (load_from_minio_never_raises rt env batch_size table))
    as [loaded Hloaded].
  pose proof (load_from_minio_steps rt env batch_size table w1) as Hsteps2.
  rewrite (bind_ok _ _ _ _ _ Hloaded).
  exists loaded. rewrite <- Hsteps1, <- Hsteps2.
  destruct loaded; simpl; eexists; (split; [done | by apply steps_log_step]).
Qed.

(** The step lines of the command form one of its four traces. *)
Lemma handle_trace rt env batch_size w :
  ∃ trace, trace ∈ command_traces
           ∧ step_view (MigrationCommand.handle rt env batch_size w).2
             = step_view w ++ trace.
Proof.
  unfold MigrationCommand.handle, command_traces.
  rewrite (bind_ok _ _ w tt (log (Started "departments") w).2) by done.
  set (w0 := (log (Started "departments") w).2).
  assert (step_view w0 = step_view w ++ [Started "departments"]) as H0
    by by apply steps_log_step.
  destruct (migrate_table_steps rt env batch_size "departments" w0)
    as (b1 & w1 & Hr1 & Hs1).
  rewrite (bind_ok _ _ _ _ _ Hr1).
  destruct b1; cbn [negb].
  2:{ eexists. split; [apply list_elem_of_here|].
      rewrite steps_log_step, Hs1, H0 by done. by rewrite <- !app_assoc. }
  rewrite (bind_ok _ _ w1 tt (log (Started "jobs") w1).2) by done.
  set (w1' := (log (Started "jobs") w1).2).
  assert (step_view w1' = step_view w1 ++ [Started "jobs"]) as H1
    by by apply steps_log_step.
  destruct (migrate_table_steps rt env batch_size "jobs" w1')
    as (b2 & w2 & Hr2 & Hs2).
  rewrite (bind_ok _ _ _ _ _ Hr2).
  destruct b2; cbn [negb].
  2:{ eexists. split; [apply list_elem_of_further, list_elem_of_here|].
      rewrite steps_log_step, Hs2, H1, Hs1, H0 by done.
      by rewrite <- !app_assoc. }
  rewrite (bind_ok _ _ w2 tt (log (Started "hired_employees") w2).2) by done.
  set (w2' := (log (Started "hired_employees") w2).2).
  assert (step_view w2' = step_view w2 ++ [Started "hired_employees"]) as H2
    by by apply steps_log_step.
  destruct (migrate_table_steps rt env batch_size "hired_employees" w2')
    as (b3 & w3 & Hr3 & Hs3).
  rewrite (bind_ok _ _ _ _ _ Hr3).
  destruct b3; cbn [negb].
  - eexists. split;
      [apply list_elem_of_further, list_elem_of_further, list_elem_of_further,
         list_elem_of_here|].
    rewrite steps_log_step, Hs3, H2, Hs2, H1, Hs1, H0 by done.
    by rewrite <- !app_assoc.
  - eexists. split;
      [apply list_elem_of_further, list_elem_of_further, list_elem_of_here|].
    rewrite steps_log_step, Hs3, H2, Hs2, H1, Hs1, H0 by done.
    by rewrite <- !app_assoc.
Qed.

(** The journal only grows. *)
Ltac keep_primitive :=
  solve [ intros ?w ?H;
          cbv [connect execute transaction request log get_bucket set_bucket
               with_db];
          repeat case_match; simpl in *;
          first [ done | apply elem_of_app; by left ] ].

Ltac keep known :=
  repeat first
    [ progress intros
    | known
    | apply preserves_ret | apply preserves_raise
    | apply preserves_bind | apply preserves_try | apply preserves_for_each
    | keep_primitive
    | case_match ].

Lemma load_with_copy_journal rt env df table ev :
  preserves (λ w, ev ∈ journal w) (_load_with_copy rt env df table).
Proof.
  unfold _load_with_copy, _copy_hired_employees, _copy_departments, _copy_jobs.
  keep fail.
Qed.

Lemma load_from_minio_journal rt env batch_size table ev :
  preserves (λ w, ev ∈ journal w)
    (load_from_minio_to_postgres rt env batch_size table).
Proof.
  unfold load_from_minio_to_postgres, load_listed_files,
    _truncate_table_before_load, truncate_statement, _process_csv,
    _load_with_copy_batches, list_objects, get_object.
  keep ltac:(apply load_with_copy_journal).
Qed.

Lemma load_csv_to_minio_journal env csv_path table ev :
  preserves (λ w, ev ∈ journal w) (load_csv_to_minio env csv_path table).
Proof. unfold load_csv_to_minio, put_object. keep fail. Qed.

(** One turn of [run_full_migration] returns a status, having announced
    its table. *)
Lemma migrate_entry_spec rt env batch_size entry w :
  ∃ s w', migrate_entry rt env batch_size entry w = (Ok s, w')
          ∧ Started entry.1 ∈ journal w'
          ∧ ∀ ev, ev ∈ journal w → ev ∈ journal w'.
Proof.
  destruct entry as [table csv_path]. unfold migrate_entry.
  rewrite (bind_ok _ _ w tt (log (Started table) w).2) by done.
  set (w0 := (log (Started table) w).2).
  assert (∀ ev, ev ∈ journal w ++ [Started table] → ev ∈ journal w0) as Hw0
    by done.
  case_bool_decide.
  2:{ eexists _, _. split; [done|]. split; [apply Hw0; set_solver|].
      intros ev Hev. apply Hw0. set_solver. }
  destruct (never_raises_run _ w0 (load_csv_to_minio_never_raises env csv_path table))
    as [up Hup].
  rewrite (bind_ok _ _ _ _ _ Hup).
  set (w1 := (load_csv_to_minio env csv_path table w0).2) in *.
  assert (∀ ev, ev ∈ journal w0 → ev ∈ journal w1) as Hw1.
  { intros ev Hev. by apply (load_csv_to_minio_journal env csv_path table ev w0). }
  destruct up.
  2:{ eexists _, _. split; [done|]. split; [apply Hw1, Hw0; set_solver|].
      intros ev Hev. apply Hw1, Hw0. set_solver. }
  destruct (never_raises_run _ w1
              (load_from_minio_never_raises rt env batch_size table))
    as [loaded Hloaded].
  rewrite (bind_ok _ _ _ _ _ Hloaded).
  set (w2 := (load_from_minio_to_postgres rt env batch_size table w1).2) in *.
  assert (∀ ev, ev ∈ journal w1 → ev ∈ journal w2) as Hw2.
  { intros ev Hev. by apply (load_from_minio_journal rt env batch_size table ev w1). }
  eexists _, _. split; [done|]. split; [apply Hw2, Hw1, Hw0; set_solver|].
  intros ev Hev. apply Hw2, Hw1, Hw0. set_solver.
Qed.



(* --------------------------------------------------------------------- *)
(** ** Chunks *)
(* --------------------------------------------------------------------- *)

(** The slices [df.iloc[i:i + size]] for [i] in [range(0, len(df), size)]
    put the frame back together, in order. *)
Lemma concat_slices {A} (size : nat) (l : list A) fuel start :
  (0 < size)%nat → (length l - start ≤ fuel)%nat →
  concat ((λ i, take (i + size - i) (drop i l))
            <$> range_from fuel start (length l) size)
  = drop start l.
Proof.
  intros Hsize. revert start.
  induction fuel as [|fuel IH]; intros start Hfuel; simpl.
  - symmetry. apply drop_ge. lia.
  - destruct (Nat.ltb_spec start (length l)) as [Hlt | Hge]; simpl.
    + rewrite IH by lia.
      replace (start + size - start)%nat with size by lia.
      rewrite <- (take_drop size (drop start l)) at 2.
      by rewrite drop_drop.
    + symmetry. apply drop_ge. lia.
Qed.

Lemma concat_chunks (df : dataframe) (size : nat) :
  (0 < size)%nat →
  concat ((λ i, iloc df i (i + size)) <$> range (length df) size) = df.
Proof.
  intros Hsize. unfold range, iloc.
  rewrite (concat_slices size df) by lia. apply drop_0.
Qed.

(** [range(0, stop, step)] has ceil(stop / step) elements, the multiples
    of the step below [stop]. *)
Lemma range_from_multiples fuel start stop step :
  (0 < step)%nat → (stop - start ≤ fuel)%nat →
  range_from fuel start stop step
  = (λ j, start + j * step)%nat <$> seq 0 ((stop - start + step - 1) / step).
Proof.
  intros Hstep. revert start.
  induction fuel as [|fuel IH]; intros start Hfuel; simpl.
  - replace (stop - start + step - 1)%nat with (step - 1)%nat by lia.
    by rewrite Nat.div_small by lia.
  - destruct (Nat.ltb_spec start stop) as [Hlt | Hge].
    + rewrite IH by lia.
      assert (((stop - start + step - 1) / step
               = S ((stop - (start + step) + step - 1) / step))%nat) as ->.
      { replace (stop - start + step - 1)%nat
          with (1 * step + (stop - start - 1))%nat by lia.
        rewrite Nat.div_add_l by lia.
        destruct (decide (step ≤ stop - start)%nat).
        - replace (stop - (start + step) + step - 1)%nat
            with (stop - start - 1)%nat by lia.
          lia.
        - replace (stop - (start + step) + step - 1)%nat with (step - 1)%nat by lia.
          rewrite !Nat.div_small by lia. lia. }
      rewrite <- cons_seq, fmap_cons, <- fmap_S_seq, <- list_fmap_compose.
      f_equal; [lia|].
      apply list_fmap_ext. intros _ j _. simpl. lia.
    + replace (stop - start + step - 1)%nat with (step - 1)%nat by lia.
      by rewrite Nat.div_small by lia.
Qed.

Lemma range_length stop step :
  (0 < step)%nat → length (range stop step) = ((stop + step - 1) / step)%nat.
Proof.
  intros Hstep. unfold range. rewrite range_from_multiples by lia.
  rewrite length_fmap, length_seq. f_equal. lia.
Qed.

Example range_10_3 : range 10 3 = [0; 3; 6; 9]%nat.
Proof. reflexivity. Qed.

(* --------------------------------------------------------------------- *)
(** ** What a restore returns *)
(* --------------------------------------------------------------------- *)

Lemma restore_batches_total rt table id_column batches :
  ∀ d n d' total,
    restore_batches rt table id_column d batches n = Some (d', total) →
    total = (n + length (concat batches))%nat.
Proof.
  induction batches as [|batch rest IH]; intros d n d' total; simpl.
  - intros [= _ <-]. lia.
  - destruct (restore_batch rt table id_column d batch) as [d1|]; simpl; [|done].
    intros Hrest. apply IH in Hrest. rewrite length_app. lia.
Qed.

Lemma restore_dataframe_bucket rt env df table chunk_size :
  unchanged bucket (_restore_dataframe_to_postgres rt env df table chunk_size).
Proof. unfold _restore_dataframe_to_postgres. walk fail. Qed.

(** A frame that is restored counts all of its rows. *)
Lemma restore_dataframe_count rt env df table chunk_size w n w' :
  _restore_dataframe_to_postgres rt env df table chunk_size w = (Ok n, w') →
  n = length df.
Proof.
  unfold _restore_dataframe_to_postgres, try, connect, transaction, mbind, io_bind.
  destruct (connect_ok env (connections w)); simpl; [|done].
  case_bool_decide as Hsize; simpl; [done|].
  destruct (restore_batches _ _ _ _ _ _) as [[d total]|] eqn:Hbatches; simpl; [|done].
  intros [= <- _]. apply restore_batches_total in Hbatches.
  rewrite concat_chunks in Hbatches by lia. done.
Qed.

Lemma get_object_ok env key w o w' :
  get_object env key w = (Ok o, w') →
  o = object_at (bucket w) key ∧ bucket w' = bucket w.
Proof.
  unfold get_object, request, get_bucket, mbind, io_bind.
  destruct (minio_ok env (requests w)); simpl; [|done].
  by intros [= <- <-].
Qed.

(** The loop over the files adds up the rows of the partitions it has
    read, and leaves the bucket alone. *)
Lemma restore_files_total rt env table chunk_size files :
  ∀ total w n w',
    restore_files rt env table chunk_size files total w = (Ok n, w') →
    n = (total + snapshot_rows (bucket w) files)%nat ∧ bucket w' = bucket w.
Proof.
  unfold snapshot_rows.
  induction files as [|key rest IH]; intros total w n w'; simpl.
  - intros [= <- <-]. split; [simpl; lia | done].
  - destruct (get_object env key w) as [[o|e] w1] eqn:Hget;
      [rewrite (bind_ok _ _ _ _ _ Hget) | by rewrite (bind_raise _ _ _ _ _ Hget)].
    apply get_object_ok in Hget as [-> Hb1].
    unfold partition_rows at 1.
    destruct (object_at (bucket w) key) as [df|df|]; [done| |done].
    case_bool_decide as Hempty.
    { subst df. intros Hrest. apply IH in Hrest as [-> ->].
      rewrite Hb1. by split. }
    destruct (_restore_dataframe_to_postgres rt env df table chunk_size w1)
      as [[count|e] w2] eqn:Hdf;
      [rewrite (bind_ok _ _ _ _ _ Hdf) | by rewrite (bind_raise _ _ _ _ _ Hdf)].
    pose proof (restore_dataframe_bucket rt env df table chunk_size w1) as Hb2.
    rewrite Hdf in Hb2. simpl in Hb2.
    apply restore_dataframe_count in Hdf as ->.
    rewrite (bind_ok _ _ w2 tt (log (RestoredFile key (length df)) w2).2) by done.
    intros Hrest. apply IH in Hrest as [-> ->]. simpl.
    rewrite Hb2, Hb1. split; [by rewrite Nat.add_assoc | done].
Qed.

Lemma truncate_before_load_ok env table w :
  ∃ w1, _truncate_table_before_load env table w = (Ok tt, w1)
        ∧ bucket w1 = bucket w.
Proof.
  unfold _truncate_table_before_load, truncate_statement, try, connect, execute,
    log, mbind, io_bind.
  destruct (connect_ok env (connections w)); simpl; [|by eexists].
  destruct (Sql.truncate (db w) table); simpl; by eexists.
Qed.

Lemma list_objects_ok env prefix w keys w' :
  list_objects env prefix w = (Ok keys, w') →
  keys = listing (bucket w) prefix ∧ bucket w' = bucket w.
Proof.
  unfold list_objects, request, get_bucket, mbind, io_bind.
  destruct (minio_ok env (requests w)); simpl; [|done].
  by intros [= <- <-].
Qed.

(** What follows the truncation returns [True] only after it has logged
    the rows of all the partitions of the snapshot. *)
Lemma restore_from_total rt env table path chunk_size w w' :
  restore_from rt env table path chunk_size w = (Ok true, w') →
  last (journal w')
  = Some (RestoreDone table
            (snapshot_rows (bucket w)
               (parquet_files (listing (bucket w) (backup_prefix path))))).
Proof.
  unfold restore_from.
  destruct (list_objects env (backup_prefix path) w) as [[keys|e] w0] eqn:Hlist;
    [rewrite (bind_ok _ _ _ _ _ Hlist) | by rewrite (bind_raise _ _ _ _ _ Hlist)].
  apply list_objects_ok in Hlist as [-> Hb0].
  case_bool_decide as Hnone; [done|].
  destruct (restore_files rt env table chunk_size
              (parquet_files (listing (bucket w) (backup_prefix path))) 0 w0)
    as [[n|e] w1] eqn:Hfiles;
    [rewrite (bind_ok _ _ _ _ _ Hfiles) | by rewrite (bind_raise _ _ _ _ _ Hfiles)].
  apply restore_files_total in Hfiles as [-> _].
  intros [= <-]. simpl. by rewrite last_snoc, Hb0.
Qed.


(** With the second partition unreadable, the restore reports [False];
    the first partition stays committed. *)
Example restore_stops_at_unreadable_partition :
  let out :=
    restore_table_from_parquet_in_minio Scenario.rt Scenario.env "departments"
      (Some "backups/departments/20251007T123456/") 1000
      (Scenario.world_of Store.empty
         [ ("backups/departments/20251007T123456/part-0000.parquet",
            ParquetObject Scenario.departments_csv);
           ("backups/departments/20251007T123456/part-0001.parquet",
            Unreadable) ]) in
  out.1 = Ok false
  ∧ last (journal out.2)
    = Some (RestoreError "departments" "could not read the Parquet file")
  ∧ r_id <$> departments (World.db out.2) = [1; 2].
Proof. vm_compute. by repeat split. Qed.


(* --------------------------------------------------------------------- *)
(** ** Loading in chunks *)
(* --------------------------------------------------------------------- *)

Lemma loads_snoc lines ev :
  loads (lines ++ [ev]) = (loads lines + if is_load ev then 1 else 0)%nat.
Proof.
  unfold loads. rewrite filter_app, length_app.
  destruct (is_load ev) eqn:Hev.
  - by rewrite filter_cons_True, filter_nil.
  - rewrite filter_cons_False, filter_nil by (by rewrite Hev). done.
Qed.

Lemma commits_snoc lines ev :
  commits (lines ++ [ev]) = (commits lines + if is_commit ev then 1 else 0)%nat.
Proof.
  unfold commits. rewrite filter_app, length_app.
  destruct (is_commit ev) eqn:Hev.
  - by rewrite filter_cons_True, filter_nil.
  - rewrite filter_cons_False, filter_nil by (by rewrite Hev). done.
Qed.

(** Rows that come with their id keep it, and leave the sequence alone. *)
Lemma assign_ids_explicit seq (inputs : list Sql.emp_input) :
  Forall (λ x, is_Some (Sql.i_id x)) inputs →
  Sql.assign_ids seq inputs
  = Some ((λ x, Sql.with_id (default 0 (Sql.i_id x)) x) <$> inputs, seq).
Proof.
  induction 1 as [|x inputs [i Hi] _ IH]; simpl; [done|].
  by rewrite Hi, IH.
Qed.

Lemma employee_rows_with_id_explicit rt df inputs :
  mapM (employee_row_with_id rt) df = Some inputs →
  Forall (λ x, is_Some (Sql.i_id x)) inputs.
Proof.
  rewrite mapM_Some. induction 1 as [|r x df inputs Hr _ IH]; constructor; [|done].
  unfold employee_row_with_id in Hr.
  repeat (case_match; simplify_option_eq; try done).
Qed.

Lemma copy_employees_with_id rt d df d' :
  mapM (employee_row_with_id rt) df ≫= Sql.copy_employees d = Some d' →
  ∃ new, loaded_rows rt "hired_employees" df = Some new
         ∧ table_rows d' "hired_employees" = table_rows d "hired_employees" ++ new.
Proof.
  unfold loaded_rows, table_rows. simpl.
  destruct (mapM (employee_row_with_id rt) df) as [inputs|] eqn:Hinputs;
    simpl; [|done].
  unfold Sql.copy_employees.
  rewrite (assign_ids_explicit _ _ (employee_rows_with_id_explicit _ _ _ Hinputs)).
  case_match; [|done]. intros [= <-]. eexists. split; [done|]. simpl.
  by rewrite fmap_app, <- list_fmap_compose.
Qed.

Lemma copy_departments_rows rt d df d' :
  mapM (reference_row rt) df ≫= Sql.copy_departments d = Some d' →
  ∃ new, loaded_rows rt "departments" df = Some new
         ∧ table_rows d' "departments" = table_rows d "departments" ++ new.
Proof.
  unfold loaded_rows, table_rows. simpl.
  destruct (mapM (reference_row rt) df) as [rows|]; simpl; [|done].
  unfold Sql.copy_departments. case_match; [|done]. intros [= <-].
  eexists. split; [done|]. simpl. by rewrite fmap_app.
Qed.

Lemma copy_jobs_rows rt d df d' :
  mapM (reference_row rt) df ≫= Sql.copy_jobs d = Some d' →
  ∃ new, loaded_rows rt "jobs" df = Some new
         ∧ table_rows d' "jobs" = table_rows d "jobs" ++ new.
Proof.
  unfold loaded_rows, table_rows. simpl.
  destruct (mapM (reference_row rt) df) as [rows|]; simpl; [|done].
  unfold Sql.copy_jobs. case_match; [|done]. intros [= <-].
  eexists. split; [done|]. simpl. by rewrite fmap_app.
Qed.

(** One call of [_load_with_copy]: one connection, one line, and either
    the rows of the frame appended to the table or the store as it was. *)
Lemma load_with_copy_spec rt env df table w :
  table ∈ Consumer.known_tables →
  ∃ res w',
    _load_with_copy rt env df table w = (res, w')
    ∧ loads (journal w') = S (loads (journal w))
    ∧ connections w' = S (connections w)
    ∧ match res with
      | Ok _ =>
        commits (journal w') = S (commits (journal w))
        ∧ ∃ new, loaded_rows rt table df = Some new
                 ∧ table_rows (db w') table = table_rows (db w) table ++ new
      | Raise _ => commits (journal w') = commits (journal w) ∧ db w' = db w
      end.
Proof.
  intros Htable. unfold _load_with_copy, try, connect, mbind, io_bind.
  destruct (connect_ok env (connections w)); simpl.
  2:{ eexists _, _. split; [done|]. simpl.
      rewrite loads_snoc, commits_snoc. simpl. repeat split; lia. }
  unfold Consumer.known_tables in Htable.
  repeat (apply elem_of_cons in Htable as [-> | Htable]);
    [| | |by apply elem_of_nil in Htable]; simpl;
    unfold _copy_hired_employees, _copy_departments, _copy_jobs, execute; simpl.
  - destruct (mapM (employee_row_with_id rt) df ≫= Sql.copy_employees (db w))
      as [d'|] eqn:Hcopy; simpl.
    + eexists _, _. split; [done|]. simpl.
      rewrite loads_snoc, commits_snoc. simpl.
      repeat split; [lia | lia |]. by apply (copy_employees_with_id rt).
    + eexists _, _. split; [done|]. simpl.
      rewrite loads_snoc, commits_snoc. simpl. repeat split; lia.
  - destruct (mapM (reference_row rt) df ≫= Sql.copy_departments (db w))
      as [d'|] eqn:Hcopy; simpl.
    + eexists _, _. split; [done|]. simpl.
      rewrite loads_snoc, commits_snoc. simpl.
      repeat split; [lia | lia |]. by apply (copy_departments_rows rt).
    + eexists _, _. split; [done|]. simpl.
      rewrite loads_snoc, commits_snoc. simpl. repeat split; lia.
  - destruct (mapM (reference_row rt) df ≫= Sql.copy_jobs (db w))
      as [d'|] eqn:Hcopy; simpl.
    + eexists _, _. split; [done|]. simpl.
      rewrite loads_snoc, commits_snoc. simpl.
      repeat split; [lia | lia |]. by apply (copy_jobs_rows rt).
    + eexists _, _. split; [done|]. simpl.
      rewrite loads_snoc, commits_snoc. simpl. repeat split; lia.
Qed.

Lemma mapM_app_Some {A B} (f : A → option B) l1 l2 k1 k2 :
  mapM f l1 = Some k1 → mapM f l2 = Some k2 → mapM f (l1 ++ l2) = Some (k1 ++ k2).
Proof. rewrite !mapM_Some. apply Forall2_app. Qed.

Lemma loaded_rows_app rt table df1 df2 new1 new2 :
  loaded_rows rt table df1 = Some new1 →
  loaded_rows rt table df2 = Some new2 →
  loaded_rows rt table (df1 ++ df2) = Some (new1 ++ new2).
Proof.
  unfold loaded_rows. repeat case_match.
  - destruct (mapM _ df1) as [k1|] eqn:H1; simpl; [|done].
    destruct (mapM _ df2) as [k2|] eqn:H2; simpl; [|done].
    intros [= <-] [= <-]. rewrite (mapM_app_Some _ _ _ _ _ H1 H2). simpl.
    by rewrite fmap_app.
  - destruct (mapM _ df1) as [k1|] eqn:H1; simpl; [|done].
    destruct (mapM _ df2) as [k2|] eqn:H2; simpl; [|done].
    intros [= <-] [= <-]. rewrite (mapM_app_Some _ _ _ _ _ H1 H2). simpl.
    by rewrite fmap_app.
  - by intros [= <-] [= <-].
Qed.

Lemma loaded_rows_nil rt table : loaded_rows rt table [] = Some [].
Proof. unfold loaded_rows. by repeat case_match. Qed.

Lemma for_each_fmap {A B} (f : A → B) (xs : list A) (body : B → io unit) :
  for_each (f <$> xs) body = for_each xs (body ∘ f).
Proof.
  induction xs as [|x xs IH]; [done|].
  rewrite fmap_cons. cbn [for_each]. by rewrite IH.
Qed.

(** The loop over the chunks: [k] loads are issued. When the loop
    returns, [k] is the number of chunks and every row is committed; when
    it raises, it is the [k]-th load that raised, [k - 1] loads have
    committed, and the table holds the rows of the chunks before it and
    none of the others. *)
Lemma load_chunks_spec rt env table (cs : list dataframe) :
  table ∈ Consumer.known_tables →
  ∀ w, ∃ res w' k,
    for_each cs (λ c, _load_with_copy rt env c table) w = (res, w')
    ∧ loads (journal w') = (loads (journal w) + k)%nat
    ∧ connections w' = (connections w + k)%nat
    ∧ match res with
      | Ok _ =>
        k = length cs
        ∧ commits (journal w') = (commits (journal w) + k)%nat
        ∧ ∃ new, loaded_rows rt table (concat cs) = Some new
                 ∧ table_rows (db w') table = table_rows (db w) table ++ new
      | Raise _ =>
        (1 ≤ k ≤ length cs)%nat
        ∧ commits (journal w') = (commits (journal w) + (k - 1))%nat
        ∧ ∃ new, loaded_rows rt table (concat (take (k - 1) cs)) = Some new
                 ∧ table_rows (db w') table = table_rows (db w) table ++ new
      end.
Proof.
  intros Htable. induction cs as [|c cs IH]; intros w; simpl.
  - exists (Ok tt), w, O. split; [done|]. repeat split; try lia.
    exists []. split; [apply loaded_rows_nil | by rewrite app_nil_r].
  - destruct (load_with_copy_spec rt env c table w Htable)
      as (res1 & w1 & Hrun1 & Hloads1 & Hconn1 & Hres1).
    destruct res1 as [[]|e].
    + rewrite (bind_ok _ _ _ _ _ Hrun1).
      destruct Hres1 as (Hcommits1 & new1 & Hnew1 & Hrows1).
      destruct (IH w1) as (res & w' & k & Hrun & Hloads & Hconn & Hres).
      exists res, w', (S k). split; [done|].
      split; [lia|]. split; [lia|].
      destruct res as [[]|e].
      * destruct Hres as (-> & Hcommits & new & Hnew & Hrows).
        split; [done|]. split; [lia|].
        exists (new1 ++ new). split; [by apply loaded_rows_app|].
        by rewrite Hrows, Hrows1, app_assoc.
      * destruct Hres as (Hk & Hcommits & new & Hnew & Hrows).
        split; [lia|]. split; [lia|].
        exists (new1 ++ new). split.
        -- replace (S k - 1)%nat with (S (k - 1)) by lia. simpl.
           by apply loaded_rows_app.
        -- by rewrite Hrows, Hrows1, app_assoc.
    + rewrite (bind_raise _ _ _ _ _ Hrun1).
      destruct Hres1 as [Hcommits1 Hdb1].
      exists (Raise e), w1, 1%nat. split; [done|].
      split; [lia|]. split; [lia|]. split; [lia|]. split; [lia|].
      exists []. split; [apply loaded_rows_nil|].
      by rewrite Hdb1, app_nil_r.
Qed.



(** There the third chunk repeats an id and its load raises: three loads
    were issued on three connections, two committed, and the table holds
    the four rows of the first two chunks. *)
Example third_chunk_fails :
  let out := _load_with_copy_batches Scenario.rt Scenario.env 2
               Scenario.five_departments "departments"
               (Scenario.world_of Store.empty []) in
  out.1 = Raise "COPY failed"
  ∧ r_id <$> departments (World.db out.2) = [1; 2; 3; 4]
  ∧ loads (journal out.2) = 3%nat
  ∧ commits (journal out.2) = 2%nat
  ∧ connections out.2 = 3%nat.
Proof. vm_compute. by repeat split. Qed.

(** A refused connection makes the second chunk fail: the first chunk
    stays committed and the third is never tried. *)
Example second_chunk_fails :
  let out := _load_with_copy_batches Scenario.rt (Scenario.env_refusing 1) 2
               Scenario.five_departments "departments"
               (Scenario.world_of Store.empty []) in
  out.1 = Raise "could not connect to server"
  ∧ r_id <$> departments (World.db out.2) = [1; 2]
  ∧ loads (journal out.2) = 2%nat
  ∧ commits (journal out.2) = 1%nat.
Proof. vm_compute. by repeat split. Qed.

(* --------------------------------------------------------------------- *)
(** ** Employee records without an id *)
(* --------------------------------------------------------------------- *)

Lemma explicit_id_none (r : record) :
  explicit_id r = None ↔ r !!! "id" = VNone.
Proof.
  unfold explicit_id. rewrite lookup_total_alt.
  destruct (r !! "id") as [[]|]; simpl; split; done.
Qed.

(** At a flush, a record without an id goes with the rows the store
    numbers, not with the rows that carry an id. *)
Lemma without_id_routing (items : dataframe) (r : record) :
  r ∈ items → explicit_id r = None →
  r ∈ Consumer.rows_without_id items ∧ r ∉ Consumer.rows_with_id items.
Proof.
  intros Hin Hid. apply explicit_id_none in Hid.
  unfold Consumer.rows_without_id, Consumer.rows_with_id.
  destruct (has_column items "id").
  - split.
    + apply list_elem_of_filter. split; [|done]. by rewrite Hid.
    + rewrite list_elem_of_filter. rewrite Hid. by intros [? _].
  - split; [done | apply not_elem_of_nil].
Qed.

(** Rows that come without an id take the next values of the sequence. *)
Lemma assign_ids_omitted (inputs : list Sql.emp_input) :
  Forall (λ x, Sql.i_id x = None) inputs →
  ∀ next,
    Sql.assign_ids (Some next) inputs
    = Some (imap (λ k x, Sql.with_id (next + Z.of_nat k) x) inputs,
            Some (next + Z.of_nat (length inputs))).
Proof.
  induction 1 as [|x inputs Hx _ IH]; intros next; simpl.
  - by rewrite Z.add_0_r.
  - rewrite Hx, IH. simpl. rewrite Z.add_0_r. f_equal. f_equal.
    + f_equal. apply imap_ext. intros k y _. simpl. f_equal. lia.
    + f_equal. lia.
Qed.

Lemma employee_rows_no_id_omitted rt (df : dataframe) :
  Forall (λ x, Sql.i_id x = None) (omap (employee_row_no_id rt) df).
Proof.
  apply Forall_forall. intros x (r & _ & Hr)%list_elem_of_omap.
  unfold employee_row_no_id in Hr. by simplify_option_eq.
Qed.

(** The id-omitting load appends the rows it could convert, numbered
    from the identity sequence of the table (which starts at 1 when the
    load is the one that creates it). *)
Lemma load_with_copy_no_id_rows rt env (df : dataframe) w w' :
  _load_with_copy_no_id rt env df "hired_employees" w = (Ok tt, w') →
  hired_employees (db w')
  = hired_employees (db w)
    ++ imap (λ k x, Sql.with_id (default 1 (identity (db w)) + Z.of_nat k) x)
         (omap (employee_row_no_id rt) df).
Proof.
  unfold _load_with_copy_no_id. intros Hrun.
  apply try_ok_inv in Hrun as [Hrun | (e & w1 & _ & Hh)];
    [|by apply bind_ok_inv in Hh as (? & ? & _ & ?)].
  apply bind_ok_inv in Hrun as ([] & w1 & Hconnect & Hrun).
  assert (db w1 = db w) as Hdb1.
  { unfold connect in Hconnect.
    destruct (connect_ok env (connections w)); by simplify_eq/=. }
  apply bind_ok_inv in Hrun as ([] & w2 & Halter & Hrun).
  assert (identity (db w2) = Some (default 1 (identity (db w)))
          ∧ hired_employees (db w2) = hired_employees (db w)) as [Hseq Hrows].
  { rewrite <- Hdb1. unfold try, execute, Sql.add_identity in Halter.
    destruct (identity (db w1)) eqn:Hid; unfold mret, io_ret, with_db in Halter;
      by simplify_eq/=. }
  simpl in Hrun.
  apply bind_ok_inv in Hrun as ([] & w3 & Hcopy & Hlog).
  unfold log in Hlog. simplify_eq/=.
  unfold _copy_hired_employees_no_id, execute, Sql.copy_employees in Hcopy.
  rewrite Hseq, (assign_ids_omitted _ (employee_rows_no_id_omitted rt df)) in Hcopy.
  destruct (_ && _); simplify_eq/=. by rewrite Hrows.
Qed.

(** Cleaning keeps the id cell of the rows it keeps. *)
Lemma drop_duplicates_Forall (P : record → Prop) (df : dataframe) :
  Forall P df → ∀ seen, Forall P (drop_duplicates seen df).
Proof.
  induction 1 as [|r df Hr _ IH]; intros seen; simpl; [done|].
  case_bool_decide; [apply IH | constructor; [done | apply IH]].
Qed.

Lemma Forall_omap {A B} (P : A → Prop) (Q : B → Prop) (f : A → option B) l :
  (∀ x y, f x = Some y → P x → Q y) → Forall P l → Forall Q (omap f l).
Proof.
  intros Hf Hl. apply Forall_forall. intros y (x & Hx & Hy)%list_elem_of_omap.
  rewrite Forall_forall in Hl. eauto.
Qed.

Lemma Forall_filter_keep {A} (P : A → Prop) (Q : A → Prop)
    `{!∀ x, Decision (Q x)} (l : list A) :
  Forall P l → Forall P (filter Q l).
Proof.
  intros Hl. apply Forall_forall. intros x [_ Hx]%list_elem_of_filter.
  rewrite Forall_forall in Hl. eauto.
Qed.

(** Every row that survives the cleaning of a frame of employees with
    its five columns has an id. *)
Lemma cleaned_employees_have_id rt (df : dataframe) :
  has_columns df employee_columns = true →
  Forall (λ r : record, r !!! "id" ≠ VNone) (clean_hired_employees rt df).
Proof.
  intros Hcolumns. unfold clean_hired_employees.
  rewrite Hcolumns. cbn [negb].
  apply drop_duplicates_Forall.
  apply Forall_filter_keep.
  apply (Forall_omap (λ r : record, r !!! "id" ≠ VNone)).
  { intros r r' Hr. unfold coerce_int in Hr. simplify_option_eq.
    by rewrite !lookup_total_insert_ne. }
  do 2 apply Forall_filter_keep.
  apply Forall_fmap, Forall_forall. intros r Hr. simpl.
  unfold strip_column. rewrite !lookup_total_insert_ne by done.
  revert r Hr. apply Forall_forall.
  apply (Forall_omap (λ r : record, r !!! "id" ≠ VNone)).
  { intros r r' Hr. unfold coerce_datetime in Hr. simplify_option_eq.
    by rewrite lookup_total_insert_ne. }
  do 2 apply Forall_filter_keep.
  apply Forall_fmap, Forall_forall. intros r Hr. simpl.
  unfold strip_column. rewrite lookup_total_insert_ne by done.
  revert r Hr. apply Forall_forall.
  apply Forall_forall. intros r [Hcols _]%list_elem_of_filter.
  by apply Forall_cons in Hcols as [Hid _].
Qed.


(** On the streaming path the record of Ana Ruiz, which has no id, is
    validated, flushed and stored under the first id of the sequence. *)
Example streamed_employee_gets_an_id :
  let out := Consumer.on_message Scenario.rt Scenario.env 1000 Scenario.now true
               "hired_employees" Scenario.ana ∅
               (Scenario.world_of
                  {| departments := departments Scenario.db;
                     jobs := jobs Scenario.db; hired_employees := [];
                     identity := None |} []) in
  out.1 !!! "hired_employees" = []
  ∧ (λ row, (e_id row, e_name row)) <$> hired_employees (World.db out.2)
    = [(1, u "Ana Ruiz")]
  ∧ journal out.2
    = [LoadDone "hired_employees" 1; FlushDone "hired_employees" 1].
Proof. vm_compute. by repeat split. Qed.


(* --------------------------------------------------------------------- *)
(** ** Employee rows reference existing rows *)
(* --------------------------------------------------------------------- *)

Lemma truncate_fk d table d' : Sql.truncate d table = Some d' → fk_ok d'.
Proof.
  unfold Sql.truncate. repeat case_match; intros [= <-]; try done;
    intros row Hrow; by apply elem_of_nil in Hrow.
Qed.

Lemma add_identity_fk d d' : fk_ok d → Sql.add_identity d = Some d' → fk_ok d'.
Proof. unfold Sql.add_identity. case_match; [done|]. by intros Hd [= <-]. Qed.

Lemma copy_departments_fk d rows d' :
  fk_ok d → Sql.copy_departments d rows = Some d' → fk_ok d'.
Proof.
  unfold Sql.copy_departments. case_match; [|done]. intros Hd [= <-] row Hrow.
  destruct (Hd row Hrow) as [Hdep Hjob]. split; [|done].
  unfold department_exists in *. simpl.
  apply bool_decide_eq_true. apply bool_decide_eq_true in Hdep.
  rewrite fmap_app. apply elem_of_app. by left.
Qed.

Lemma copy_jobs_fk d rows d' :
  fk_ok d → Sql.copy_jobs d rows = Some d' → fk_ok d'.
Proof.
  unfold Sql.copy_jobs. case_match; [|done]. intros Hd [= <-] row Hrow.
  destruct (Hd row Hrow) as [Hdep Hjob]. split; [done|].
  unfold job_exists in *. simpl.
  apply bool_decide_eq_true. apply bool_decide_eq_true in Hjob.
  rewrite fmap_app. apply elem_of_app. by left.
Qed.

(** The store admits an employee row only with both of its references
    in place. *)
Lemma copy_employees_fk d inputs d' :
  fk_ok d → Sql.copy_employees d inputs = Some d' → fk_ok d'.
Proof.
  unfold Sql.copy_employees.
  destruct (Sql.assign_ids (identity d) inputs) as [[new seq]|]; [|done].
  destruct (bool_decide _ && forallb _ new) eqn:Hok; [|done].
  apply andb_true_iff in Hok as [_ Hnew]. rewrite forallb_forall in Hnew.
  intros Hd [= <-] row Hrow. simpl in Hrow.
  apply elem_of_app in Hrow as [Hrow | Hrow]; [by apply Hd|].
  apply list_elem_of_In, Hnew in Hrow. unfold Sql.employee_row_ok in Hrow.
  apply andb_true_iff in Hrow as [Hrow Hjob].
  apply andb_true_iff in Hrow as [_ Hdep]. done.
Qed.

Lemma bind_copy_fk {A} (rows : option A) (copy : A → option store) d' :
  (∀ a, copy a = Some d' → fk_ok d') → rows ≫= copy = Some d' → fk_ok d'.
Proof. intros Hcopy. destruct rows as [a|]; simpl; [apply Hcopy | done]. Qed.

Lemma restore_batch_fk rt table id_column d batch d' :
  fk_ok d → restore_batch rt table id_column d batch = Some d' → fk_ok d'.
Proof.
  intros Hd. unfold restore_batch.
  repeat case_match; try done; apply bind_copy_fk; intros rows;
    eauto using copy_employees_fk, copy_departments_fk, copy_jobs_fk.
Qed.

Lemma restore_batches_fk rt table id_column batches :
  ∀ d n d' total,
    fk_ok d →
    restore_batches rt table id_column d batches n = Some (d', total) →
    fk_ok d'.
Proof.
  induction batches as [|batch rest IH]; intros d n d' total Hd; simpl.
  - by intros [= <- _].
  - destruct (restore_batch rt table id_column d batch) as [d1|] eqn:Hbatch;
      simpl; [|done].
    apply IH. by apply (restore_batch_fk rt table id_column d batch).
Qed.

Lemma execute_fk stmt error :
  (∀ d d', fk_ok d → stmt d = Some d' → fk_ok d') →
  preserves fk_view (execute stmt error).
Proof.
  intros Hstmt w Hw. unfold execute, fk_view in *.
  destruct (stmt (db w)) as [d'|] eqn:Hd; simpl; eauto.
Qed.

Lemma transaction_fk {A} (body : store → option (store * A)) error :
  (∀ d d' a, fk_ok d → body d = Some (d', a) → fk_ok d') →
  preserves fk_view (transaction body error).
Proof.
  intros Hbody w Hw. unfold transaction, fk_view in *.
  destruct (body (db w)) as [[d' a]|] eqn:Hd; simpl; eauto.
Qed.

(** Statements are the only primitives that touch the tables. *)
Ltac keep_fk_primitive :=
  solve [ intros ?w ?H;
          cbv [connect request log get_bucket set_bucket fk_view] in *;
          repeat case_match; simpl in *; done ].

Ltac keep_fk known :=
  repeat first
    [ progress intros
    | known
    | apply preserves_ret | apply preserves_raise
    | apply preserves_bind | apply preserves_try | apply preserves_for_each
    | keep_fk_primitive
    | apply execute_fk; intros ? ? ?; cbn beta;
      first
        [ solve [ eauto using truncate_fk, add_identity_fk, copy_employees_fk ]
        | apply bind_copy_fk; intros ?; cbn beta;
          solve [ eauto using copy_employees_fk, copy_departments_fk,
                    copy_jobs_fk ] ]
    | apply transaction_fk; intros ? ? ? ?; cbn beta;
      solve [ eauto using restore_batches_fk ]
    | case_match ].

Lemma load_with_copy_fk rt env df table :
  preserves fk_view (_load_with_copy rt env df table).
Proof.
  unfold _load_with_copy, _copy_hired_employees, _copy_departments, _copy_jobs.
  keep_fk fail.
Qed.

Lemma load_with_copy_no_id_fk rt env df table :
  preserves fk_view (_load_with_copy_no_id rt env df table).
Proof.
  unfold _load_with_copy_no_id, _copy_hired_employees_no_id. keep_fk fail.
Qed.

Lemma load_from_minio_fk rt env batch_size table :
  preserves fk_view (load_from_minio_to_postgres rt env batch_size table).
Proof.
  unfold load_from_minio_to_postgres, load_listed_files,
    _truncate_table_before_load, truncate_statement, _process_csv,
    _load_with_copy_batches, list_objects, get_object.
  keep_fk ltac:(apply load_with_copy_fk).
Qed.

Lemma restore_dataframe_fk rt env df table chunk_size :
  preserves fk_view (_restore_dataframe_to_postgres rt env df table chunk_size).
Proof. unfold _restore_dataframe_to_postgres. keep_fk fail. Qed.

Lemma restore_files_fk rt env table chunk_size files :
  ∀ total, preserves fk_view (restore_files rt env table chunk_size files total).
Proof.
  induction files as [|key rest IH]; intros total; simpl.
  - apply preserves_ret.
  - unfold get_object.
    keep_fk ltac:(first [apply restore_dataframe_fk | apply IH]).
Qed.

Lemma restore_fk rt env table backup_path chunk_size :
  preserves fk_view
    (restore_table_from_parquet_in_minio rt env table backup_path chunk_size).
Proof.
  unfold restore_table_from_parquet_in_minio, restore_from,
    _truncate_table_before_load, truncate_statement, list_objects.
  keep_fk ltac:(apply restore_files_fk).
Qed.

Lemma flush_fk rt env table (bufs : Consumer.buffers) w :
  fk_ok (db w) → fk_ok (db (Consumer._flush rt env table bufs w).2).
Proof.
  intros Hw. unfold Consumer._flush. case_bool_decide; [done|].
  assert (preserves fk_view (Consumer.flush_items rt env table (bufs !!! table)))
    as Hitems.
  { unfold Consumer.flush_items, Consumer.flush_hired_employees,
      Consumer.flush_with_id, Consumer.flush_without_id,
      Consumer.flush_reference, Consumer.require_columns.
    keep_fk ltac:(first [apply load_with_copy_fk | apply load_with_copy_no_id_fk]). }
  specialize (Hitems w Hw). unfold fk_view in Hitems.
  by destruct (Consumer.flush_items rt env table (bufs !!! table) w) as [[[]|e] w'].
Qed.

Lemma flush_all_fk rt env tables :
  ∀ (bufs : Consumer.buffers) w,
    fk_ok (db w) → fk_ok (db (Consumer.flush_all rt env tables bufs w).2).
Proof.
  induction tables as [|table rest IH]; intros bufs w Hw; simpl; [done|].
  pose proof (flush_fk rt env table bufs w Hw) as Hflush.
  destruct (Consumer._flush rt env table bufs w) as [bufs' w']. by apply IH.
Qed.

Lemma validate_and_log_record_db rt now table r w :
  ∃ b w', Consumer.validate_and_log_record rt now table r w = (Ok b, w')
          ∧ db w' = db w
          ∧ (b = true → ∃ message kind,
               validate rt (db w) now table r = Some (true, message, kind)).
Proof.
  unfold Consumer.validate_and_log_record.
  destruct (validate rt (db w) now table r) as [[[[] message] kind]|];
    eexists _, _; (split; [done|]); split; try done; eauto.
Qed.

(** A verdict that says valid is the verdict [accepted]. *)
Lemma valid_is_accepted rt db now r message kind :
  validate_hired_employee rt db now r = (true, message, kind) →
  validate_hired_employee rt db now r = accepted.
Proof.
  unfold validate_hired_employee, rejected. by repeat case_match.
Qed.

(** An accepted record references a department and a job that the store
    holds at the time of the validation. *)
Lemma accepted_references rt db now r :
  validate_hired_employee rt db now r = accepted →
  references_positive rt (department_exists db) r "department_id"
  ∧ references_positive rt (job_exists db) r "job_id".
Proof.
  unfold validate_hired_employee, rejected, accepted, references_positive.
  case_bool_decide; [|done]. simpl.
  destruct (datetime_errors rt now (r !!! "datetime")) as [|es]; [done|].
  case_bool_decide as Hnil; [|done]. intros _. simpl in Hnil.
  apply app_eq_nil in Hnil as [Hnil _].
  apply app_eq_nil in Hnil as [Hnil Hjob].
  apply app_eq_nil in Hnil as [_ Hdep].
  by rewrite <- department_id_errors_nil, <- job_id_errors_nil.
Qed.

Lemma flush_buffers rt env table (bufs : Consumer.buffers) w :
  (Consumer._flush rt env table bufs w).1 = bufs
  ∨ (Consumer._flush rt env table bufs w).1 = <[table := []]> bufs.
Proof.
  unfold Consumer._flush. case_bool_decide; [by left|].
  destruct (Consumer.flush_items rt env table (bufs !!! table) w) as [[[]|e] w'];
    by right.
Qed.

(** A message leaves the store consistent, and puts an employee record
    in the buffer only when the validator has accepted it against the
    store of that moment. *)
Lemma on_message_validated rt env batch_size now due table payload
    (bufs : Consumer.buffers) w :
  (fk_ok (db w) →
   fk_ok (db (Consumer.on_message rt env batch_size now due table payload bufs w).2))
  ∧ ∀ r,
      r ∈ (Consumer.on_message rt env batch_size now due table payload bufs w).1
            !!! "hired_employees" →
      r ∈ bufs !!! "hired_employees"
      ∨ validate_hired_employee rt (db w) now r = accepted.
Proof.
  unfold Consumer.on_message.
  destruct (negb _) eqn:Hknown; [by split; [|left]|].
  destruct (validate_and_log_record_db rt now table payload w)
    as (b & w' & -> & Hdb & Hvalid).
  destruct b; [|simpl; split; [by rewrite Hdb | by left]].
  destruct (Hvalid eq_refl) as (message & kind & Hverdict).
  set (bufs' := <[table := bufs !!! table ++ [payload]]> bufs).
  assert (∀ r, r ∈ bufs' !!! "hired_employees" →
               r ∈ bufs !!! "hired_employees"
               ∨ validate_hired_employee rt (db w) now r = accepted) as Hbufs'.
  { intros r. unfold bufs'.
    destruct (decide (table = "hired_employees")) as [-> | Hother].
    - rewrite lookup_total_insert_eq. intros [Hr | Hr%list_elem_of_singleton]%elem_of_app;
        [by left | right; subst r].
      unfold validate in Hverdict. simpl in Hverdict.
      injection Hverdict as Hverdict. by apply valid_is_accepted in Hverdict.
    - rewrite lookup_total_insert_ne by done. by left. }
  destruct (_ || due).
  - split; [rewrite <- Hdb; apply flush_fk|].
    intros r.
    destruct (flush_buffers rt env table bufs' w') as [-> | ->]; [apply Hbufs'|].
    destruct (decide (table = "hired_employees")) as [-> | Hother].
    + rewrite lookup_total_insert_eq. by intros ?%elem_of_nil.
    + rewrite lookup_total_insert_ne by done. apply Hbufs'.
  - simpl. split; [by rewrite Hdb | apply Hbufs'].
Qed.

(** C1. An employee row is in the store only with a department row and
    a job row for it to reference. On the streaming path the validator
    accepts a record only when both rows exist at validation time, a
    record enters the buffer only when accepted, and a flush keeps the
    store consistent. The truncate-load of a CSV file and the restore of
    a snapshot keep it consistent as well: their rows reach the table
    through a COPY that the store refuses when a reference is missing,
    and truncating [departments] or [jobs] empties [hired_employees]. *)
Theorem employees_reference_existing_rows rt env batch_size :
  (∀ db now r,
     validate_hired_employee rt db now r = accepted →
     references_positive rt (department_exists db) r "department_id"
     ∧ references_positive rt (job_exists db) r "job_id")
  ∧ (∀ now due table payload (bufs : Consumer.buffers) w,
       (fk_ok (db w) →
        fk_ok (db (Consumer.on_message rt env batch_size now due table payload
                     bufs w).2))
       ∧ ∀ r,
           r ∈ (Consumer.on_message rt env batch_size now due table payload
                  bufs w).1 !!! "hired_employees" →
           r ∈ bufs !!! "hired_employees"
           ∨ validate_hired_employee rt (db w) now r = accepted)
  ∧ (∀ tables (bufs : Consumer.buffers) w,
       fk_ok (db w) → fk_ok (db (Consumer.flush_all rt env tables bufs w).2))
  ∧ (∀ table w,
       fk_ok (db w) →
       fk_ok (db (load_from_minio_to_postgres rt env batch_size table w).2))
  ∧ (∀ table backup_path chunk_size w,
       fk_ok (db w) →
       fk_ok (db (restore_table_from_parquet_in_minio rt env table backup_path
                    chunk_size w).2)).
Proof.
  split; [apply accepted_references|].
  split; [intros; apply on_message_validated|].
  split; [intros; by apply flush_all_fk|].
  split.
  - intros table w Hw. by apply (load_from_minio_fk rt env batch_size table w).
  - intros table backup_path chunk_size w Hw.
    by apply (restore_fk rt env table backup_path chunk_size w).
Qed.

(** A CSV file whose only row references a department that does not
    exist: the COPY is refused and nothing is stored. *)
Example dangling_reference_is_refused :
  let out :=
    load_from_minio_to_postgres Scenario.rt Scenario.env 1000 "hired_employees"
      (Scenario.world_of Scenario.db
         [ ("raw_data/hired_employees/hired_employees.csv",
            CsvObject [ <["department_id" := VInt 99]>
                          (<["id" := VInt 8]> Scenario.ana) ]) ]) in
  out.1 = Ok true
  ∧ hired_employees (World.db out.2) = []
  ∧ LoadError "COPY failed" ∈ journal out.2.
Proof.
  vm_compute. split; [done|]. split; [done|].
  apply elem_of_cons. right. apply elem_of_cons. by left.
Qed.

(* ===================================================================== *)
(** ** Further properties of the code *)
(* ===================================================================== *)

Import Backup.

(* --------------------------------------------------------------------- *)
(** ** Texts: prefixes and padded numbers *)
(* --------------------------------------------------------------------- *)

Lemma app_cons a (s t : string) : String a s +:+ t = String a (s +:+ t).
Proof. reflexivity. Qed.

Lemma app_empty_l (t : string) : "" +:+ t = t.
Proof. reflexivity. Qed.

Lemma prefix_app (a b : string) : String.prefix a (a +:+ b) = true.
Proof.
  induction a as [|c a IH]; [by destruct b|].
  rewrite app_cons. simpl. by destruct (ascii_dec c c).
Qed.

Lemma prefix_app_inv (a s : string) :
  String.prefix a s = true → ∃ b, s = a +:+ b.
Proof.
  revert s. induction a as [|c a IH]; intros s; [by exists s|].
  destruct s as [|c' s]; simpl; [done|].
  destruct (ascii_dec c c') as [->|]; [|done].
  intros [b ->]%IH. by exists b.
Qed.

Lemma string_length_app (a b : string) :
  String.length (a +:+ b) = (String.length a + String.length b)%nat.
Proof. induction a as [|c a IH]; [done|]. rewrite app_cons. simpl. by rewrite IH. Qed.

(** [pretty] writes no leading zero. *)
Lemma pretty_N_go_head (x : N) :
  (0 < x)%N → ∀ s, ∃ c rest, pretty_N_go x s = String c rest ∧ c ≠ "0"%char.
Proof.
  induction (N.lt_wf_0 x) as [x _ IH]. intros Hx s.
  rewrite pretty_N_go_step by done.
  destruct (decide (x `div` 10 = 0)%N) as [Hdiv|Hdiv].
  - rewrite Hdiv, pretty_N_go_0. eexists _, _. split; [done|].
    assert (x `mod` 10 ≠ 0)%N as Hmod.
    { intros Hmod. pose proof (N.div_mod' x 10) as Hdm.
      rewrite Hdiv, Hmod in Hdm. lia. }
    assert (x `mod` 10 < 10)%N as Hlt by (apply N.mod_lt; lia).
    intros Hc. apply Hmod.
    apply pretty_N_char_inj; [done | lia | done].
  - apply IH; [apply N.div_lt; lia | by apply N.neq_0_lt_0].
Qed.

Lemma pretty_nat_head (k : nat) : no_leading_zero (pretty (Z.of_nat k)).
Proof.
  destruct k as [|k]; [by left | right].
  unfold pretty, pretty_Z. simpl.
  unfold pretty, pretty_positive, pretty, pretty_N. simpl.
  by apply pretty_N_go_head.
Qed.

Lemma zeros_S n : zeros (S n) = String "0" (zeros n).
Proof. unfold zeros. simpl. by destruct (replicate n _). Qed.

Lemma zeros_app_inj (i j : nat) (a b : string) :
  no_leading_zero a → no_leading_zero b →
  (i + String.length a = j + String.length b)%nat →
  zeros i +:+ a = zeros j +:+ b → a = b.
Proof.
  revert j. induction i as [|i IH]; intros j Ha Hb Hlen.
  - destruct j as [|j]; [done|]. rewrite zeros_S, app_cons, app_empty_l.
    intros Heq. exfalso.
    destruct Ha as [->|(c & rest & -> & Hc)]; [|by simplify_eq].
    simpl in Hlen. destruct b; [|simpl in Hlen; lia].
    by destruct Hb as [|(? & ? & ? & ?)].
  - destruct j as [|j].
    + rewrite zeros_S, app_cons, app_empty_l. intros Heq. exfalso.
      destruct Hb as [->|(c & rest & -> & Hc)]; [|by simplify_eq].
      simpl in Hlen. destruct a; [|simpl in Hlen; lia].
      by destruct Ha as [|(? & ? & ? & ?)].
    + rewrite !zeros_S, !app_cons. intros [=]. apply (IH j); [done..|lia|done].
Qed.

Lemma pad_nat_inj (width a b : nat) :
  pad width (Z.of_nat a) = pad width (Z.of_nat b) → a = b.
Proof.
  unfold pad. rewrite !Z.abs_eq by lia.
  fold (zeros (width - String.length (pretty (Z.of_nat a)))).
  fold (zeros (width - String.length (pretty (Z.of_nat b)))).
  intros Heq. apply Nat2Z.inj, (inj pretty).
  eapply zeros_app_inj; [apply pretty_nat_head..| |exact Heq].
  assert (∀ n, String.length (zeros n) = n) as Hzeros.
  { intros n. induction n as [|n IHn]; [done|]. rewrite zeros_S. simpl. by rewrite IHn. }
  apply (f_equal String.length) in Heq. by rewrite !string_length_app, !Hzeros in Heq.
Qed.

(* --------------------------------------------------------------------- *)
(** ** Uploads and the objects they leave *)
(* --------------------------------------------------------------------- *)

Lemma put_object_ok env key o w :
  minio_ok env (requests w) = true →
  put_object env key o w = (Ok tt, uploaded w (put (bucket w) key o) 1).
Proof.
  intros Hok. unfold put_object, request, set_bucket, mbind, io_bind, uploaded.
  rewrite Hok. simpl. by rewrite Nat.add_1_r.
Qed.

Lemma put_object_fail env key o w :
  minio_ok env (requests w) = false →
  put_object env key o w
  = (Raise "could not reach the object storage", uploaded w (bucket w) 1).
Proof.
  intros Hok. unfold put_object, request, set_bucket, mbind, io_bind, uploaded.
  rewrite Hok. simpl. by rewrite Nat.add_1_r.
Qed.

Lemma uploaded_uploaded w b n b' m :
  uploaded (uploaded w b n) b' m = uploaded w b' (n + m).
Proof. unfold uploaded. simpl. f_equal. lia. Qed.

Lemma uploads_ok env (files : list (string * dataframe)) : ∀ w,
  (∀ k, (k < length files)%nat → minio_ok env (requests w + k) = true) →
  for_each files (λ file, put_object env file.1 (ParquetObject file.2)) w
  = (Ok tt, uploaded w (put_all (bucket w) files) (length files)).
Proof.
  induction files as [|file files IH]; intros w Hok; simpl.
  - unfold uploaded. rewrite Nat.add_0_r. by destruct w.
  - rewrite (bind_ok _ _ _ _ _ (put_object_ok env _ _ w ltac:(
      rewrite <- (Nat.add_0_r (requests w)); apply Hok; simpl; lia))).
    rewrite IH.
    + by rewrite uploaded_uploaded.
    + intros k Hk. simpl. rewrite <- Nat.add_assoc. apply Hok. simpl. lia.
Qed.

Lemma uploads_fail env (files : list (string * dataframe)) : ∀ k w,
  (k < length files)%nat →
  (∀ j, (j < k)%nat → minio_ok env (requests w + j) = true) →
  minio_ok env (requests w + k) = false →
  for_each files (λ file, put_object env file.1 (ParquetObject file.2)) w
  = (Raise "could not reach the object storage",
     uploaded w (put_all (bucket w) (take k files)) (S k)).
Proof.
  induction files as [|file files IH]; intros k w Hk Hok Hfail; simpl in *; [lia|].
  destruct k as [|k].
  - rewrite Nat.add_0_r in Hfail.
    by rewrite (bind_raise _ _ _ _ _ (put_object_fail env _ _ w Hfail)).
  - rewrite (bind_ok _ _ _ _ _ (put_object_ok env _ _ w ltac:(
      rewrite <- (Nat.add_0_r (requests w)); apply Hok; lia))).
    rewrite (IH k).
    + by rewrite uploaded_uploaded.
    + lia.
    + intros j Hj. simpl. rewrite <- Nat.add_assoc. apply Hok. lia.
    + simpl. by rewrite <- Nat.add_assoc.
Qed.

Lemma object_at_put_same entries key o : object_at (put entries key o) key = o.
Proof. unfold object_at, put. simpl. by rewrite decide_True. Qed.

Lemma find_filter_other (entries : list (string * object)) key key' :
  key ≠ key' →
  (λ found : nat * (string * object), found.2.2)
    <$> list_find (λ entry, entry.1 = key') (filter (λ entry, entry.1 ≠ key) entries)
  = (λ found : nat * (string * object), found.2.2)
    <$> list_find (λ entry, entry.1 = key') entries.
Proof.
  intros Hne. induction entries as [|[k o] entries IH]; [done|].
  rewrite filter_cons. simpl. destruct (decide (k = key')) as [->|Hk].
  - rewrite decide_True by done. simpl. by rewrite decide_True.
  - case_decide; simpl; rewrite ?decide_False by done;
      destruct (list_find _ (filter _ entries)) as [[i e]|];
      destruct (list_find _ entries) as [[j e']|]; simpl in *; congruence.
Qed.

Lemma object_at_put_other entries key o key' :
  key ≠ key' → object_at (put entries key o) key' = object_at entries key'.
Proof.
  intros Hne. unfold object_at, put. simpl. rewrite decide_False by done.
  pose proof (find_filter_other entries key key' Hne) as Hfind.
  destruct (list_find _ (filter _ entries)) as [[i e]|];
    destruct (list_find _ entries) as [[j e']|]; simpl in *; congruence.
Qed.

Lemma put_all_snoc entries files file :
  put_all entries (files ++ [file])
  = put (put_all entries files) file.1 (ParquetObject file.2).
Proof. unfold put_all. by rewrite foldl_app. Qed.

Lemma object_at_put_all_other entries (files : list (string * dataframe)) key :
  key ∉ files.*1 → object_at (put_all entries files) key = object_at entries key.
Proof.
  induction files as [|file files IH] using rev_ind; [done|].
  rewrite fmap_app, not_elem_of_app. intros [Hfiles Hfile].
  rewrite put_all_snoc, object_at_put_other; [by apply IH|].
  intros <-. apply Hfile. simpl. apply list_elem_of_here.
Qed.

Lemma object_at_put_all entries (files : list (string * dataframe)) k key df :
  NoDup files.*1 → files !! k = Some (key, df) →
  object_at (put_all entries files) key = ParquetObject df.
Proof.
  revert k. induction files as [|file files IH] using rev_ind; intros k; [done|].
  rewrite fmap_app, NoDup_app. intros (Hfiles & Hnew & _) Hk.
  rewrite put_all_snoc.
  destruct (decide (k < length files)%nat) as [Hlt|Hge].
  - rewrite lookup_app_l in Hk by done.
    rewrite object_at_put_other; [by eapply IH|].
    intros <-. apply (Hnew file.1); [|simpl; apply list_elem_of_here].
    apply list_elem_of_fmap. exists (file.1, df). split; [done|].
    by eapply list_elem_of_lookup_2.
  - rewrite lookup_app_r in Hk by lia.
    apply list_lookup_singleton_Some in Hk as [_ ->]. simpl.
    apply object_at_put_same.
Qed.

Lemma filter_id {A} (P : A → Prop) `{∀ x, Decision (P x)} (l : list A) :
  Forall P l → filter P l = l.
Proof.
  induction 1 as [|x l Hx _ IH]; [done|].
  by rewrite filter_cons_True, IH.
Qed.

Lemma put_all_fresh entries (files : list (string * dataframe)) :
  NoDup files.*1 → (∀ key, key ∈ files.*1 → key ∉ entries.*1) →
  put_all entries files = reverse (parquet_entry <$> files) ++ entries.
Proof.
  revert entries. induction files as [|file files IH]; intros entries; [done|].
  rewrite fmap_cons, NoDup_cons. intros [Hfile Hfiles] Hfresh.
  unfold put_all. simpl. fold (put_all (put entries file.1 (ParquetObject file.2)) files).
  unfold put. rewrite filter_id.
  2:{ apply Forall_forall. intros entry Hentry Heq.
      apply (Hfresh file.1); [apply list_elem_of_here|].
      apply list_elem_of_fmap. by exists entry. }
  rewrite IH; [|done|].
  - by rewrite reverse_cons, <- app_assoc.
  - intros key Hkey. rewrite fmap_cons, not_elem_of_cons. split.
    + simpl. by intros ->.
    + apply Hfresh. by apply list_elem_of_further.
Qed.

(* --------------------------------------------------------------------- *)
(** ** A backup, part by part *)
(* --------------------------------------------------------------------- *)

(** The fetch loop cuts the rows as [range] and [iloc] do. *)
Lemma fetch_parts_slices (size : nat) (rows : dataframe) : ∀ turns start,
  (0 < size)%nat → (length rows - start ≤ turns)%nat →
  fetch_parts turns size (drop start rows)
  = (λ i, iloc rows i (i + size)) <$> range_from turns start (length rows) size.
Proof.
  induction turns as [|turns IH]; intros start Hsize Hturns; simpl; [done|].
  destruct (decide (start < length rows)%nat) as [Hlt|Hge].
  - rewrite (proj2 (Nat.ltb_lt _ _) Hlt). rewrite bool_decide_eq_false_2.
    2:{ intros Hnil. apply (f_equal length) in Hnil.
        rewrite length_take, length_drop in Hnil. simpl in Hnil. lia. }
    rewrite fmap_cons. f_equal.
    + unfold iloc. f_equal. lia.
    + rewrite drop_drop. apply IH; [done | lia].
  - rewrite (proj2 (Nat.ltb_ge _ _)) by lia.
    rewrite drop_ge by lia. by rewrite take_nil, bool_decide_eq_true_2.
Qed.

Lemma fetch_parts_chunks (size : nat) (rows : dataframe) :
  (0 < size)%nat → fetch_parts (length rows) size rows = chunks size rows.
Proof.
  intros Hsize. unfold chunks, range.
  rewrite <- (fetch_parts_slices size rows (length rows) 0) by lia.
  by rewrite drop_0.
Qed.

Lemma part_key_inj prefix a b : part_key prefix a = part_key prefix b → a = b.
Proof.
  unfold part_key. intros Heq. apply (inj (String.app prefix)) in Heq.
  apply (inj (String.app "/part-")) in Heq.
  apply (pad_nat_inj 4).
  (* the suffix is the same on both sides *)
  assert (∀ x y s, x +:+ s = y +:+ s → String.length x = String.length y) as Hlen.
  { intros x y s Hxy. apply (f_equal String.length) in Hxy.
    rewrite !string_length_app in Hxy. lia. }
  assert (∀ x y s, String.length x = String.length y → x +:+ s = y +:+ s → x = y)
    as Hcancel.
  { induction x as [|c x IHx]; intros [|c' y] s; simpl; try done.
    intros [= Hl]. rewrite !app_cons. intros [= -> Hxy]. f_equal. by eapply IHx. }
  eapply Hcancel; [by eapply Hlen | done].
Qed.

Lemma part_files_keys prefix (parts : list dataframe) :
  (part_files prefix parts).*1 = part_key prefix <$> seq 0 (length parts).
Proof.
  apply list_eq. intros i. unfold part_files.
  rewrite !list_lookup_fmap, list_lookup_imap.
  destruct (parts !! i) as [part|] eqn:Hi; simpl.
  - rewrite lookup_seq_lt by (by eapply lookup_lt_Some). done.
  - rewrite lookup_seq_ge; [done|]. by apply lookup_ge_None.
Qed.

Lemma part_files_NoDup prefix (parts : list dataframe) :
  NoDup (part_files prefix parts).*1.
Proof.
  rewrite part_files_keys. apply NoDup_fmap_2; [|apply NoDup_seq].
  intros a b. apply part_key_inj.
Qed.

Lemma part_files_lookup prefix (parts : list dataframe) k part :
  parts !! k = Some part →
  part_files prefix parts !! k = Some (part_key prefix k, part).
Proof. intros Hk. unfold part_files. by rewrite list_lookup_imap, Hk. Qed.

Lemma connect_ok_run env w :
  connect_ok env (connections w) = true →
  connect env w
  = (Ok tt, {| db := db w; bucket := bucket w; connections := S (connections w);
               requests := requests w; journal := journal w |}).
Proof. intros Hok. unfold connect. by rewrite Hok. Qed.

Lemma backup_db env bucket_name now table chunk_size :
  unchanged db (backup_table_to_parquet_in_minio env bucket_name now table chunk_size).
Proof.
  unfold backup_table_to_parquet_in_minio, fetch_all, put_object.
  walk fail.
Qed.

(** What a backup does once it is connected and has read the rows. *)
Lemma backup_run env bucket_name now table chunk_size rows w :
  (0 < chunk_size)%nat →
  select_all (db w) table = Some rows →
  connect_ok env (connections w) = true →
  backup_table_to_parquet_in_minio env bucket_name now table chunk_size w
  = (for_each (part_files (object_prefix now table) (chunks chunk_size rows))
       (λ file, put_object env file.1 (ParquetObject file.2));;
     mret ("s3://" +:+ bucket_name +:+ "/" +:+ object_prefix now table +:+ "/"))
      {| db := db w; bucket := bucket w; connections := S (connections w);
         requests := requests w; journal := journal w |}.
Proof.
  intros Hsize Hrows Hconn. unfold backup_table_to_parquet_in_minio.
  rewrite (bind_ok _ _ _ _ _ (connect_ok_run env w Hconn)).
  unfold fetch_all at 1. unfold mbind at 1, io_bind at 1. simpl.
  rewrite Hrows. by rewrite fetch_parts_chunks.
Qed.

(** X1. A backup that reaches the store and MinIO returns the URI
    [s3://bucket/backups/table/timestamp/] and leaves the store as it
    was. The rows are cut into ceil(N / chunk_size) parts which, put end
    to end, are the rows of the table in order; part [k] is the object
    [part-k.parquet] (the number padded to four digits) under the prefix
    of the backup, and no other key of the bucket changes. *)
Theorem backup_uploads_every_chunk env bucket_name now table chunk_size rows w :
  (0 < chunk_size)%nat →
  select_all (db w) table = Some rows →
  connect_ok env (connections w) = true →
  (∀ k, (k < length (chunks chunk_size rows))%nat →
        minio_ok env (requests w + k) = true) →
  ∃ w',
    backup_table_to_parquet_in_minio env bucket_name now table chunk_size w
    = (Ok ("s3://" +:+ bucket_name +:+ "/" +:+ object_prefix now table +:+ "/"), w')
    ∧ db w' = db w
    ∧ length (chunks chunk_size rows)
      = ((length rows + chunk_size - 1) / chunk_size)%nat
    ∧ concat (chunks chunk_size rows) = rows
    ∧ (∀ k part, chunks chunk_size rows !! k = Some part →
         object_at (bucket w') (part_key (object_prefix now table) k)
         = ParquetObject part)
    ∧ (∀ key,
         (∀ k, (k < length (chunks chunk_size rows))%nat →
               key ≠ part_key (object_prefix now table) k) →
         object_at (bucket w') key = object_at (bucket w) key).
Proof.
  intros Hsize Hrows Hconn Hminio.
  rewrite (backup_run _ _ _ _ _ rows) by done.
  set (files := part_files _ _).
  assert (length files = length (chunks chunk_size rows)) as Hlen.
  { unfold files, part_files. by rewrite length_imap. }
  erewrite bind_ok; [|apply uploads_ok; simpl; intros k Hk; apply Hminio; lia].
  eexists. split; [done|]. simpl.
  split; [done|]. split; [unfold chunks; by rewrite length_fmap, range_length|].
  split; [by apply concat_chunks|]. split.
  - intros k part Hk. eapply object_at_put_all; [apply part_files_NoDup|].
    by apply part_files_lookup.
  - intros key Hkey. apply object_at_put_all_other.
    unfold files. rewrite part_files_keys. intros (k & -> & Hk)%list_elem_of_fmap.
    apply elem_of_seq in Hk. by apply (Hkey k); [lia|].
Qed.

(** The two departments of the scenario, backed up one row per part. *)
Lemma backup_uploads_every_chunk_witness :
  ∃ w',
    backup_table_to_parquet_in_minio Scenario.env "migration" Scenario.now
      "departments" 1 (Scenario.world_of Scenario.db [])
    = (Ok "s3://migration/backups/departments/20251007T120000/", w')
    ∧ object_at (bucket w') "backups/departments/20251007T120000/part-0001.parquet"
      = ParquetObject [ {[ "id" := VInt 2; "name" := VStr (u "Finanzas") ]} ].
Proof.
  destruct (backup_uploads_every_chunk Scenario.env "migration" Scenario.now
              "departments" 1
              (reference_record <$> departments Scenario.db)
              (Scenario.world_of Scenario.db []))
    as (w' & Hrun & _ & _ & _ & Hparts & _); [lia | done | done | done |].
  exists w'. split; [exact Hrun|]. by apply (Hparts 1%nat).
Defined.

(** X2. A backup whose upload of part [k] fails raises. The store is
    untouched, and the parts before [k] stay in the bucket: nothing
    removes what an interrupted backup has uploaded. No other key
    changes. *)
Theorem backup_failure_keeps_uploaded_parts env bucket_name now table chunk_size
    rows w k :
  (0 < chunk_size)%nat →
  select_all (db w) table = Some rows →
  connect_ok env (connections w) = true →
  (k < length (chunks chunk_size rows))%nat →
  (∀ j, (j < k)%nat → minio_ok env (requests w + j) = true) →
  minio_ok env (requests w + k) = false →
  ∃ e w',
    backup_table_to_parquet_in_minio env bucket_name now table chunk_size w
    = (Raise e, w')
    ∧ db w' = db w
    ∧ (∀ j part, (j < k)%nat → chunks chunk_size rows !! j = Some part →
         object_at (bucket w') (part_key (object_prefix now table) j)
         = ParquetObject part)
    ∧ (∀ key,
         (∀ j, (j < k)%nat → key ≠ part_key (object_prefix now table) j) →
         object_at (bucket w') key = object_at (bucket w) key).
Proof.
  intros Hsize Hrows Hconn Hk Hminio Hfail.
  rewrite (backup_run _ _ _ _ _ rows) by done.
  set (files := part_files _ _).
  assert (length files = length (chunks chunk_size rows)) as Hlen.
  { unfold files, part_files. by rewrite length_imap. }
  erewrite bind_raise; [|apply (uploads_fail env files k); simpl; [lia|done..]].
  eexists _, _. split; [done|]. simpl. split; [done|]. split.
  - intros j part Hj Hpart.
    eapply (object_at_put_all _ _ j).
    + pose proof (part_files_NoDup (object_prefix now table)
                    (chunks chunk_size rows)) as Hnodup.
      fold files in Hnodup. rewrite <- (take_drop k files), fmap_app in Hnodup.
      by apply NoDup_app in Hnodup as [? _].
    + rewrite lookup_take_lt by done. by apply part_files_lookup.
  - intros key Hkey. apply object_at_put_all_other.
    rewrite fmap_take. unfold files. rewrite part_files_keys.
    intros Hin%elem_of_take. destruct Hin as (j & Hj & Hjk).
    apply list_lookup_fmap_Some in Hj as (j' & -> & Hj').
    apply lookup_seq in Hj' as [-> _]. by apply (Hkey j).
Qed.

(** The same backup with the second upload refused. *)
Lemma backup_failure_keeps_uploaded_parts_witness :
  ∃ e w',
    backup_table_to_parquet_in_minio (env_minio_refusing 1) "migration"
      Scenario.now "departments" 1 (Scenario.world_of Scenario.db [])
    = (Raise e, w')
    ∧ db w' = Scenario.db
    ∧ object_at (bucket w') "backups/departments/20251007T120000/part-0000.parquet"
      = ParquetObject [ {[ "id" := VInt 1; "name" := VStr (u "Ventas") ]} ]
    ∧ object_at (bucket w') "backups/departments/20251007T120000/part-0001.parquet"
      = Unreadable.
Proof.
  destruct (backup_failure_keeps_uploaded_parts (env_minio_refusing 1) "migration"
              Scenario.now "departments" 1
              (reference_record <$> departments Scenario.db)
              (Scenario.world_of Scenario.db []) 1)
    as (e & w' & Hrun & Hdb & Hparts & Hothers).
  - lia.
  - reflexivity.
  - reflexivity.
  - simpl. lia.
  - intros j Hj. replace j with 0%nat by lia. reflexivity.
  - reflexivity.
  - exists e, w'. split; [exact Hrun|]. split; [exact Hdb|]. split.
    + apply (Hparts 0%nat); [lia | reflexivity].
    + rewrite Hothers; [reflexivity|].
      intros j Hj. replace j with 0%nat by lia. discriminate.
Defined.

(* --------------------------------------------------------------------- *)
(** ** The restore of a snapshot, row by row *)
(* --------------------------------------------------------------------- *)

Lemma chunks_fmap {A} (f : A → record) (size : nat) (l : list A) :
  chunks size (fmap (M:=list) f l)
  = fmap (M:=list) (fmap (M:=list) f) (slices size l).
Proof.
  unfold chunks, slices, iloc. rewrite length_fmap, <- list_fmap_compose.
  apply list_fmap_ext. intros _ i _. simpl.
  rewrite fmap_take, fmap_drop. f_equal. lia.
Qed.

Lemma concat_slices_all {A} (size : nat) (l : list A) :
  (0 < size)%nat → concat (slices size l) = l.
Proof.
  intros Hsize. unfold slices, range.
  rewrite <- (drop_0 l) at 3. rewrite <- (concat_slices size l (length l) 0) by lia.
  f_equal. apply list_fmap_ext. intros _ i _. f_equal. lia.
Qed.

Lemma slices_nonempty {A} (size : nat) (l : list A) :
  (0 < size)%nat → Forall (λ piece, piece ≠ []) (slices size l).
Proof.
  intros Hsize. unfold slices, range. rewrite range_from_multiples by lia.
  rewrite <- list_fmap_compose. apply Forall_fmap, Forall_forall.
  intros j Hj%elem_of_seq. simpl. intros Hnil%(f_equal length).
  rewrite length_take, length_drop in Hnil. simpl in Hnil.
  assert (j * size < length l)%nat; [|lia].
  destruct Hj as [_ Hj]. simpl in Hj.
  replace (length l - 0 + size - 1)%nat with (length l + size - 1)%nat in Hj by lia.
  assert (j ≤ (length l + size - 1) / size - 1)%nat as Hle by lia.
  pose proof (Nat.div_mod_eq (length l + size - 1) size) as Hdm.
  pose proof (Nat.mod_upper_bound (length l + size - 1) size) as Hmod.
  nia.
Qed.

Lemma request_ok_run env w :
  minio_ok env (requests w) = true →
  request env w
  = (Ok tt, {| db := db w; bucket := bucket w; connections := connections w;
               requests := S (requests w); journal := journal w |}).
Proof. intros Hok. unfold request. by rewrite Hok. Qed.

Lemma get_object_run env key w :
  minio_ok env (requests w) = true →
  get_object env key w
  = (Ok (object_at (bucket w) key),
     {| db := db w; bucket := bucket w; connections := connections w;
        requests := S (requests w); journal := journal w |}).
Proof.
  intros Hok. unfold get_object, request, get_bucket, mbind, io_bind.
  by rewrite Hok.
Qed.

Lemma list_objects_run env prefix w :
  minio_ok env (requests w) = true →
  list_objects env prefix w
  = (Ok (listing (bucket w) prefix),
     {| db := db w; bucket := bucket w; connections := connections w;
        requests := S (requests w); journal := journal w |}).
Proof.
  intros Hok. unfold list_objects, request, get_bucket, mbind, io_bind.
  by rewrite Hok.
Qed.

Lemma truncate_run env table w d0 :
  connect_ok env (connections w) = true →
  Sql.truncate (db w) table = Some d0 →
  _truncate_table_before_load env table w
  = (Ok tt, {| db := d0; bucket := bucket w; connections := S (connections w);
               requests := requests w;
               journal := journal w ++ [TruncateDone table] |}).
Proof.
  intros Hconn Htruncate.
  unfold _truncate_table_before_load, truncate_statement, try, connect, execute,
    log, mbind, io_bind.
  rewrite Hconn. simpl. by rewrite Htruncate.
Qed.

(** The restore of the rows of one table, whichever it is: [rec] is the
    record a row is read back as, [get] and [set] its table in the
    store, and [fits d rows] what lets a COPY of [rows] into that table
    of [d] through. *)
Section RestoreRows.

Context {X : Type} (rt : runtime) (env : environment) (table : string).

Context (rec : X → record) (get : store → list X) (set : store → list X → store).

Context (fits : store → list X → Prop).

Hypothesis connected : ∀ n, connect_ok env n = true.

Hypothesis reachable : ∀ n, minio_ok env n = true.

Hypothesis get_set : ∀ d rows, get (set d rows) = rows.

Hypothesis set_get : ∀ d, set d (get d) = d.

Hypothesis set_set : ∀ d rows rows', set (set d rows) rows' = set d rows'.

Hypothesis fits_app : ∀ d rows rows',
  fits d (rows ++ rows') → fits d rows ∧ fits (set d (get d ++ rows)) rows'.

Hypothesis has_id : ∀ rows, rows ≠ [] → has_column (rec <$> rows) "id" = true.

Hypothesis copy : ∀ d rows,
  rows ≠ [] → fits d rows →
  restore_batch rt table true d (rec <$> rows) = Some (set d (get d ++ rows)).

Lemma restore_batches_rows (pieces : list (list X)) : ∀ d n,
  Forall (λ piece, piece ≠ []) pieces → fits d (concat pieces) →
  restore_batches rt table true d (fmap (M:=list) (fmap (M:=list) rec) pieces) n
  = Some (set d (get d ++ concat pieces), (n + length (concat pieces))%nat).
Proof.
  induction pieces as [|piece pieces IH]; intros d n Hne Hfits; simpl.
  - by rewrite app_nil_r, Nat.add_0_r, set_get.
  - apply Forall_cons in Hne as [Hpiece Hne].
    apply fits_app in Hfits as [Hfits1 Hfits2].
    rewrite copy by done. simpl. rewrite IH by done.
    by rewrite get_set, set_set, <- app_assoc, length_app, length_fmap, Nat.add_assoc.
Qed.

(** A frame of rows read back from a snapshot is restored whole, on one
    connection. *)
Lemma restore_dataframe_rows (rows : list X) (chunk_size : nat) w :
  (0 < chunk_size)%nat → rows ≠ [] → fits (db w) rows →
  ∃ w',
    _restore_dataframe_to_postgres rt env (rec <$> rows) table chunk_size w
    = (Ok (length rows), w')
    ∧ db w' = set (db w) (get (db w) ++ rows)
    ∧ bucket w' = bucket w.
Proof.
  intros Hsize Hrows Hfits. unfold _restore_dataframe_to_postgres, try.
  rewrite (bind_ok _ _ _ _ _ (connect_ok_run env w (connected _))).
  rewrite bool_decide_eq_false_2 by lia.
  unfold transaction. simpl. rewrite has_id by done.
  fold (chunks chunk_size (rec <$> rows)).
  rewrite chunks_fmap, restore_batches_rows;
    [|by apply slices_nonempty | by rewrite concat_slices_all].
  rewrite concat_slices_all by done. simpl.
  eexists. split; [done|]. by simpl.
Qed.

(** The loop over the partitions of a snapshot restores them one after
    the other. *)
Lemma restore_files_rows (chunk_size : nat) (files : list (string * list X)) :
  ∀ total w,
    (0 < chunk_size)%nat →
    Forall (λ file, file.2 ≠ []) files →
    (∀ key piece, (key, piece) ∈ files →
       object_at (bucket w) key = ParquetObject (rec <$> piece)) →
    fits (db w) (concat files.*2) →
    ∃ w',
      restore_files rt env table chunk_size files.*1 total w
      = (Ok (total + length (concat files.*2))%nat, w')
      ∧ db w' = set (db w) (get (db w) ++ concat files.*2)
      ∧ bucket w' = bucket w.
Proof.
  induction files as [|[key piece] files IH]; intros total w Hsize Hne Hobj Hfits.
  - eexists. split; [simpl; by rewrite Nat.add_0_r|].
    simpl. by rewrite app_nil_r, set_get.
  - rewrite !fmap_cons. cbn [restore_files concat fst snd] in *.
    apply Forall_cons in Hne as [Hpiece Hne]. cbn [snd] in Hpiece.
    apply fits_app in Hfits as [Hfits1 Hfits2].
    rewrite (bind_ok _ _ _ _ _ (get_object_run env key w (reachable _))).
    rewrite (Hobj key piece) by apply list_elem_of_here.
    rewrite bool_decide_eq_false_2.
    2:{ intros Hnil%(f_equal length). rewrite length_fmap in Hnil.
        by destruct piece. }
    set (w0 := {| db := db w; bucket := bucket w; connections := connections w;
                  requests := S (requests w); journal := journal w |}).
    destruct (restore_dataframe_rows piece chunk_size w0 Hsize Hpiece Hfits1)
      as (w1 & Hrun & Hdb & Hb).
    cbn [db bucket w0] in Hdb, Hb.
    rewrite (bind_ok _ _ _ _ _ Hrun).
    rewrite (bind_ok _ _ w1 tt (log (RestoredFile key (length piece)) w1).2)
      by done.
    destruct (IH (total + length piece)%nat
                (log (RestoredFile key (length piece)) w1).2)
      as (w2 & Hrest & Hdb2 & Hb2); [done | done | | |].
    + intros key' piece' Hin. cbn [log snd bucket]. rewrite Hb.
      apply Hobj. by apply list_elem_of_further.
    + cbn [log snd db]. by rewrite Hdb.
    + exists w2. rewrite Hrest. cbn [log snd db bucket] in Hdb2, Hb2.
      rewrite Hdb2, Hb2, Hdb, Hb, get_set, set_set, <- app_assoc, length_app.
      by rewrite Nat.add_assoc.
Qed.

(** The restore of a snapshot whose partitions hold the rows [files]
    pairs with their keys. *)
Lemma restore_snapshot_rows path (chunk_size : nat)
    (files : list (string * list X)) w d0 :
  (0 < chunk_size)%nat →
  Sql.truncate (db w) table = Some d0 →
  files ≠ [] →
  parquet_files (listing (bucket w) (backup_prefix path)) = files.*1 →
  Forall (λ file, file.2 ≠ []) files →
  (∀ key piece, (key, piece) ∈ files →
     object_at (bucket w) key = ParquetObject (rec <$> piece)) →
  fits d0 (concat files.*2) →
  ∃ w',
    restore_table_from_parquet_in_minio rt env table (Some path) chunk_size w
    = (Ok true, w')
    ∧ db w' = set d0 (get d0 ++ concat files.*2).
Proof.
  intros Hsize Htruncate Hfiles Hkeys Hne Hobj Hfits.
  unfold restore_table_from_parquet_in_minio, try. simpl.
  rewrite (bind_ok _ _ _ _ _ (truncate_run env table w d0 (connected _) Htruncate)).
  set (w0 := {| db := d0; bucket := bucket w; connections := S (connections w);
                requests := requests w;
                journal := journal w ++ [TruncateDone table] |}).
  unfold restore_from.
  rewrite (bind_ok _ _ _ _ _ (list_objects_run env _ w0 (reachable _))).
  cbn [bucket w0]. rewrite bool_decide_eq_false_2.
  2:{ intros Hnone. unfold parquet_files in Hkeys. rewrite Hnone in Hkeys.
      by destruct files. }
  rewrite Hkeys.
  set (w1 := {| db := d0; bucket := bucket w; connections := S (connections w);
                requests := S (requests w);
                journal := journal w ++ [TruncateDone table] |}).
  destruct (restore_files_rows chunk_size files 0%nat w1)
    as (w2 & Hrun & Hdb & _); [done..|].
  rewrite (bind_ok _ _ _ _ _ Hrun). simpl.
  eexists. split; [done|]. simpl. exact Hdb.
Qed.

End RestoreRows.

(* --------------------------------------------------------------------- *)
(** ** Part keys in the order of a listing *)
(* --------------------------------------------------------------------- *)

Lemma ascii_compare_refl c : Ascii.compare c c = Eq.
Proof. unfold Ascii.compare. apply N.compare_refl. Qed.

Lemma compare_app_l (p a b : string) :
  String.compare (p +:+ a) (p +:+ b) = String.compare a b.
Proof.
  induction p as [|c p IH]; [done|].
  rewrite !app_cons. simpl. by rewrite ascii_compare_refl.
Qed.

Lemma compare_refl (s : string) : String.compare s s = Eq.
Proof. induction s as [|c s IH]; [done|]. simpl. by rewrite ascii_compare_refl. Qed.

Lemma compare_app_r (a b s : string) :
  String.length a = String.length b →
  String.compare (a +:+ s) (b +:+ s) = String.compare a b.
Proof.
  revert b. induction a as [|c a IH]; intros [|c' b] Hlen; try done.
  - apply compare_refl.
  - injection Hlen as Hlen. rewrite !app_cons. simpl. by rewrite IH.
Qed.

Lemma ascending_pads_999 : ascending_pads 999 = true.
Proof. vm_compute. reflexivity. Qed.

Lemma part_key_le prefix k :
  (k < 999)%nat → String.le (part_key prefix k) (part_key prefix (S k)).
Proof.
  intros Hk. pose proof ascending_pads_999 as Hpads.
  unfold ascending_pads in Hpads. rewrite forallb_forall in Hpads.
  specialize (Hpads k). rewrite !andb_true_iff, !Nat.eqb_eq in Hpads.
  destruct Hpads as [[Hl1 Hl2] Hle]; [apply in_seq; lia|].
  unfold String.le, String.leb, part_key.
  rewrite !compare_app_l, compare_app_r by congruence.
  unfold String.leb in Hle. by destruct (String.compare _ _).
Qed.

Lemma part_keys_sorted prefix : ∀ n start,
  (start + n ≤ 1000)%nat → Sorted String.le (part_key prefix <$> seq start n).
Proof.
  induction n as [|n IH]; intros start Hn; simpl; [constructor|].
  constructor; [apply IH; lia|].
  destruct n as [|n]; simpl; constructor. apply part_key_le. lia.
Qed.

Lemma merge_sort_sorted (keys keys' : list string) :
  Sorted String.le keys → keys' ≡ₚ keys → merge_sort String.le keys' = keys.
Proof.
  intros Hsorted Hperm. apply (Sorted_unique String.le); [|done|].
  - apply (Sorted_merge_sort String.le).
  - by rewrite merge_sort_Permutation.
Qed.

Lemma string_rev_app_app (a b c : string) :
  String.rev_app (a +:+ b) c = String.rev_app b (String.rev_app a c).
Proof.
  revert c. induction a as [|x a IH]; intros c; [done|].
  rewrite app_cons. simpl. apply IH.
Qed.

Lemma string_rev_app_prefix (a b : string) :
  String.rev_app a b = String.rev_app a "" +:+ b.
Proof.
  revert b. induction a as [|x a IH]; intros b; [done|].
  simpl. rewrite IH, (IH (String x "")). by rewrite append_assoc.
Qed.

Lemma ends_with_app (s suffix : string) : ends_with suffix (s +:+ suffix) = true.
Proof.
  unfold ends_with, String.rev. rewrite string_rev_app_app.
  rewrite (string_rev_app_prefix suffix (String.rev_app s "")).
  apply prefix_app.
Qed.

Lemma substring_all (s : string) : String.substring 0 (String.length s) s = s.
Proof. induction s as [|c s IH]; [done|]. simpl. by rewrite IH. Qed.

Lemma substring_app (a r : string) :
  String.substring (String.length a) (String.length r) (a +:+ r) = r.
Proof.
  induction a as [|c a IH]; [apply substring_all|].
  rewrite app_cons. simpl. apply IH.
Qed.

Lemma index_slash (b p : string) :
  no_slash b = true →
  String.index 0 "/" (b +:+ "/" +:+ p) = Some (String.length b).
Proof.
  induction b as [|c b IH]; intros Hb.
  - rewrite app_empty_l. change ("/" +:+ p) with (String "/" p).
    cbn [String.index String.prefix String.length].
    destruct (ascii_dec "/" "/"); [by destruct p | done].
  - simpl in Hb. apply andb_true_iff in Hb as [Hc Hb].
    rewrite app_cons. cbn [String.index String.prefix String.length].
    destruct (ascii_dec "/" c) as [<-|_]; [done|].
    by rewrite IH.
Qed.

Lemma backup_prefix_uri (bucket_name prefix : string) :
  no_slash bucket_name = true →
  backup_prefix ("s3://" +:+ bucket_name +:+ "/" +:+ prefix) = prefix.
Proof.
  intros Hb. unfold backup_prefix. rewrite prefix_app.
  change ("s3://" +:+ bucket_name +:+ "/" +:+ prefix)
    with (String "s" (String "3" (String ":" (String "/" (String "/"
            (bucket_name +:+ "/" +:+ prefix)))))).
  cbn [String.length String.substring Nat.sub].
  rewrite Nat.sub_0_r, substring_all, index_slash by done.
  rewrite (string_length_app bucket_name).
  change ("/" +:+ prefix) with (String "/" prefix) at 1. cbn [String.length].
  replace (String.length bucket_name + S (String.length prefix)
           - S (String.length bucket_name))%nat
    with (String.length prefix) by lia.
  replace (S (String.length bucket_name))
    with (String.length (bucket_name +:+ "/")).
  2:{ rewrite string_length_app. simpl. lia. }
  rewrite <- (append_assoc bucket_name "/" prefix). apply substring_app.
Qed.

(* --------------------------------------------------------------------- *)
(** ** A backup followed by its restore *)
(* --------------------------------------------------------------------- *)

Lemma reference_rows_ok_app existing rows rows' :
  Sql.reference_rows_ok existing (rows ++ rows') = true →
  Sql.reference_rows_ok existing rows = true
  ∧ Sql.reference_rows_ok (existing ++ rows) rows' = true.
Proof.
  unfold Sql.reference_rows_ok.
  rewrite !andb_true_iff, !bool_decide_eq_true, forallb_app, andb_true_iff.
  intros [Hnodup [Hrows Hrows']]. rewrite app_assoc in Hnodup.
  split; (split; [|done]); [|done].
  rewrite fmap_app in Hnodup. by apply NoDup_app in Hnodup as [? _].
Qed.

Lemma reference_record_id row : reference_record row !!! "id" = VInt (r_id row).
Proof. unfold reference_record. by rewrite lookup_total_insert_eq. Qed.

Lemma reference_record_name row : reference_record row !!! "name" = VStr (r_name row).
Proof.
  unfold reference_record. rewrite lookup_total_insert_ne by done.
  by rewrite lookup_total_singleton.
Qed.

Lemma mapM_reference_record rt (rows : list ref_row) :
  mapM (reference_row rt) (reference_record <$> rows) = Some rows.
Proof.
  apply mapM_Some. induction rows as [|row rows IH]; constructor; [|done].
  unfold reference_row. rewrite reference_record_id, reference_record_name.
  simpl. by destruct row.
Qed.

Lemma has_id_reference (rows : list ref_row) :
  rows ≠ [] → has_column (reference_record <$> rows) "id" = true.
Proof.
  destruct rows as [|row rows]; [done|]. intros _. simpl.
  unfold reference_record. rewrite lookup_insert_eq. done.
Qed.

Lemma employee_record_lookup row :
  employee_record row !!! "id" = VInt (e_id row)
  ∧ employee_record row !!! "name" = VStr (e_name row)
  ∧ employee_record row !!! "datetime" = VTimestamp (e_datetime row)
  ∧ employee_record row !!! "department_id" = VInt (e_department_id row)
  ∧ employee_record row !!! "job_id" = VInt (e_job_id row).
Proof.
  unfold employee_record.
  repeat split;
    repeat first [ rewrite lookup_total_insert_eq; done
                 | rewrite lookup_total_insert_ne by done
                 | rewrite lookup_total_singleton; done ].
Qed.

Lemma mapM_employee_record rt (rows : list emp_row) :
  mapM (restored_employee rt true) (employee_record <$> rows)
  = Some (employee_input <$> rows).
Proof.
  apply mapM_Some. induction rows as [|row rows IH]; constructor; [|done].
  unfold restored_employee.
  destruct (employee_record_lookup row) as (-> & -> & -> & -> & ->).
  done.
Qed.

Lemma has_id_employee (rows : list emp_row) :
  rows ≠ [] → has_column (employee_record <$> rows) "id" = true.
Proof.
  destruct rows as [|row rows]; [done|]. intros _. simpl.
  unfold employee_record. rewrite lookup_insert_eq. done.
Qed.

Lemma copy_employee_rows d (rows : list emp_row) :
  employees_fit d rows →
  Sql.copy_employees d (employee_input <$> rows)
  = Some (set_hired_employees d (hired_employees d ++ rows)).
Proof.
  intros [Hnodup Hok]. unfold Sql.copy_employees.
  rewrite assign_ids_explicit.
  2:{ apply Forall_fmap, Forall_forall. intros row _. by eexists. }
  rewrite <- list_fmap_compose.
  replace ((λ x, Sql.with_id (default 0 (Sql.i_id x)) x) ∘ employee_input <$> rows)
    with rows.
  2:{ rewrite <- (list_fmap_id rows) at 1. apply list_fmap_ext.
      intros _ row _. by destruct row. }
  by rewrite bool_decide_eq_true_2, Hok.
Qed.

Lemma filter_none {A} (P : A → Prop) `{∀ x, Decision (P x)} (l : list A) :
  Forall (λ x, ¬ P x) l → filter P l = [].
Proof.
  induction 1 as [|x l Hx _ IH]; [done|].
  by rewrite filter_cons_False, IH.
Qed.

Lemma part_key_prefix prefix k :
  String.prefix (prefix +:+ "/") (part_key prefix k) = true.
Proof.
  unfold part_key. change "/part-" with ("/" +:+ "part-").
  rewrite append_assoc, <- (append_assoc prefix "/"). apply prefix_app.
Qed.

Lemma part_key_parquet prefix k : ends_with ".parquet" (part_key prefix k) = true.
Proof.
  unfold part_key. rewrite <- !append_assoc. apply ends_with_app.
Qed.

Lemma ceil_div_bound (n size : nat) :
  (0 < size)%nat → (n ≤ 1000 * size)%nat → ((n + size - 1) / size ≤ 1000)%nat.
Proof.
  intros Hsize Hn. apply Nat.lt_succ_r, Nat.Div0.div_lt_upper_bound. lia.
Qed.

(** A backup of the rows of one table followed by the restore of the
    snapshot it has written. *)
Section RoundTrip.

Context {X : Type} (rt : runtime) (env : environment) (table : string).

Context (rec : X → record) (get : store → list X) (set : store → list X → store).

Context (fits : store → list X → Prop).

Hypothesis connected : ∀ n, connect_ok env n = true.

Hypothesis reachable : ∀ n, minio_ok env n = true.

Hypothesis get_set : ∀ d rows, get (set d rows) = rows.

Hypothesis set_get : ∀ d, set d (get d) = d.

Hypothesis set_set : ∀ d rows rows', set (set d rows) rows' = set d rows'.

Hypothesis fits_app : ∀ d rows rows',
  fits d (rows ++ rows') → fits d rows ∧ fits (set d (get d ++ rows)) rows'.

Hypothesis has_id : ∀ rows, rows ≠ [] → has_column (rec <$> rows) "id" = true.

Hypothesis copy : ∀ d rows,
  rows ≠ [] → fits d rows →
  restore_batch rt table true d (rec <$> rows) = Some (set d (get d ++ rows)).

Hypothesis select : ∀ d, select_all d table = Some (rec <$> get d).

Lemma round_trip_rows bucket_name now (chunk_size restore_chunk : nat) w d0 :
  (0 < chunk_size)%nat → (0 < restore_chunk)%nat →
  no_slash bucket_name = true →
  get (db w) ≠ [] →
  (length (get (db w)) ≤ 1000 * chunk_size)%nat →
  (∀ key, key ∈ (bucket w).*1 →
          String.prefix (object_prefix now table +:+ "/") key = false) →
  Sql.truncate (db w) table = Some d0 →
  fits d0 (get (db w)) →
  ∃ w1 w2,
    backup_table_to_parquet_in_minio env bucket_name now table chunk_size w
    = (Ok ("s3://" +:+ bucket_name +:+ "/" +:+ object_prefix now table +:+ "/"), w1)
    ∧ restore_table_from_parquet_in_minio rt env table
        (Some ("s3://" +:+ bucket_name +:+ "/" +:+ object_prefix now table +:+ "/"))
        restore_chunk w1
      = (Ok true, w2)
    ∧ db w2 = set d0 (get d0 ++ get (db w)).
Proof.
  intros Hsize Hrsize Hbucket Hrows Hlimit Hfresh Htruncate Hfits.
  rewrite (backup_run _ _ _ _ _ (rec <$> get (db w))) by done.
  set (prefix := object_prefix now table).
  set (parts := chunks chunk_size (rec <$> get (db w))).
  set (pieces := slices chunk_size (get (db w))).
  set (files := imap (λ k piece, (part_key prefix k, piece)) pieces).
  assert (parts = fmap (M:=list) (fmap (M:=list) rec) pieces) as Hparts
    by apply chunks_fmap.
  assert (length pieces ≤ 1000)%nat as Hcount.
  { unfold pieces, slices. rewrite length_fmap, range_length by done.
    by apply ceil_div_bound. }
  assert (files.*1 = part_key prefix <$> seq 0 (length pieces)) as Hkeys.
  { apply list_eq. intros i. unfold files.
    rewrite !list_lookup_fmap, list_lookup_imap.
    destruct (pieces !! i) as [piece|] eqn:Hi; simpl.
    - by rewrite lookup_seq_lt by (by eapply lookup_lt_Some).
    - rewrite lookup_seq_ge; [done|]. by apply lookup_ge_None. }
  assert (files.*2 = pieces) as Hpieces.
  { apply list_eq. intros i. unfold files.
    rewrite !list_lookup_fmap, list_lookup_imap.
    by destruct (pieces !! i). }
  assert (part_files prefix parts
          = (λ file : string * list X, (file.1, fmap (M:=list) rec file.2))
              <$> files)
    as Hfiles.
  { apply list_eq. intros i. unfold part_files, files.
    rewrite Hparts, list_lookup_fmap, !list_lookup_imap, list_lookup_fmap.
    by destruct (pieces !! i). }
  assert ((part_files prefix parts).*1 = files.*1) as Hkeys'.
  { rewrite Hfiles, <- list_fmap_compose. done. }
  erewrite bind_ok; [|apply uploads_ok; intros; apply reachable].
  set (w1 := uploaded _ _ _).
  assert (bucket w1 = reverse (parquet_entry <$> part_files prefix parts) ++ bucket w)
    as Hbucket1.
  { unfold w1, uploaded. cbn [bucket]. apply put_all_fresh.
    - rewrite Hkeys', Hkeys. apply NoDup_fmap_2; [|apply NoDup_seq].
      intros a b. apply part_key_inj.
    - intros key. rewrite Hkeys', Hkeys.
      intros (k & -> & _)%list_elem_of_fmap Hin.
      apply Hfresh in Hin. by rewrite part_key_prefix in Hin. }
  destruct (restore_snapshot_rows rt env table rec get set fits connected
              reachable get_set set_get set_set fits_app has_id copy
              ("s3://" +:+ bucket_name +:+ "/" +:+ prefix +:+ "/")
              restore_chunk files w1 d0) as (w2 & Hrun & Hdb); [done|done|..].
  - intros Hnil. unfold files in Hnil. apply (f_equal length) in Hnil.
    rewrite length_imap in Hnil. unfold pieces, slices in Hnil.
    rewrite length_fmap, range_length in Hnil by done. simpl in Hnil.
    assert (length (get (db w)) ≠ 0)%nat as Hlen by (by destruct (get (db w))).
    assert (1 ≤ (length (get (db w)) + chunk_size - 1) / chunk_size)%nat; [|lia].
    apply Nat.div_le_lower_bound; lia.
  - rewrite backup_prefix_uri by done. rewrite Hbucket1.
    unfold parquet_files, listing. rewrite fmap_app, fmap_reverse, filter_app.
    rewrite <- list_fmap_compose.
    replace ((fst ∘ parquet_entry) <$> part_files prefix parts)
      with ((part_files prefix parts).*1) by done.
    rewrite Hkeys', Hkeys.
    rewrite (filter_id _ (reverse _)).
    2:{ apply Forall_reverse, Forall_fmap, Forall_forall. intros k _.
        apply part_key_prefix. }
    rewrite (filter_none _ (bucket w).*1).
    2:{ apply Forall_forall. intros key Hin Htrue.
        pose proof (Hfresh key Hin) as Hfalse. unfold prefix in Htrue.
        congruence. }
    rewrite app_nil_r, filter_id.
    2:{ apply Forall_reverse, Forall_fmap, Forall_forall. intros k _.
        apply part_key_parquet. }
    apply merge_sort_sorted; [by apply part_keys_sorted | apply reverse_Permutation].
  - apply (Forall_fmap snd (λ piece : list X, piece ≠ [])).
    rewrite Hpieces. by apply slices_nonempty.
  - intros key piece Hin. apply list_elem_of_lookup in Hin as [k Hk].
    unfold w1, uploaded. cbn [bucket].
    eapply (object_at_put_all _ _ k).
    + rewrite Hkeys', Hkeys. apply NoDup_fmap_2; [|apply NoDup_seq].
      intros a b. apply part_key_inj.
    + rewrite Hfiles, list_lookup_fmap, Hk. done.
  - rewrite Hpieces. unfold pieces. by rewrite concat_slices_all.
  - exists w1, w2. split; [done|]. split; [exact Hrun|].
    rewrite Hdb, Hpieces. unfold pieces. by rewrite concat_slices_all.
Qed.

End RoundTrip.

Lemma restore_batch_departments rt d (rows : list ref_row) :
  rows ≠ [] → Sql.reference_rows_ok (departments d) rows = true →
  restore_batch rt "departments" true d (reference_record <$> rows)
  = Some (set_departments d (departments d ++ rows)).
Proof.
  intros _ Hok. unfold restore_batch. simpl.
  rewrite mapM_reference_record. simpl. unfold Sql.copy_departments.
  by rewrite Hok.
Qed.

Lemma restore_batch_jobs rt d (rows : list ref_row) :
  rows ≠ [] → Sql.reference_rows_ok (jobs d) rows = true →
  restore_batch rt "jobs" true d (reference_record <$> rows)
  = Some (set_jobs d (jobs d ++ rows)).
Proof.
  intros _ Hok. unfold restore_batch. simpl.
  rewrite mapM_reference_record. simpl. unfold Sql.copy_jobs.
  by rewrite Hok.
Qed.

Lemma restore_batch_employees rt d (rows : list emp_row) :
  rows ≠ [] → employees_fit d rows →
  restore_batch rt "hired_employees" true d (employee_record <$> rows)
  = Some (set_hired_employees d (hired_employees d ++ rows)).
Proof.
  intros Hrows Hfit. unfold restore_batch. simpl.
  destruct rows as [|row rows]; [done|].
  rewrite fmap_cons. cbn [existsb].
  destruct (employee_record_lookup row) as (-> & _).
  change (notna (VInt (e_id row))) with true. cbn [orb].
  rewrite <- fmap_cons, mapM_employee_record.
  by apply (copy_employee_rows d (row :: rows)).
Qed.

Lemma employees_fit_app d rows rows' :
  employees_fit d (rows ++ rows') →
  employees_fit d rows
  ∧ employees_fit (set_hired_employees d (hired_employees d ++ rows)) rows'.
Proof.
  unfold employees_fit. rewrite forallb_app, andb_true_iff. simpl.
  intros [Hnodup [Hrows Hrows']]. rewrite app_assoc in Hnodup.
  split; (split; [|done]); [|done].
  rewrite fmap_app in Hnodup. by apply NoDup_app in Hnodup as [? _].
Qed.

(** X3. Round trip. In a store that satisfies its constraints, with
    everything in reach, the backup of a table that has rows followed by
    the restore from the URI the backup returned brings back the rows of
    the table, in order. Restoring [hired_employees] leaves [departments]
    and [jobs] as they were; restoring [departments] or [jobs] leaves the
    other of the two as it was and [hired_employees] empty, because the
    truncation cascades. The snapshot has to fit one listing, which
    returns a thousand keys at most, the prefix of the backup has to be
    fresh in the bucket, and the rows have to be ones the text of a COPY
    carries unchanged. *)
Theorem backup_then_restore rt env bucket_name now table
    (chunk_size restore_chunk : nat) w :
  table ∈ RestoreCommand.valid_tables →
  (0 < chunk_size)%nat → (0 < restore_chunk)%nat →
  (∀ n, connect_ok env n = true) → (∀ n, minio_ok env n = true) →
  no_slash bucket_name = true →
  constraints_hold (db w) = true →
  snapshot_safe (db w) table = true →
  table_rows (db w) table ≠ [] →
  (length (table_rows (db w) table) ≤ 1000 * chunk_size)%nat →
  (∀ key, key ∈ (bucket w).*1 →
          String.prefix (object_prefix now table +:+ "/") key = false) →
  ∃ uri w1 w2,
    backup_table_to_parquet_in_minio env bucket_name now table chunk_size w
    = (Ok uri, w1)
    ∧ restore_table_from_parquet_in_minio rt env table (Some uri) restore_chunk w1
      = (Ok true, w2)
    ∧ table_rows (db w2) table = table_rows (db w) table
    ∧ (table = "hired_employees" →
       departments (db w2) = departments (db w) ∧ jobs (db w2) = jobs (db w))
    ∧ (table = "departments" →
       jobs (db w2) = jobs (db w) ∧ hired_employees (db w2) = [])
    ∧ (table = "jobs" →
       departments (db w2) = departments (db w) ∧ hired_employees (db w2) = []).
Proof.
  intros Htable Hsize Hrsize Hconn Hminio Hbucket Hstore _ Hrows Hlimit Hfresh.
  unfold constraints_hold in Hstore.
  rewrite !andb_true_iff, bool_decide_eq_true in Hstore.
  destruct Hstore as [[[Hdeps Hjobs] Hids] Hemps].
  unfold RestoreCommand.valid_tables in Htable.
  apply elem_of_cons in Htable as [->|Htable];
    [|apply elem_of_cons in Htable as [->|Htable];
      [|apply list_elem_of_singleton in Htable as ->]].
  - unfold table_rows in Hrows, Hlimit. simpl in Hrows, Hlimit.
    rewrite length_fmap in Hlimit.
    edestruct (round_trip_rows rt env "hired_employees" employee_record
                 hired_employees set_hired_employees employees_fit Hconn Hminio)
      as (w1 & w2 & Hbackup & Hrestore & Hdb);
      [done | by intros [] | done | apply employees_fit_app | apply has_id_employee
      | apply restore_batch_employees | done | exact Hsize | exact Hrsize
      | exact Hbucket | by intros Hnil; rewrite Hnil in Hrows | exact Hlimit
      | exact Hfresh | done | by split |].
    eexists _, w1, w2. split; [exact Hbackup|]. split; [exact Hrestore|].
    rewrite Hdb. unfold table_rows. simpl. by repeat split.
  - unfold table_rows in Hrows, Hlimit. simpl in Hrows, Hlimit.
    rewrite length_fmap in Hlimit.
    edestruct (round_trip_rows rt env "departments" reference_record
                 departments set_departments
                 (λ d rows, Sql.reference_rows_ok (departments d) rows = true)
                 Hconn Hminio)
      as (w1 & w2 & Hbackup & Hrestore & Hdb);
      [done | by intros [] | done
      | intros d rows rows'; apply reference_rows_ok_app
      | apply has_id_reference
      | apply restore_batch_departments | done | exact Hsize | exact Hrsize
      | exact Hbucket | by intros Hnil; rewrite Hnil in Hrows | exact Hlimit
      | exact Hfresh | done | done |].
    eexists _, w1, w2. split; [exact Hbackup|]. split; [exact Hrestore|].
    rewrite Hdb. unfold table_rows. simpl. by repeat split.
  - unfold table_rows in Hrows, Hlimit. simpl in Hrows, Hlimit.
    rewrite length_fmap in Hlimit.
    edestruct (round_trip_rows rt env "jobs" reference_record
                 jobs set_jobs
                 (λ d rows, Sql.reference_rows_ok (jobs d) rows = true)
                 Hconn Hminio)
      as (w1 & w2 & Hbackup & Hrestore & Hdb);
      [done | by intros [] | done
      | intros d rows rows'; apply reference_rows_ok_app
      | apply has_id_reference
      | apply restore_batch_jobs | done | exact Hsize | exact Hrsize
      | exact Hbucket | by intros Hnil; rewrite Hnil in Hrows | exact Hlimit
      | exact Hfresh | done | done |].
    eexists _, w1, w2. split; [exact Hbackup|]. split; [exact Hrestore|].
    rewrite Hdb. unfold table_rows. simpl. by repeat split.
Qed.

(** The employees of the scenario, backed up and restored. *)
Lemma backup_then_restore_witness :
  let w := Scenario.world_of Scenario.db [] in
  ∃ uri w1 w2,
    backup_table_to_parquet_in_minio Scenario.env "migration" Scenario.now
      "hired_employees" 1 w = (Ok uri, w1)
    ∧ restore_table_from_parquet_in_minio Scenario.rt Scenario.env
        "hired_employees" (Some uri) 1 w1 = (Ok true, w2)
    ∧ table_rows (db w2) "hired_employees"
      = table_rows Scenario.db "hired_employees"
    ∧ departments (db w2) = departments Scenario.db
    ∧ jobs (db w2) = jobs Scenario.db.
Proof.
  destruct (backup_then_restore Scenario.rt Scenario.env "migration" Scenario.now
              "hired_employees" 1 1 (Scenario.world_of Scenario.db []))
    as (uri & w1 & w2 & Hbackup & Hrestore & Hrows & Hemployees & _).
  - apply list_elem_of_here.
  - lia.
  - lia.
  - reflexivity.
  - reflexivity.
  - reflexivity.
  - vm_compute. reflexivity.
  - vm_compute. reflexivity.
  - discriminate.
  - simpl. lia.
  - intros key Hkey. simpl in Hkey. by apply elem_of_nil in Hkey.
  - exists uri, w1, w2. split; [exact Hbackup|]. split; [exact Hrestore|].
    split; [exact Hrows | by apply Hemployees].
Defined.

(* --------------------------------------------------------------------- *)
(** ** The backup of an empty table, and the two commands *)
(* --------------------------------------------------------------------- *)

Lemma select_all_known d table :
  table ∈ RestoreCommand.valid_tables → is_Some (select_all d table).
Proof.
  unfold RestoreCommand.valid_tables. intros Htable.
  apply elem_of_cons in Htable as [->|Htable];
    [|apply elem_of_cons in Htable as [->|Htable];
      [|apply list_elem_of_singleton in Htable as ->]]; by eexists.
Qed.

Lemma select_all_rows d table rows :
  select_all d table = Some rows → length rows = length (table_rows d table).
Proof.
  unfold select_all, table_rows.
  repeat case_match; try done; intros [= <-]; by rewrite !length_fmap.
Qed.

(** X4. The backup of an empty table succeeds without uploading
    anything: the fetch loop ends at its first turn. The URI it returns
    names a prefix with no object under it, so the restore from that
    URI finds no Parquet file and returns False. *)
Theorem empty_backup_cannot_be_restored rt env bucket_name now table
    (chunk_size restore_chunk : nat) w :
  table ∈ RestoreCommand.valid_tables →
  table_rows (db w) table = [] →
  connect_ok env (connections w) = true →
  no_slash bucket_name = true →
  (∀ key, key ∈ (bucket w).*1 →
          String.prefix (object_prefix now table +:+ "/") key = false) →
  ∃ uri w1 w2,
    backup_table_to_parquet_in_minio env bucket_name now table chunk_size w
    = (Ok uri, w1)
    ∧ bucket w1 = bucket w
    ∧ restore_table_from_parquet_in_minio rt env table (Some uri) restore_chunk w1
      = (Ok false, w2).
Proof.
  intros Htable Hempty Hconn Hbucket Hfresh.
  destruct (select_all_known (db w) table Htable) as [rows Hrows].
  assert (rows = []) as ->.
  { apply select_all_rows in Hrows. rewrite Hempty in Hrows. by destruct rows. }
  unfold backup_table_to_parquet_in_minio.
  rewrite (bind_ok _ _ _ _ _ (connect_ok_run env w Hconn)).
  unfold fetch_all at 1. unfold mbind at 1, io_bind at 1. cbn [db].
  rewrite Hrows. cbn [length fetch_parts part_files imap for_each].
  set (w1 := {| db := db w; bucket := bucket w; connections := S (connections w);
                requests := requests w; journal := journal w |}).
  eexists _, w1. 
  assert (∃ w2, restore_table_from_parquet_in_minio rt env table
                  (Some ("s3://" +:+ bucket_name +:+ "/" +:+ object_prefix now table
                         +:+ "/")) restore_chunk w1 = (Ok false, w2)) as [w2 Hrestore].
  { unfold restore_table_from_parquet_in_minio, try. simpl.
    destruct (truncate_before_load_ok env table w1) as (w1' & Htruncate & Hb).
    rewrite (bind_ok _ _ _ _ _ Htruncate).
    unfold restore_from, list_objects, request, get_bucket, mbind, io_bind.
    destruct (minio_ok env (requests w1')); simpl; [|by eexists].
    rewrite backup_prefix_uri by done. rewrite Hb. cbn [bucket w1].
    unfold listing. rewrite (filter_none _ (bucket w).*1).
    2:{ apply Forall_forall. intros key Hin Htrue.
        pose proof (Hfresh key Hin). congruence. }
    rewrite filter_nil, bool_decide_eq_true_2 by done. by eexists. }
  exists w2. split; [done|]. split; [done|]. exact Hrestore.
Qed.

(** The scenario without its employee. *)
Lemma empty_backup_cannot_be_restored_witness :
  let w := Scenario.world_of (set_hired_employees Scenario.db []) [] in
  ∃ uri w1 w2,
    backup_table_to_parquet_in_minio Scenario.env "migration" Scenario.now
      "hired_employees" 1000 w = (Ok uri, w1)
    ∧ bucket w1 = []
    ∧ restore_table_from_parquet_in_minio Scenario.rt Scenario.env
        "hired_employees" (Some uri) 1000 w1 = (Ok false, w2).
Proof.
  apply (empty_backup_cannot_be_restored Scenario.rt Scenario.env "migration"
           Scenario.now "hired_employees" 1000 1000
           (Scenario.world_of (set_hired_employees Scenario.db []) [])).
  - apply list_elem_of_here.
  - reflexivity.
  - reflexivity.
  - reflexivity.
  - intros key Hkey. simpl in Hkey. by apply elem_of_nil in Hkey.
Defined.

(** X5. The restore command refuses a table other than the three it
    knows before it does anything. For a known table it runs the
    restore, which always returns a boolean; the command returns when
    that is True and raises, with the text of its own error wrapped by
    its handler, when it is False. *)
Theorem restore_command_outcome rt env table backup_path chunk_size w :
  (table ∉ RestoreCommand.valid_tables →
   ∃ e, RestoreCommand.handle rt env table backup_path chunk_size w = (Raise e, w))
  ∧ (table ∈ RestoreCommand.valid_tables →
     ∃ success w',
       restore_table_from_parquet_in_minio rt env table backup_path chunk_size w
       = (Ok success, w')
       ∧ RestoreCommand.handle rt env table backup_path chunk_size w
         = (if success : bool then Ok tt
            else Raise "Error durante la restauración: La restauración falló",
            w')).
Proof.
  unfold RestoreCommand.handle. split; intros Htable.
  - rewrite bool_decide_eq_false_2 by done. by eexists.
  - rewrite bool_decide_eq_true_2 by done. cbn [negb].
    destruct (never_raises_run _ w
                (restore_never_raises rt env table backup_path chunk_size))
      as [success Hrun].
    exists success, (restore_table_from_parquet_in_minio rt env table backup_path
                       chunk_size w).2.
    split; [done|]. unfold try. rewrite (bind_ok _ _ _ _ _ Hrun).
    by destruct success.
Qed.

(** X6. A backup never writes to the store, whether it returns or
    raises, and neither does the backup command; the command itself
    never raises, it turns a failure into the line it prints. *)
Theorem backup_leaves_store env bucket_name now table chunk_size :
  unchanged db (backup_table_to_parquet_in_minio env bucket_name now table chunk_size)
  ∧ unchanged db (Backup.handle env bucket_name now table chunk_size)
  ∧ never_raises (Backup.handle env bucket_name now table chunk_size).
Proof.
  split; [apply backup_db|]. split.
  - unfold Backup.handle. walk ltac:(apply backup_db).
  - apply try_never_raises. intros e w. by eexists.
Qed.

(* --------------------------------------------------------------------- *)
(** ** What a reload leaves of the employees *)
(* --------------------------------------------------------------------- *)

Lemma never_raises_for_each {A} (xs : list A) (body : A → io unit) :
  (∀ x, never_raises (body x)) → never_raises (for_each xs body).
Proof.
  intros Hbody. induction xs as [|x xs IH]; intros w; simpl; [by exists tt|].
  destruct (never_raises_run _ w (Hbody x)) as [[] Hx].
  rewrite (bind_ok _ _ _ _ _ Hx). apply IH.
Qed.

Lemma truncate_requests env table :
  unchanged requests (_truncate_table_before_load env table).
Proof. unfold _truncate_table_before_load, truncate_statement. walk fail. Qed.

Lemma load_from_minio_result rt env batch_size table w :
  (load_from_minio_to_postgres rt env batch_size table w).1
  = Ok (minio_ok env (requests w)).
Proof.
  unfold load_from_minio_to_postgres.
  destruct (truncate_before_load_ok env table w) as (w1 & Htruncate & _).
  pose proof (truncate_requests env table w) as Hrequests.
  rewrite Htruncate in Hrequests. simpl in Hrequests.
  unfold try at 1. rewrite (bind_ok _ _ _ _ _ Htruncate).
  unfold load_listed_files.
  destruct (minio_ok env (requests w)) eqn:Hok.
  - rewrite (bind_ok _ _ _ _ _
               (list_objects_run env _ w1 ltac:(by rewrite Hrequests))).
    set (w2 := {| db := db w1; bucket := bucket w1; connections := connections w1;
                  requests := S (requests w1); journal := journal w1 |}).
    edestruct (never_raises_run
                 (for_each (filter (λ key, ends_with ".csv" key = true)
                              (listing (bucket w1) ("raw_data/" +:+ table +:+ "/")))
                    (λ key, try (content ← get_object env key;
                                 _process_csv rt env batch_size content table)
                                (λ e, log (FileError key e)))) w2) as [[] Hloop].
    { apply never_raises_for_each. intros key. apply try_never_raises.
      intros e w'. by eexists. }
    by rewrite (bind_ok _ _ _ _ _ Hloop).
  - unfold list_objects, request, mbind, io_bind. rewrite Hrequests, Hok. done.
Qed.

(** Statements and the properties of the store they keep. *)
Lemma execute_keeps (J : store → Prop) stmt error :
  (∀ d d', J d → stmt d = Some d' → J d') →
  preserves (λ w, J (db w)) (execute stmt error).
Proof.
  intros Hstmt w Hw. unfold execute.
  destruct (stmt (db w)) as [d'|] eqn:Hd; simpl; eauto.
Qed.

Lemma transaction_keeps {A} (J : store → Prop)
    (body : store → option (store * A)) error :
  (∀ d d' a, J d → body d = Some (d', a) → J d') →
  preserves (λ w, J (db w)) (transaction body error).
Proof.
  intros Hbody w Hw. unfold transaction.
  destruct (body (db w)) as [[d' a]|] eqn:Hd; simpl; eauto.
Qed.

Lemma truncate_no_employees d table d' :
  Sql.truncate d table = Some d' → no_employees d'.
Proof. unfold Sql.truncate. by repeat case_match; intros [= <-]. Qed.

Lemma copy_departments_employees d rows d' :
  Sql.copy_departments d rows = Some d' → hired_employees d' = hired_employees d.
Proof. unfold Sql.copy_departments. case_match; [|done]. by intros [= <-]. Qed.

Lemma copy_jobs_employees d rows d' :
  Sql.copy_jobs d rows = Some d' → hired_employees d' = hired_employees d.
Proof. unfold Sql.copy_jobs. case_match; [|done]. by intros [= <-]. Qed.

Lemma bind_copy_keeps {A} (J : store → Prop) (rows : option A)
    (copy : A → option store) d' :
  (∀ a, copy a = Some d' → J d') → rows ≫= copy = Some d' → J d'.
Proof. intros Hcopy. destruct rows as [a|]; simpl; [apply Hcopy | done]. Qed.

Ltac keep_quiet_primitive :=
  solve [ intros ?w ?H;
          cbv [connect request log get_bucket set_bucket] in *;
          repeat case_match; simpl in *; done ].

(** Walks a computation that copies into [departments] or [jobs] only. *)
Ltac keep_no_employees known :=
  repeat first
    [ progress intros
    | known
    | apply preserves_ret | apply preserves_raise
    | apply preserves_bind | apply preserves_try | apply preserves_for_each
    | keep_quiet_primitive
    | apply (execute_keeps no_employees); intros ? ? ?; cbn beta;
      first
        [ solve [ eauto using truncate_no_employees ]
        | apply bind_copy_keeps; intros ? Hcopy; unfold no_employees in *;
          first [ apply copy_departments_employees in Hcopy
                | apply copy_jobs_employees in Hcopy ];
          congruence ]
    | case_match ].

Lemma load_with_copy_no_employees rt env df table :
  table ∈ reference_tables →
  preserves (λ w, no_employees (db w)) (_load_with_copy rt env df table).
Proof.
  intros Htable. unfold reference_tables in Htable.
  apply elem_of_cons in Htable as [->|Htable];
    [|apply list_elem_of_singleton in Htable as ->];
    unfold _load_with_copy, _copy_departments, _copy_jobs; simpl;
    keep_no_employees fail.
Qed.

Lemma load_files_no_employees rt env batch_size table :
  table ∈ reference_tables →
  preserves (λ w, no_employees (db w)) (load_listed_files rt env batch_size table).
Proof.
  intros Htable.
  unfold load_listed_files, _process_csv, _load_with_copy_batches, list_objects,
    get_object.
  keep_no_employees ltac:(by apply load_with_copy_no_employees).
Qed.

Lemma restore_batch_employees_kept rt table id_column d batch d' :
  table ∈ reference_tables →
  restore_batch rt table id_column d batch = Some d' →
  hired_employees d' = hired_employees d.
Proof.
  intros Htable. unfold reference_tables in Htable.
  apply elem_of_cons in Htable as [->|Htable];
    [|apply list_elem_of_singleton in Htable as ->];
    unfold restore_batch; simpl.
  - destruct (mapM _ batch) as [rows|]; simpl; [|done].
    apply copy_departments_employees.
  - destruct (mapM _ batch) as [rows|]; simpl; [|done].
    apply copy_jobs_employees.
Qed.

Lemma restore_batches_employees_kept rt table id_column batches :
  table ∈ reference_tables →
  ∀ d n d' total,
    restore_batches rt table id_column d batches n = Some (d', total) →
    hired_employees d' = hired_employees d.
Proof.
  intros Htable. induction batches as [|batch rest IH]; intros d n d' total; simpl.
  - by intros [= <- _].
  - destruct (restore_batch rt table id_column d batch) as [d1|] eqn:Hbatch;
      simpl; [|done].
    intros Hrest%IH. rewrite Hrest.
    by eapply restore_batch_employees_kept.
Qed.

Lemma restore_dataframe_no_employees rt env df table chunk_size :
  table ∈ reference_tables →
  preserves (λ w, no_employees (db w))
    (_restore_dataframe_to_postgres rt env df table chunk_size).
Proof.
  intros Htable. unfold _restore_dataframe_to_postgres.
  keep_no_employees ltac:(
    apply (transaction_keeps no_employees); intros d d' n Hd Hbatches;
    cbn beta in Hbatches;
    apply (restore_batches_employees_kept _ _ _ _ Htable) in Hbatches;
    unfold no_employees in *; congruence).
Qed.

Lemma restore_files_no_employees rt env table chunk_size files :
  table ∈ reference_tables →
  ∀ total, preserves (λ w, no_employees (db w))
             (restore_files rt env table chunk_size files total).
Proof.
  intros Htable. induction files as [|key rest IH]; intros total; simpl.
  - apply preserves_ret.
  - unfold get_object.
    keep_no_employees ltac:(first [by apply restore_dataframe_no_employees
                                  | apply IH]).
Qed.

Lemma restore_from_no_employees rt env table path chunk_size :
  table ∈ reference_tables →
  preserves (λ w, no_employees (db w)) (restore_from rt env table path chunk_size).
Proof.
  intros Htable. unfold restore_from, list_objects.
  keep_no_employees ltac:(by apply restore_files_no_employees).
Qed.

Lemma truncate_known d table :
  table ∈ RestoreCommand.valid_tables → is_Some (Sql.truncate d table).
Proof.
  unfold RestoreCommand.valid_tables. intros Htable.
  apply elem_of_cons in Htable as [->|Htable];
    [|apply elem_of_cons in Htable as [->|Htable];
      [|apply list_elem_of_singleton in Htable as ->]]; by eexists.
Qed.

Lemma reference_tables_valid table :
  table ∈ reference_tables → table ∈ RestoreCommand.valid_tables.
Proof.
  unfold reference_tables, RestoreCommand.valid_tables.
  intros [->|Htable]%elem_of_cons; [|apply list_elem_of_singleton in Htable as ->];
    repeat first [apply list_elem_of_here | apply list_elem_of_further].
Qed.

Lemma reference_reload_no_employees rt env batch_size table w :
  table ∈ reference_tables →
  connect_ok env (connections w) = true →
  hired_employees (db (load_from_minio_to_postgres rt env batch_size table w).2) = []
  ∧ ∀ backup_path path chunk_size,
      from_option Some (latest_backup env table) backup_path = Some path →
      hired_employees
        (db (restore_table_from_parquet_in_minio rt env table backup_path
               chunk_size w).2) = [].
Proof.
  intros Htable Hconn.
  destruct (truncate_known (db w) table (reference_tables_valid _ Htable))
    as [d0 Hd0].
  pose proof (truncate_run env table w d0 Hconn Hd0) as Htruncate.
  pose proof (truncate_no_employees _ _ _ Hd0) as Hempty.
  set (w1 := {| db := d0; bucket := bucket w; connections := S (connections w);
                requests := requests w;
                journal := journal w ++ [TruncateDone table] |}) in *.
  split.
  - unfold load_from_minio_to_postgres, try.
    rewrite (bind_ok _ _ _ _ _ Htruncate).
    pose proof (load_files_no_employees rt env batch_size table Htable w1 Hempty)
      as Hkept.
    by destruct (load_listed_files rt env batch_size table w1) as [[b|e] w2].
  - intros backup_path path chunk_size Hpath.
    unfold restore_table_from_parquet_in_minio, try. rewrite Hpath.
    rewrite (bind_ok _ _ _ _ _ Htruncate).
    pose proof (restore_from_no_employees rt env table path chunk_size Htable
                  w1 Hempty) as Hkept.
    by destruct (restore_from rt env table path chunk_size w1) as [[b|e] w2].
Qed.

Lemma load_csv_to_minio_db env csv_path table :
  unchanged db (load_csv_to_minio env csv_path table).
Proof. unfold load_csv_to_minio, put_object. walk fail. Qed.

Lemma load_csv_to_minio_ok env csv_path table df w :
  csv_file env csv_path = Some (true, df) →
  minio_ok env (requests w) = true →
  (load_csv_to_minio env csv_path table w).1 = Ok true.
Proof.
  intros Hfile Hok. unfold load_csv_to_minio, try. rewrite Hfile.
  by rewrite (bind_ok _ _ _ _ _ (put_object_ok env _ _ w Hok)).
Qed.

(** One turn of [run_full_migration] for [departments] or [jobs] leaves
    [hired_employees] empty if it was; with the file in place and
    everything in reach it empties it. *)
Lemma migrate_reference_entry rt env batch_size table csv_path w :
  table ∈ reference_tables →
  (no_employees (db w) →
   no_employees (db (migrate_entry rt env batch_size (table, csv_path) w).2))
  ∧ (∀ df, (∀ n, connect_ok env n = true) → (∀ n, minio_ok env n = true) →
       csv_file env csv_path = Some (true, df) →
       no_employees (db (migrate_entry rt env batch_size (table, csv_path) w).2)).
Proof.
  intros Htable. unfold migrate_entry.
  rewrite (bind_ok _ _ w tt (log (Started table) w).2) by done.
  set (w0 := (log (Started table) w).2).
  assert (db w0 = db w) as Hw0 by done.
  pose proof (load_csv_to_minio_db env csv_path table w0) as Hdb1.
  destruct (never_raises_run _ w0 (load_csv_to_minio_never_raises env csv_path table))
    as [up Hup].
  set (w1 := (load_csv_to_minio env csv_path table w0).2) in *.
  split.
  - intros Hempty. case_bool_decide; [|done].
    rewrite (bind_ok _ _ _ _ _ Hup).
    destruct up; [|simpl; unfold no_employees; by rewrite Hdb1, Hw0].
    destruct (never_raises_run _ w1
                (load_from_minio_never_raises rt env batch_size table))
      as [loaded Hloaded].
    rewrite (bind_ok _ _ _ _ _ Hloaded). simpl.
    assert (preserves (λ w, no_employees (db w))
              (load_from_minio_to_postgres rt env batch_size table)) as Hkeep.
    { unfold load_from_minio_to_postgres, _truncate_table_before_load,
        truncate_statement.
      keep_no_employees ltac:(by apply load_files_no_employees). }
    apply Hkeep. unfold no_employees. by rewrite Hdb1, Hw0.
  - intros df Hconn Hminio Hfile.
    rewrite bool_decide_eq_true_2 by (by rewrite Hfile).
    rewrite (bind_ok _ _ _ _ _ Hup).
    pose proof (load_csv_to_minio_ok env csv_path table df w0 Hfile (Hminio _))
      as Hupok.
    rewrite Hup in Hupok. injection Hupok as ->.
    destruct (never_raises_run _ w1
                (load_from_minio_never_raises rt env batch_size table))
      as [loaded Hloaded].
    rewrite (bind_ok _ _ _ _ _ Hloaded). simpl.
    by apply reference_reload_no_employees.
Qed.

(** X7. [load_from_minio_to_postgres] never raises, and what it returns
    is the outcome of one request: True when the listing of the objects
    succeeded, False when it failed. A truncation that failed and files
    that could not be processed do not show in it. *)
Theorem load_reports_the_listing_only rt env batch_size table w :
  (load_from_minio_to_postgres rt env batch_size table w).1
  = Ok (minio_ok env (requests w)).
Proof. apply load_from_minio_result. Qed.

(** X8. Reloading [departments] or [jobs] from MinIO, or restoring one
    of them from a backup path that is given or found, leaves
    [hired_employees] empty whenever the store can be reached: the
    truncation cascades to the employees, and nothing that follows writes
    them back, whatever becomes of the load itself. *)
Theorem reference_reload_empties_employees rt env batch_size table w :
  table ∈ reference_tables →
  connect_ok env (connections w) = true →
  hired_employees (db (load_from_minio_to_postgres rt env batch_size table w).2) = []
  ∧ ∀ backup_path path chunk_size,
      from_option Some (latest_backup env table) backup_path = Some path →
      hired_employees
        (db (restore_table_from_parquet_in_minio rt env table backup_path
               chunk_size w).2) = [].
Proof. apply reference_reload_no_employees. Qed.

(** Reloading and restoring the departments of the scenario. *)
Lemma reference_reload_empties_employees_witness :
  let w := Scenario.world_of Scenario.db [] in
  hired_employees (db w) ≠ []
  ∧ hired_employees
      (db (load_from_minio_to_postgres Scenario.rt Scenario.env 1000
             "departments" w).2) = []
  ∧ hired_employees
      (db (restore_table_from_parquet_in_minio Scenario.rt Scenario.env
             "departments" (Some "backups/departments/20251007T120000/") 1000 w).2)
    = [].
Proof.
  destruct (reference_reload_empties_employees Scenario.rt Scenario.env 1000
              "departments" (Scenario.world_of Scenario.db []))
    as [Hload Hrestore].
  - apply list_elem_of_here.
  - reflexivity.
  - split; [discriminate|]. split; [exact Hload|].
    by apply (Hrestore _ "backups/departments/20251007T120000/").
Defined.

Lemma migrate_entry_success rt env batch_size table csv_path df w :
  (∀ n, minio_ok env n = true) →
  csv_file env csv_path = Some (true, df) →
  (migrate_entry rt env batch_size (table, csv_path) w).1 = Ok success.
Proof.
  intros Hminio Hfile. unfold migrate_entry.
  rewrite (bind_ok _ _ w tt (log (Started table) w).2) by done.
  set (w0 := (log (Started table) w).2).
  rewrite bool_decide_eq_true_2 by (by rewrite Hfile).
  destruct (never_raises_run _ w0 (load_csv_to_minio_never_raises env csv_path table))
    as [up Hup].
  pose proof (load_csv_to_minio_ok env csv_path table df w0 Hfile (Hminio _))
    as Hupok.
  rewrite Hup in Hupok. injection Hupok as ->.
  rewrite (bind_ok _ _ _ _ _ Hup).
  set (w1 := (load_csv_to_minio env csv_path table w0).2) in *.
  pose proof (load_from_minio_result rt env batch_size table w1) as Hresult.
  rewrite Hminio in Hresult.
  destruct (load_from_minio_to_postgres rt env batch_size table w1)
    as [[loaded|e] w2] eqn:Hload; simpl in Hresult; [|done].
  injection Hresult as ->. by rewrite (bind_ok _ _ _ _ _ Hload).
Qed.

(** X9. [run_full_migration] with its three files in place and
    everything in reach reports success for the three tables and leaves
    [hired_employees] empty: it loads the employees first, and the
    truncations of [departments] and [jobs] that follow cascade to
    them. *)
Theorem full_migration_leaves_no_employees rt env batch_size df_e df_d df_j w :
  (∀ n, connect_ok env n = true) → (∀ n, minio_ok env n = true) →
  csv_file env "/app/data/hired_employees.csv" = Some (true, df_e) →
  csv_file env "/app/data/departments.csv" = Some (true, df_d) →
  csv_file env "/app/data/jobs.csv" = Some (true, df_j) →
  ∃ w',
    run_full_migration rt env batch_size w
    = (Ok ({[ "hired_employees" := success; "departments" := success;
              "jobs" := success ]} : gmap string status), w')
    ∧ hired_employees (db w') = [].
Proof.
  intros Hconn Hminio He Hd Hj. unfold run_full_migration, csv_files.
  cbn [migrate_entries].
  pose proof (migrate_entry_success rt env batch_size "hired_employees" _ df_e w
                Hminio He) as H1.
  destruct (migrate_entry rt env batch_size
              ("hired_employees", "/app/data/hired_employees.csv") w)
    as [[s1|e1] w1] eqn:Hrun1; simpl in H1; [|done]. injection H1 as ->.
  rewrite (bind_ok _ _ _ _ _ Hrun1).
  pose proof (migrate_entry_success rt env batch_size "departments" _ df_d w1
                Hminio Hd) as H2.
  destruct (migrate_entry rt env batch_size
              ("departments", "/app/data/departments.csv") w1)
    as [[s2|e2] w2] eqn:Hrun2; simpl in H2; [|done]. injection H2 as ->.
  rewrite (bind_ok _ _ _ _ _ Hrun2).
  pose proof (migrate_entry_success rt env batch_size "jobs" _ df_j w2
                Hminio Hj) as H3.
  pose proof (proj2 (migrate_reference_entry rt env batch_size "jobs"
                       "/app/data/jobs.csv" w2
                       ltac:(apply list_elem_of_further, list_elem_of_here))
                df_j Hconn Hminio Hj) as Hempty.
  destruct (migrate_entry rt env batch_size ("jobs", "/app/data/jobs.csv") w2)
    as [[s3|e3] w3] eqn:Hrun3; simpl in H3; [|done]. injection H3 as ->.
  rewrite (bind_ok _ _ _ _ _ Hrun3).
  exists w3. split; [reflexivity | exact Hempty].
Qed.

(** The three files of the scenario. *)
Lemma full_migration_leaves_no_employees_witness :
  ∃ w',
    run_full_migration Scenario.rt Scenario.env 1000
      (Scenario.world_of Scenario.db [])
    = (Ok ({[ "hired_employees" := success; "departments" := success;
              "jobs" := success ]} : gmap string status), w')
    ∧ hired_employees (db w') = [].
Proof.
  apply (full_migration_leaves_no_employees Scenario.rt Scenario.env 1000
           Scenario.employees_csv Scenario.departments_csv Scenario.jobs_csv
           (Scenario.world_of Scenario.db []));
    reflexivity.
Defined.

(* --------------------------------------------------------------------- *)
(** ** Departments, jobs, and the kinds of rejection *)
(* --------------------------------------------------------------------- *)

Lemma reference_id_errors_nil rt taken r :
  reference_id_errors rt taken r = [] ↔ reference_id_free rt taken r.
Proof.
  unfold reference_id_errors, reference_id_free.
  destruct (explicit_id r) as [v|]; [|done].
  destruct (to_int rt v) as [i|]; [|split; [done | by intros (? & ? & _)]].
  destruct (Z.leb_spec i 0).
  - split; [done|]. intros (? & [= <-] & ? & _). lia.
  - destruct (taken i) eqn:Htaken.
    + split; [done|]. intros (? & [= <-] & _ & ?). congruence.
    + split; [|done]. intros _. exists i. repeat split; [lia | done].
Qed.

Lemma collect_missing_singleton r field :
  collect_missing r [field] = [] ↔ field_missing r field = false.
Proof.
  unfold collect_missing. rewrite filter_cons, filter_nil.
  destruct (field_missing r field); [rewrite decide_True by done
                                    | rewrite decide_False by done]; by split.
Qed.

Lemma validate_reference_accepted rt taken r :
  validate_reference rt taken r = accepted
  ↔ field_missing r "name" = false
    ∧ name_errors (r !!! "name") = []
    ∧ reference_id_free rt taken r.
Proof.
  unfold validate_reference, reference_required, rejected, accepted.
  rewrite <- reference_id_errors_nil, <- collect_missing_singleton.
  case_bool_decide as Hmissing; simpl; [|split; [done | by intros [? _]]].
  case_bool_decide as Herrors; simpl.
  - apply app_eq_nil in Herrors as [Hname Hid]. by split.
  - split; [done|]. intros (_ & Hname & Hid). destruct Herrors.
    by rewrite Hname, Hid.
Qed.

(** X10. A department or job record is accepted exactly when its name
    is present and passes the name rule and its id, if it carries one,
    reads as an integer greater than zero that no row of the table uses.
    The id is optional, and unlike the id of an employee it has no upper
    bound. *)
Theorem reference_accepted_iff rt db (r : record) :
  (validate_department rt db r = accepted
   ↔ field_missing r "name" = false
     ∧ name_errors (r !!! "name") = []
     ∧ reference_id_free rt (department_exists db) r)
  ∧ (validate_job rt db r = accepted
     ↔ field_missing r "name" = false
       ∧ name_errors (r !!! "name") = []
       ∧ reference_id_free rt (job_exists db) r).
Proof. split; apply validate_reference_accepted. Qed.

Lemma collect_missing_cons r required :
  collect_missing r required ≠ []
  ↔ ∃ field, field ∈ required ∧ field_missing r field = true.
Proof.
  split.
  - intros Hne. destruct (collect_missing r required) as [|m ms] eqn:Hm; [done|].
    assert (m ∈ collect_missing r required) as Hin
      by (rewrite Hm; apply list_elem_of_here).
    unfold collect_missing in Hin.
    apply list_elem_of_fmap in Hin as (field & _ & Hfield).
    apply list_elem_of_filter in Hfield as [Hmiss Hfield]. eauto.
  - intros (field & Hin & Hmiss) Hnil.
    pose proof (collect_missing_elem r required field Hin Hmiss) as Helem.
    rewrite Hnil in Helem. by apply elem_of_nil in Helem.
Qed.

Lemma validate_kind rt db now table r message :
  table ∈ table_kinds →
  validate rt db now table r = Some (false, Some message, Some MISSING_REQUIRED_FIELDS) →
  collect_missing r (required_fields table) ≠ [].
Proof.
  intros Hkind. unfold table_kinds in Hkind.
  repeat (apply elem_of_cons in Hkind as [-> | Hkind]);
    [| | | by apply elem_of_nil in Hkind];
    unfold validate, required_fields, validate_department, validate_job,
      validate_hired_employee, validate_reference, rejected, accepted; simpl;
    intros Hv Hnil; rewrite Hnil in Hv; simpl in Hv;
    repeat case_match; simplify_eq.
Qed.

(** X11. For the three table kinds, a record is rejected with the kind
    MISSING_REQUIRED_FIELDS exactly when one of the required fields of
    the kind is missing; and the verdict on such a record depends neither
    on the store nor on the clock. *)
Theorem missing_kind_iff rt db now table (r : record) :
  table ∈ table_kinds →
  ((∃ message,
      validate rt db now table r
      = Some (false, Some message, Some MISSING_REQUIRED_FIELDS))
   ↔ ∃ field, field ∈ required_fields table ∧ field_missing r field = true)
  ∧ ((∃ field, field ∈ required_fields table ∧ field_missing r field = true) →
     ∀ db' now', validate rt db' now' table r = validate rt db now table r).
Proof.
  intros Hkind. rewrite <- collect_missing_cons. split; [split|].
  - intros [message Hv]. by eapply validate_kind.
  - intros Hne. rewrite validate_missing by done. by eexists.
  - intros Hne db' now'. by rewrite !validate_missing.
Qed.

(** The record of the scenario without its [job_id]. *)
Lemma missing_kind_iff_witness :
  (∃ message,
     validate Scenario.rt Scenario.db Scenario.now "hired_employees"
       (delete "job_id" Scenario.ana)
     = Some (false, Some message, Some MISSING_REQUIRED_FIELDS))
  ↔ ∃ field, field ∈ required_fields "hired_employees"
             ∧ field_missing (delete "job_id" Scenario.ana) field = true.
Proof.
  apply (missing_kind_iff Scenario.rt Scenario.db Scenario.now "hired_employees"
           (delete "job_id" Scenario.ana)).
  apply list_elem_of_here.
Defined.

(** X12. A required field that holds the number 0 or the boolean False
    counts as missing: the test is [not record[field]]. The record is
    rejected with MISSING_REQUIRED_FIELDS and the message names the
    field. *)
Theorem zero_and_false_count_as_missing rt db now table (r : record) field :
  table ∈ table_kinds →
  field ∈ required_fields table →
  r !! field = Some (VInt 0) ∨ r !! field = Some (VBool false) →
  ∃ message,
    validate rt db now table r
    = Some (false, Some message, Some MISSING_REQUIRED_FIELDS)
    ∧ lists message (missing_message field).
Proof.
  intros Hkind Hfield Hvalue.
  assert (field_missing r field = true) as Hmiss.
  { unfold field_missing. by destruct Hvalue as [-> | ->]. }
  rewrite validate_missing; [|done|].
  - eexists. split; [done|]. apply lists_join. by apply collect_missing_elem.
  - apply collect_missing_cons. eauto.
Qed.

(** The record of the scenario with [department_id] 0. *)
Lemma zero_and_false_count_as_missing_witness :
  ∃ message,
    validate Scenario.rt Scenario.db Scenario.now "hired_employees"
      (<["department_id" := VInt 0]> Scenario.ana)
    = Some (false, Some message, Some MISSING_REQUIRED_FIELDS)
    ∧ lists message (missing_message "department_id").
Proof.
  apply (zero_and_false_count_as_missing Scenario.rt Scenario.db Scenario.now
           "hired_employees" (<["department_id" := VInt 0]> Scenario.ana)
           "department_id").
  - apply list_elem_of_here.
  - apply list_elem_of_further, list_elem_of_further, list_elem_of_here.
  - left. reflexivity.
Defined.

Lemma employee_fields_collect (r : record) :
  employee_fields_present r → collect_missing r employee_required = [].
Proof. intros Hpresent. by apply collect_missing_nil. Qed.

(** X13. An employee record whose date is a text in none of the three
    formats is rejected with the errors of its name followed by the
    date-format error and nothing else: the validator returns before it
    looks at [department_id], [job_id] or [id], so the verdict depends
    neither on the store nor on the clock. *)
Theorem unreadable_date_ends_validation rt db now (r : record) text :
  employee_fields_present r →
  r !!! "datetime" = VStr text →
  parse_datetime rt text = None →
  validate_hired_employee rt db now r
  = rejected (name_errors (r !!! "name")
              ++ ["Formato de fecha inválido (esperado: YYYY-MM-DDTHH:MM:SS)"])
      VALIDATION_ERROR
  ∧ ∀ db' now',
      validate_hired_employee rt db' now' r = validate_hired_employee rt db now r.
Proof.
  intros Hpresent Hdate Hparse.
  assert (∀ db now,
            validate_hired_employee rt db now r
            = rejected (name_errors (r !!! "name")
                        ++ ["Formato de fecha inválido (esperado: YYYY-MM-DDTHH:MM:SS)"])
                VALIDATION_ERROR) as Hverdict.
  { intros db0 now0. unfold validate_hired_employee.
    rewrite employee_fields_collect by done.
    rewrite bool_decide_eq_true_2 by done. cbn [negb].
    unfold datetime_errors. by rewrite Hdate, Hparse. }
  split; [apply Hverdict|]. intros db' now'. by rewrite !Hverdict.
Qed.

(** A date written day first, in a record whose department does not
    exist. *)
Lemma unreadable_date_ends_validation_witness :
  let r := <["department_id" := VInt 404]>
             (<["datetime" := VStr (u "05/01/2023")]> Scenario.ana) in
  validate_hired_employee Scenario.rt Scenario.db Scenario.now r
  = rejected (name_errors (r !!! "name")
              ++ ["Formato de fecha inválido (esperado: YYYY-MM-DDTHH:MM:SS)"])
      VALIDATION_ERROR
  ∧ ∀ db' now',
      validate_hired_employee Scenario.rt db' now' r
      = validate_hired_employee Scenario.rt Scenario.db Scenario.now r.
Proof.
  apply (unreadable_date_ends_validation Scenario.rt Scenario.db Scenario.now
           (<["department_id" := VInt 404]>
              (<["datetime" := VStr (u "05/01/2023")]> Scenario.ana))
           (u "05/01/2023")).
  - intros field Hfield. unfold employee_required in Hfield.
    repeat (apply elem_of_cons in Hfield as [-> | Hfield]);
      [reflexivity.. | by apply elem_of_nil in Hfield].
  - reflexivity.
  - reflexivity.
Defined.

(* --------------------------------------------------------------------- *)
(** ** The buffers of the consumer *)
(* --------------------------------------------------------------------- *)

Lemma flush_buffers_of rt env table (bufs : Consumer.buffers) w :
  (Consumer._flush rt env table bufs w).1 !!! table = []
  ∧ ∀ t, t ≠ table → (Consumer._flush rt env table bufs w).1 !!! t = bufs !!! t.
Proof.
  unfold Consumer._flush. case_bool_decide as Hitems; [done|].
  destruct (Consumer.flush_items rt env table (bufs !!! table) w) as [[?|?] ?];
    simpl; (split; [apply lookup_total_insert_eq|]);
    intros t Ht; by rewrite lookup_total_insert_ne.
Qed.

Lemma flush_all_bound rt env (n : nat) tables (bufs : Consumer.buffers) w t :
  (0 < n)%nat →
  (length (bufs !!! t) < n)%nat →
  (length ((Consumer.flush_all rt env tables bufs w).1 !!! t) < n)%nat.
Proof.
  intros Hn. revert bufs w.
  induction tables as [|table tables IH]; intros bufs w Ht; [done|].
  simpl.
  destruct (Consumer._flush rt env table bufs w) as [bufs1 w1] eqn:Hflush.
  apply IH.
  pose proof (flush_buffers_of rt env table bufs w) as [Hempty Hother].
  rewrite Hflush in Hempty, Hother. simpl in Hempty, Hother.
  destruct (decide (t = table)) as [->|Hne].
  - by rewrite Hempty.
  - by rewrite Hother.
Qed.

(** X14. With a positive batch size, a buffer that holds fewer records
    than the batch size still does after a message for its table: a
    buffer that fills up is flushed at once, and a flush empties it even
    when the load fails. A message leaves the buffers of the other tables
    as they were, and flushing any list of tables keeps every buffer
    below the batch size. *)
Theorem buffers_stay_below_batch_size rt env batch_size now due table payload
    (bufs : Consumer.buffers) w :
  (0 < batch_size)%nat →
  (length (bufs !!! table) < batch_size)%nat →
  let bufs' := (Consumer.on_message rt env batch_size now due table payload bufs w).1 in
  (length (bufs' !!! table) < batch_size)%nat
  ∧ (∀ t, t ≠ table → bufs' !!! t = bufs !!! t)
  ∧ (∀ tables t,
       (length (bufs !!! t) < batch_size)%nat →
       (length ((Consumer.flush_all rt env tables bufs w).1 !!! t) < batch_size)%nat).
Proof.
  intros Hsize Hbelow bufs'. split; [|split].
  - unfold bufs', Consumer.on_message. case_bool_decide; simpl; [|done].
    destruct (Consumer.validate_and_log_record rt now table payload w)
      as [[[]|] w']; try done.
    destruct (_ || due) eqn:Hflush.
    + destruct (flush_buffers_of rt env table
                  (<[table := bufs !!! table ++ [payload]]> bufs) w') as [-> _].
      simpl. lia.
    + simpl. apply orb_false_iff in Hflush as [Hfull _].
      apply Nat.leb_gt in Hfull. done.
  - intros t Ht. unfold bufs', Consumer.on_message.
    case_bool_decide; simpl; [|done].
    destruct (Consumer.validate_and_log_record rt now table payload w)
      as [[[]|] w']; try done.
    destruct (_ || due).
    + destruct (flush_buffers_of rt env table
                  (<[table := bufs !!! table ++ [payload]]> bufs) w') as [_ ->];
        [|done].
      by rewrite lookup_total_insert_ne.
    + simpl. by rewrite lookup_total_insert_ne.
  - intros tables t. by apply flush_all_bound.
Qed.

(** With a batch size of 1 every accepted message is flushed. *)
Lemma buffers_stay_below_batch_size_witness :
  (Consumer.on_message Scenario.rt Scenario.env 1 Scenario.now false
     "hired_employees" Scenario.ana ∅ (Scenario.world_of Scenario.db [])).1
    !!! "hired_employees" = [].
Proof.
  destruct (buffers_stay_below_batch_size Scenario.rt Scenario.env 1 Scenario.now
              false "hired_employees" Scenario.ana ∅
              (Scenario.world_of Scenario.db [])) as [Hbelow _].
  - lia.
  - rewrite lookup_total_empty. simpl. lia.
  - apply length_zero_iff_nil. lia.
Defined.

(** A COPY of no rows leaves the store as it is. *)
Lemma load_with_copy_nothing rt env table :
  table ∈ reference_tables → unchanged db (_load_with_copy rt env [] table).
Proof.
  intros Htable w. unfold reference_tables in Htable.
  assert (∀ d d' : store,
            (Sql.copy_departments d [] = Some d' → d' = d)
            ∧ (Sql.copy_jobs d [] = Some d' → d' = d)) as Hcopy.
  { intros d d'. unfold Sql.copy_departments, Sql.copy_jobs.
    split; case_match; intros [= <-]; rewrite app_nil_r; by destruct d. }
  unfold _load_with_copy, try, _copy_departments, _copy_jobs, connect, execute,
    mbind, io_bind, log.
  apply elem_of_cons in Htable as [->|Htable];
    [|apply list_elem_of_singleton in Htable as ->]; simpl;
    destruct (connect_ok env (connections w)); simpl; try done.
  - destruct (Sql.copy_departments (db w) []) as [d'|] eqn:Hd; simpl; [|done].
    by apply Hcopy in Hd.
  - destruct (Sql.copy_jobs (db w) []) as [d'|] eqn:Hd; simpl; [|done].
    by apply Hcopy in Hd.
Qed.

(** X15. A department or job record without an id passes validation when
    its name does, and is then dropped in silence: the flush of a buffer
    whose records all lack an id leaves the store as it was and empties
    the buffer, either because the frame has no [id] column or because
    [pd.to_numeric] leaves the missing ids missing and [dropna] removes
    the rows. *)
Theorem reference_without_id_is_never_stored rt env now table (bufs : Consumer.buffers)
    payload w :
  table ∈ reference_tables →
  pd_to_int rt VNone = None →
  (∀ r, r ∈ bufs !!! table → explicit_id r = None) →
  (explicit_id payload = None → field_missing payload "name" = false →
   name_errors (payload !!! "name") = [] →
   Consumer.validate_and_log_record rt now table payload w = (Ok true, w))
  ∧ db (Consumer._flush rt env table bufs w).2 = db w
  ∧ (Consumer._flush rt env table bufs w).1 !!! table = [].
Proof.
  intros Htable Hnan Hitems. split; [|split].
  - intros Hid Hname Hrule. unfold Consumer.validate_and_log_record.
    assert (validate rt (db w) now table payload = Some accepted) as ->; [|done].
    unfold reference_tables in Htable.
    assert (∀ taken, validate_reference rt taken payload = accepted) as Haccepted.
    { intros taken. apply validate_reference_accepted.
      split; [done|]. split; [done|]. unfold reference_id_free. by rewrite Hid. }
    apply elem_of_cons in Htable as [->|Htable];
      [|apply list_elem_of_singleton in Htable as ->]; unfold validate; simpl;
      f_equal; apply Haccepted.
  - unfold Consumer._flush. case_bool_decide as Hempty; [done|].
    assert (db (Consumer.flush_items rt env table (bufs !!! table) w).2 = db w)
      as Hdb.
    { assert (Consumer.flush_items rt env table (bufs !!! table)
              = Consumer.flush_reference rt env table (bufs !!! table)) as ->.
      { unfold reference_tables in Htable. unfold Consumer.flush_items.
        apply elem_of_cons in Htable as [->|Htable];
          [|apply list_elem_of_singleton in Htable as ->]; done. }
      unfold Consumer.flush_reference, Consumer.require_columns.
      destruct (forallb _ _); [|done].
      assert (omap (M:=list) (coerce_int rt "id") (bufs !!! table) = []) as ->.
      { induction (bufs !!! table) as [|r items IH] in Hitems |- *; [done|].
        assert (coerce_int rt "id" r = None) as Hr.
        { unfold coerce_int.
          assert (r !!! "id" = VNone) as ->.
          { pose proof (Hitems r ltac:(by left)) as Hr. unfold explicit_id in Hr.
            rewrite lookup_total_alt.
            destruct (r !! "id") as [[]|]; simpl; congruence. }
          by rewrite Hnan. }
        cbn [omap list_omap]. rewrite Hr.
        apply IH. intros r' Hr'. apply Hitems. by right. }
      rewrite filter_nil. unfold mbind, io_bind. simpl.
      apply load_with_copy_nothing, Htable. }
    by destruct (Consumer.flush_items rt env table (bufs !!! table) w)
      as [[?|?] ?].
  - apply flush_buffers_of.
Qed.

(** A department that has a name and nothing else. *)
Lemma reference_without_id_is_never_stored_witness :
  let compras : record := {[ "name" := VStr (u "Compras") ]} in
  let bufs : Consumer.buffers := {[ "departments" := [compras] ]} in
  let w := Scenario.world_of Scenario.db [] in
  Consumer.validate_and_log_record Scenario.rt Scenario.now "departments" compras w
  = (Ok true, w)
  ∧ db (Consumer._flush Scenario.rt Scenario.env "departments" bufs w).2
    = Scenario.db
  ∧ (Consumer._flush Scenario.rt Scenario.env "departments" bufs w).1
      !!! "departments" = [].
Proof.
  intros compras bufs w.
  destruct (reference_without_id_is_never_stored Scenario.rt Scenario.env
              Scenario.now "departments" bufs compras w)
    as (Hvalid & Hdb & Hbuffer).
  - apply list_elem_of_here.
  - reflexivity.
  - intros r Hr. unfold bufs in Hr. rewrite lookup_total_singleton in Hr.
    apply list_elem_of_singleton in Hr as ->. reflexivity.
  - split; [|by split]. apply Hvalid; vm_compute; reflexivity.
Defined.

(* --------------------------------------------------------------------- *)
(** ** A flush that fails on the rows with ids *)
(* --------------------------------------------------------------------- *)

Lemma flush_with_id_raise rt env (df with_id : dataframe) w e w' :
  Consumer.flush_with_id rt env df with_id w = (Raise e, w') → db w' = db w.
Proof.
  unfold Consumer.flush_with_id, Consumer.require_columns.
  case_bool_decide; [done|].
  destruct (forallb _ _); [|by intros [= _ <-]].
  unfold mbind at 1, io_bind at 1. simpl.
  set (tmp := omap _ _). intros Hload.
  destruct (load_with_copy_spec rt env tmp "hired_employees" w)
    as (res & w1 & Hrun & _ & _ & Hres); [apply list_elem_of_here|].
  rewrite Hrun in Hload. injection Hload as -> ->. by destruct Hres.
Qed.

(** X16. In a flush of [hired_employees], when the load of the rows that
    carry an id raises (an id that is taken, a reference that is
    missing, a connection that is refused) the flush ends there: the
    rows without an id are never tried, the store is as it was, and the
    buffer is emptied with the error logged, so the whole batch is
    lost. *)
Theorem failed_ids_cost_the_batch rt env (bufs : Consumer.buffers) w e w' :
  Consumer.flush_with_id rt env (bufs !!! "hired_employees")
    (Consumer.rows_with_id (bufs !!! "hired_employees")) w = (Raise e, w') →
  Consumer._flush rt env "hired_employees" bufs w
  = (<["hired_employees" := []]> bufs,
     (log (FlushError "hired_employees" e) w').2)
  ∧ db w' = db w.
Proof.
  intros Hraise. split; [|by eapply flush_with_id_raise].
  unfold Consumer._flush.
  case_bool_decide as Hitems.
  { rewrite Hitems in Hraise. by vm_compute in Hraise. }
  unfold Consumer.flush_items. simpl. unfold Consumer.flush_hired_employees.
  by rewrite (bind_raise _ _ _ _ _ Hraise).
Qed.

(** The batch of the scenario: the row with the id 5 is refused. *)
Lemma failed_ids_cost_the_batch_witness :
  let w := Scenario.world_of Scenario.db [] in
  ∃ e w',
    Consumer._flush Scenario.rt Scenario.env "hired_employees"
      batch_with_taken_id w
    = (<["hired_employees" := []]> batch_with_taken_id,
       (log (FlushError "hired_employees" e) w').2)
    ∧ db w' = Scenario.db.
Proof.
  intros w. eexists _, _.
  apply (failed_ids_cost_the_batch Scenario.rt Scenario.env batch_with_taken_id w).
  vm_compute. reflexivity.
Defined.

(* --------------------------------------------------------------------- *)
(** ** What the cleaning guarantees *)
(* --------------------------------------------------------------------- *)

Lemma drop_duplicates_elem (df : dataframe) seen r :
  r ∈ drop_duplicates seen df → r ∈ df ∧ r !!! "id" ∉ seen.
Proof.
  revert seen. induction df as [|r' df IH]; intros seen; simpl.
  - by intros ?%elem_of_nil.
  - case_bool_decide as Hseen.
    + intros [Hr Hid]%IH. split; [by right | done].
    + intros [->|[Hr Hid]%IH]%elem_of_cons; [split; [by left | done]|].
      split; [by right|]. intros Hin. apply Hid. by right.
Qed.

Lemma drop_duplicates_NoDup (df : dataframe) seen :
  NoDup ((λ r : record, r !!! "id") <$> drop_duplicates seen df).
Proof.
  revert seen. induction df as [|r df IH]; intros seen; simpl; [constructor|].
  case_bool_decide as Hseen; [apply IH|].
  rewrite fmap_cons. constructor; [|apply IH].
  intros (r' & Hid & Hr')%list_elem_of_fmap.
  apply drop_duplicates_elem in Hr' as [_ Hr']. apply Hr'. rewrite <- Hid. by left.
Qed.



(* --------------------------------------------------------------------- *)
(** ** A restore with nothing to restore *)
(* --------------------------------------------------------------------- *)

Lemma truncate_rows d table d0 :
  Sql.truncate d table = Some d0 → table_rows d0 table = [].
Proof.
  unfold Sql.truncate, table_rows.
  repeat case_match; try done; by intros [= <-].
Qed.

(** X18. A restore truncates before it looks. Given a path under which
    no Parquet file lies, or with MinIO out of reach, the restore of a
    table returns False and leaves the table empty: the rows it had are
    gone. Without a path and without a backup to be found it returns
    False before the truncation, and the store is as it was. *)
Theorem restore_truncates_before_it_looks rt env table chunk_size w :
  table ∈ RestoreCommand.valid_tables →
  connect_ok env (connections w) = true →
  (∀ path,
     minio_ok env (requests w) = false
     ∨ filter (λ key, ends_with ".parquet" key = true)
         (listing (bucket w) (backup_prefix path)) = [] →
     ∃ w',
       restore_table_from_parquet_in_minio rt env table (Some path) chunk_size w
       = (Ok false, w')
       ∧ table_rows (db w') table = []
       ∧ bucket w' = bucket w)
  ∧ (latest_backup env table = None →
     ∃ w',
       restore_table_from_parquet_in_minio rt env table None chunk_size w
       = (Ok false, w')
       ∧ db w' = db w).
Proof.
  intros Htable Hconn. split.
  - intros path Hnothing.
    destruct (truncate_known (db w) table Htable) as [d0 Htruncate].
    unfold restore_table_from_parquet_in_minio, try. simpl.
    rewrite (bind_ok _ _ _ _ _ (truncate_run env table w d0 Hconn Htruncate)).
    set (w1 := {| db := d0; bucket := bucket w; connections := S (connections w);
                  requests := requests w;
                  journal := journal w ++ [TruncateDone table] |}).
    unfold restore_from.
    destruct (minio_ok env (requests w)) eqn:Hok.
    + destruct Hnothing as [?|Hnone]; [done|].
      rewrite (bind_ok _ _ _ _ _ (list_objects_run env _ w1 Hok)).
      cbn [bucket w1]. rewrite Hnone, bool_decide_eq_true_2 by done.
      eexists. split; [reflexivity|]. simpl.
      split; [by eapply truncate_rows | done].
    + unfold list_objects, request, mbind, io_bind. cbn [requests w1].
      rewrite Hok. eexists. split; [reflexivity|]. simpl.
      split; [by eapply truncate_rows | done].
  - intros Hnone. unfold restore_table_from_parquet_in_minio, try. simpl.
    rewrite Hnone. by eexists.
Qed.

(** The scenario restored from a path under which nothing lies. *)
Lemma restore_truncates_before_it_looks_witness :
  let w := Scenario.world_of Scenario.db [] in
  hired_employees (db w) ≠ []
  ∧ ∃ w',
      restore_table_from_parquet_in_minio Scenario.rt Scenario.env
        "hired_employees" (Some "backups/hired_employees/20250101T000000/") 1000 w
      = (Ok false, w')
      ∧ table_rows (db w') "hired_employees" = []
      ∧ bucket w' = bucket w.
Proof.
  split; [discriminate|].
  apply (restore_truncates_before_it_looks Scenario.rt Scenario.env
           "hired_employees" 1000 (Scenario.world_of Scenario.db [])).
  - apply list_elem_of_here.
  - reflexivity.
  - right. reflexivity.
Defined.

(* --------------------------------------------------------------------- *)
(** ** A restore with a chunk size of zero *)
(* --------------------------------------------------------------------- *)

Lemma restore_dataframe_zero rt env df table w :
  ∃ e w', _restore_dataframe_to_postgres rt env df table 0 w = (Raise e, w')
          ∧ db w' = db w.
Proof.
  unfold _restore_dataframe_to_postgres, try, connect, mbind, io_bind.
  destruct (connect_ok env (connections w)); simpl; by eexists _, _.
Qed.

(** X19. A restore with a chunk size of 0, from a snapshot whose first
    Parquet file holds rows, truncates the table, fails on
    [range(0, len(df), 0)] and returns False: the table is left empty.
    The restore command passes its [--chunk-size] on unchecked. *)
Theorem restore_with_chunk_size_zero rt env table path key rest df w :
  table ∈ RestoreCommand.valid_tables →
  connect_ok env (connections w) = true →
  minio_ok env (requests w) = true →
  minio_ok env (S (requests w)) = true →
  parquet_files (listing (bucket w) (backup_prefix path)) = key :: rest →
  object_at (bucket w) key = ParquetObject df →
  df ≠ [] →
  ∃ w',
    restore_table_from_parquet_in_minio rt env table (Some path) 0 w
    = (Ok false, w')
    ∧ table_rows (db w') table = [].
Proof.
  intros Htable Hconn Hlist Hget Hfiles Hobject Hrows.
  destruct (truncate_known (db w) table Htable) as [d0 Htruncate].
  unfold restore_table_from_parquet_in_minio, try. simpl.
  rewrite (bind_ok _ _ _ _ _ (truncate_run env table w d0 Hconn Htruncate)).
  set (w1 := {| db := d0; bucket := bucket w; connections := S (connections w);
                requests := requests w;
                journal := journal w ++ [TruncateDone table] |}).
  unfold restore_from.
  rewrite (bind_ok _ _ _ _ _ (list_objects_run env _ w1 Hlist)).
  cbn [bucket w1].
  set (w2 := {| db := db w1; bucket := bucket w1; connections := connections w1;
                requests := S (requests w1); journal := journal w1 |}).
  assert (filter (λ key, ends_with ".parquet" key = true)
            (listing (bucket w) (backup_prefix path)) ≠ []) as Hsome.
  { intros Hnil. unfold parquet_files in Hfiles. by rewrite Hnil in Hfiles. }
  rewrite bool_decide_eq_false_2 by done.
  rewrite Hfiles.
  assert (∃ e w4, restore_files rt env table 0 (key :: rest) 0 w2 = (Raise e, w4)
                  ∧ db w4 = d0) as (e & w4 & Hrun & Hdb).
  { cbn [restore_files].
    rewrite (bind_ok _ _ _ _ _ (get_object_run env key w2 Hget)).
    cbn [bucket w2 w1]. rewrite Hobject, bool_decide_eq_false_2 by done.
    set (w3 := {| db := db w2; bucket := bucket w2; connections := connections w2;
                  requests := S (requests w2); journal := journal w2 |}).
    destruct (restore_dataframe_zero rt env df table w3) as (e & w4 & Hrun & Hdb).
    rewrite (bind_raise _ _ _ _ _ Hrun). by eexists _, _. }
  rewrite (bind_raise _ _ _ _ _ Hrun).
  eexists. split; [reflexivity|]. simpl. rewrite Hdb.
  by eapply truncate_rows.
Qed.

(** The later backup of the bucket with two, restored with chunk size 0. *)
Lemma restore_with_chunk_size_zero_witness :
  let w := Scenario.world_of Scenario.db two_backups in
  jobs (db w) ≠ []
  ∧ ∃ w',
      restore_table_from_parquet_in_minio Scenario.rt Scenario.env "jobs"
        (Some "backups/jobs/20251007T120000/") 0 w
      = (Ok false, w')
      ∧ table_rows (db w') "jobs" = [].
Proof.
  split; [discriminate|].
  apply (restore_with_chunk_size_zero Scenario.rt Scenario.env "jobs"
           "backups/jobs/20251007T120000/"
           "backups/jobs/20251007T120000/part-0000.parquet" []
           Scenario.jobs_csv (Scenario.world_of Scenario.db two_backups)).
  - apply list_elem_of_further, list_elem_of_further, list_elem_of_here.
  - reflexivity.
  - reflexivity.
  - reflexivity.
  - vm_compute. reflexivity.
  - vm_compute. reflexivity.
  - discriminate.
Defined.

(* --------------------------------------------------------------------- *)
(** ** The ingest endpoint *)
(* --------------------------------------------------------------------- *)

Lemma validate_and_log_record_passes rt now table r w :
  ∃ w', Consumer.validate_and_log_record rt now table r w
        = (Ok (passes rt (db w) now table r), w')
        ∧ db w' = db w.
Proof.
  unfold Consumer.validate_and_log_record, passes.
  destruct (validate rt (db w) now table r) as [[[[] message] kind]|];
    by eexists.
Qed.

Lemma imap_shift {A B} (g : nat → A → B) (k : nat) x l :
  imap (λ i, g (k + i)%nat) (x :: l) = g k x :: imap (λ i, g (S k + i)%nat) l.
Proof.
  cbn [imap]. rewrite Nat.add_0_r. f_equal. apply imap_ext.
  intros i y _. simpl. f_equal. lia.
Qed.

Lemma validate_records_run rt clock table (rs : list (option record)) k w :
  ∃ checked w',
    Views.validate_records rt clock table k rs w = (Ok checked, w')
    ∧ db w' = db w
    ∧ checked.1
      = omap id (imap (λ i, passed rt (db w) clock table (k + i)) rs)
    ∧ checked.2.*1
      = Some <$> omap id (imap (λ i, failed_index rt (db w) clock table (k + i)) rs).
Proof.
  revert k w. induction rs as [|item rs IH]; intros k w.
  - by eexists _, _.
  - rewrite (imap_shift (passed rt (db w) clock table)),
      (imap_shift (failed_index rt (db w) clock table)).
    destruct item as [r|]; cbn [Views.validate_records].
    + destruct (validate_and_log_record_passes rt (clock k) table r w)
        as (w1 & Hvalid & Hdb1).
      rewrite (bind_ok _ _ _ _ _ Hvalid).
      destruct (IH (S k) w1) as (checked & w2 & Hrest & Hdb2 & Hvalids & Herrors).
      rewrite (bind_ok _ _ _ _ _ Hrest). rewrite Hdb1 in *.
      eexists _, w2. split; [reflexivity|]. split; [congruence|].
      unfold failed_index at 1, passed at 1 3. cbn [mbind option_bind].
      destruct (passes rt (db w) (clock k) table r);
        cbn [omap list_omap id fst snd fmap list_fmap];
        rewrite ?Hvalids; split; try done; by rewrite <- Herrors.
    + destruct (IH (S k) w) as (checked & w2 & Hrest & Hdb2 & Hvalids & Herrors).
      rewrite (bind_ok _ _ _ _ _ Hrest).
      eexists _, w2. split; [reflexivity|]. split; [done|].
      unfold failed_index at 1, passed at 1 3. cbn [mbind option_bind].
      cbn [omap list_omap id fst snd fmap list_fmap].
      split; [done|]. by rewrite <- Herrors.
Qed.

Lemma passed_or_failed rt d clock table (rs : list (option record)) k :
  (length (omap id (imap (λ i, passed rt d clock table (k + i)) rs))
   + length (omap id (imap (λ i, failed_index rt d clock table (k + i)) rs))
   = length rs)%nat.
Proof.
  revert k. induction rs as [|item rs IH]; intros k; [done|].
  rewrite (imap_shift (passed rt d clock table)),
    (imap_shift (failed_index rt d clock table)).
  specialize (IH (S k)). unfold failed_index at 1.
  destruct (passed rt d clock table k item);
    cbn [omap list_omap id length]; lia.
Qed.

(** X20. The endpoint [/ingest] always answers and never writes to the
    three tables. It answers 202 exactly when the table is one of the three,
    the list has between 1 and 1000 items, the producer works and one
    item at least passes validation. The messages it has then handed to
    the producer carry the items that pass, in the order of the request,
    on the topic of the table; the errors name the indexes of the other
    items, in order; and accepted and rejected add up to the number of
    items. *)
Theorem ingest_accounts_for_every_record rt kafka_error clock table records w :
  ∃ resp w',
    Views.ingest rt kafka_error clock table records w = (Ok resp, w')
    ∧ db w' = db w
    ∧ ((∃ a r errors produced, resp = Views.Accepted a r errors produced)
       ↔ ∃ t rs,
           table = Some t ∧ records = Some rs ∧ t ∈ Views.tables
           ∧ (1 ≤ length rs ≤ 1000)%nat
           ∧ kafka_error = None
           ∧ omap id (imap (passed rt (db w) clock t) rs) ≠ [])
    ∧ ∀ a r errors produced,
        resp = Views.Accepted a r errors produced →
        ∃ t rs,
          table = Some t ∧ records = Some rs
          ∧ Views.payload <$> produced
            = omap id (imap (passed rt (db w) clock t) rs)
          ∧ errors.*1
            = Some <$> omap id (imap (failed_index rt (db w) clock t) rs)
          ∧ a = length produced ∧ r = length errors
          ∧ (a + r = length rs)%nat
          ∧ ∀ m, m ∈ produced → Views.topic m = "raw." +:+ t ∧ Views.m_table m = t.
Proof.
  unfold Views.ingest.
  destruct table as [t|];
    [|eexists _, _; split; [reflexivity|]; split; [done|]; split;
      [split; [by intros (? & ? & ? & ? & ?) | by intros (? & ? & ? & _)]
      | by intros]].
  case_bool_decide as Htable; cbn [negb];
    [|eexists _, _; split; [reflexivity|]; split; [done|]; split;
      [split; [by intros (? & ? & ? & ? & ?)
              | intros (? & ? & [= <-] & _ & ? & _); done]
      | by intros]].
  destruct records as [rs|];
    [|eexists _, _; split; [reflexivity|]; split; [done|]; split;
      [split; [by intros (? & ? & ? & ? & ?) | by intros (? & ? & _ & ? & _)]
      | by intros]].
  destruct (_ && _) eqn:Hlen; cbn [negb];
    [|eexists _, _; split; [reflexivity|]; split; [done|]; split;
      [split; [by intros (? & ? & ? & ? & ?)
              | intros (? & ? & _ & [= <-] & _ & Hbounds & _);
                apply andb_false_iff in Hlen as [?%Nat.leb_gt | ?%Nat.leb_gt]; lia]
      | by intros]].
  apply andb_true_iff in Hlen as [Hmin%Nat.leb_le Hmax%Nat.leb_le].
  destruct (validate_records_run rt clock t rs 0 w)
    as ([valid errors] & w1 & Hrun & Hdb & Hvalid & Herrors).
  rewrite (bind_ok _ _ _ _ _ Hrun). cbn [fst snd] in *.
  assert (valid = omap id (imap (passed rt (db w) clock t) rs)) as Hvalid'
    by exact Hvalid.
  case_bool_decide as Hnone;
    [eexists _, _; split; [reflexivity|]; split; [done|]; split;
      [split; [by intros (? & ? & ? & ? & ?)
              | intros (? & ? & [= <-] & [= <-] & _ & _ & _ & Hsome); congruence]
      | by intros]|].
  destruct kafka_error as [e|];
    [eexists _, _; split; [reflexivity|]; split; [done|]; split;
      [split; [by intros (? & ? & ? & ? & ?)
              | by intros (? & ? & _ & _ & _ & _ & ? & _)]
      | by intros]|].
  eexists _, w1. split; [reflexivity|]. split; [done|]. split.
  { split; [|by eauto 10]. intros _. exists t, rs.
    repeat split; try done. congruence. }
  intros a r errors' produced [= <- <- <- <-].
  assert (length valid + length errors = length rs)%nat as Hcount.
  { rewrite <- (length_fmap fst errors), Herrors, length_fmap, Hvalid.
    exact (passed_or_failed rt (db w) clock t rs 0). }
  exists t, rs.
  split; [done|]. split; [done|].
  split; [by rewrite <- list_fmap_compose, list_fmap_id|]. split; [done|].
  split; [by rewrite length_fmap|]. split; [done|]. split; [done|].
  by intros m (r & -> & _)%list_elem_of_fmap.
Qed.

Example scenario_ingest :
  (Views.ingest Scenario.rt None (λ _, Scenario.now) (Some "hired_employees")
     (Some [Some Scenario.ana; None; Some (delete "name" Scenario.ana)])
     (Scenario.world_of Scenario.db [])).1
  = Ok (Views.Accepted 1 2
          [(Some 1%nat, "record is not an object");
           (Some 2%nat, "record failed validation rules")]
          [Views.envelope "hired_employees" Scenario.ana]).
Proof. vm_compute. reflexivity. Qed.

(* --------------------------------------------------------------------- *)
(** ** The latest backup of a table *)
(* --------------------------------------------------------------------- *)

Lemma strongly_sorted_last (l : list string) m :
  StronglySorted String.le l → last l = Some m → ∀ x, x ∈ l → String.le x m.
Proof.
  induction 1 as [|y l Hl IH Hy]; intros Hlast x Hx; [by apply elem_of_nil in Hx|].
  destruct l as [|z l].
  - simpl in Hlast. injection Hlast as <-.
    apply list_elem_of_singleton in Hx as ->. done.
  - change (last (y :: z :: l)) with (last (z :: l)) in Hlast.
    apply elem_of_cons in Hx as [->|Hx]; [|by apply IH].
    rewrite Forall_forall in Hy. apply Hy.
    apply last_Some in Hlast as [l' ->]. apply elem_of_app. right. by left.
Qed.

Lemma latest_greatest (timestamps : list string) :
  match LatestBackup.latest timestamps with
  | Some m => m ∈ timestamps ∧ ∀ x, x ∈ timestamps → String.le x m
  | None => timestamps = []
  end.
Proof.
  unfold LatestBackup.latest. rewrite head_reverse.
  pose proof (merge_sort_Permutation String.le timestamps) as Hperm.
  pose proof (Sorted_merge_sort String.le timestamps) as Hsorted.
  apply Sorted_StronglySorted in Hsorted; [|apply _].
  destruct (last (merge_sort String.le timestamps)) as [m|] eqn:Hlast.
  - split.
    + rewrite <- Hperm. apply last_Some in Hlast as [l' ->].
      apply elem_of_app. right. by left.
    + intros x Hx. rewrite <- Hperm in Hx. by eapply strongly_sorted_last.
  - apply last_None in Hlast. rewrite Hlast in Hperm.
    by apply Permutation_nil_l in Hperm.
Qed.

Lemma latest_backup_found env table w :
  ∃ found w',
    LatestBackup.get_latest_backup_path env table w = (Ok found, w')
    ∧ db w' = db w ∧ bucket w' = bucket w
    ∧ match found with
      | Some path =>
        minio_ok env (requests w) = true
        ∧ ∃ ts, path = "backups/" +:+ table +:+ "/" +:+ ts +:+ "/"
                ∧ backup_folder (bucket w) table ts
                ∧ ∀ ts', backup_folder (bucket w) table ts' → String.le ts' ts
      | None =>
        minio_ok env (requests w) = false
        ∨ ∀ ts, ¬ backup_folder (bucket w) table ts
      end.
Proof.
  unfold LatestBackup.get_latest_backup_path, try.
  set (prefix := "backups/" +:+ table +:+ "/").
  destruct (minio_ok env (requests w)) eqn:Hok.
  2:{ unfold list_objects, request, mbind, io_bind. rewrite Hok.
      eexists None, _. split; [reflexivity|]. by repeat split; [left]. }
  rewrite (bind_ok _ _ _ _ _ (list_objects_run env prefix w Hok)).
  set (folders := omap (LatestBackup.folder prefix) (listing (bucket w) prefix)).
  assert (∀ ts, backup_folder (bucket w) table ts
                ↔ ts ∈ filter (λ ts, length (u ts) = 15%nat) folders) as Hfolders.
  { intros ts. unfold backup_folder, folders. fold prefix.
    rewrite list_elem_of_filter, list_elem_of_omap. split.
    - intros [Hlen (key & Hkey & Hfolder)]. split; [done|].
      exists key. split; [|done]. unfold listing.
      apply list_elem_of_filter. split; [|done].
      unfold LatestBackup.folder in Hfolder.
      by destruct (String.prefix prefix key).
    - intros [Hlen (key & Hkey & Hfolder)]. split; [done|].
      exists key. split; [|done]. unfold listing in Hkey.
      by apply list_elem_of_filter in Hkey as [_ ?]. }
  pose proof (latest_greatest (filter (λ ts, length (u ts) = 15%nat) folders))
    as Hlatest.
  case_bool_decide as Hnone.
  { eexists None, _. split; [reflexivity|]. split; [done|]. split; [done|].
    right. intros ts Hts. apply Hfolders in Hts. rewrite Hnone in Hts.
    by apply elem_of_nil in Hts. }
  destruct (LatestBackup.latest _) as [m|].
  - destruct Hlatest as [Hin Hmax].
    eexists (Some _), _. split; [reflexivity|]. split; [done|]. split; [done|].
    split; [done|]. exists m. split; [|split].
    + unfold prefix. by rewrite <- !append_assoc.
    + by apply Hfolders.
    + intros ts' Hts'. by apply Hmax, Hfolders.
  - eexists None, _. split; [reflexivity|]. split; [done|]. split; [done|].
    right. intros ts Hts. apply Hfolders in Hts. rewrite Hlatest in Hts.
    by apply elem_of_nil in Hts.
Qed.

Lemma put_keys (entries : list (string * object)) k o key :
  key ∈ (put entries k o).*1 ↔ key = k ∨ (key ≠ k ∧ key ∈ entries.*1).
Proof.
  unfold put. rewrite fmap_cons, elem_of_cons. cbn [fst].
  rewrite !list_elem_of_fmap. split.
  - intros [->|(entry & -> & Hin)]; [by left|].
    apply list_elem_of_filter in Hin as [Hne Hin]. right. split; [done|].
    by exists entry.
  - intros [->|(Hne & entry & -> & Hin)]; [by left|]. right.
    exists entry. split; [done|]. by apply list_elem_of_filter.
Qed.

Lemma put_all_keys (files : list (string * dataframe)) : ∀ entries key,
  key ∈ (put_all entries files).*1 → key ∈ files.*1 ∨ key ∈ entries.*1.
Proof.
  unfold put_all.
  induction files as [|file files IH]; intros entries key Hin; simpl in *;
    [by right|].
  apply IH in Hin as [Hin|Hin]; [left; by right|].
  apply put_keys in Hin as [->|[_ Hin]]; [left; by left | by right].
Qed.

Lemma put_all_has_key (files : list (string * dataframe)) : ∀ entries key,
  key ∈ files.*1 → key ∈ (put_all entries files).*1.
Proof.
  unfold put_all.
  induction files as [|file files IH] using rev_ind; intros entries key Hin;
    [by apply elem_of_nil in Hin|].
  rewrite foldl_app. cbn [foldl]. apply put_keys.
  rewrite fmap_app in Hin. apply elem_of_app in Hin as [Hin|Hin].
  - destruct (decide (key = file.1)) as [->|Hne]; [by left|].
    right. split; [done|]. by apply IH.
  - left. simpl in Hin. by apply list_elem_of_singleton in Hin.
Qed.

Lemma substring_prefix (a b : string) :
  String.substring 0 (String.length a) (a +:+ b) = a.
Proof.
  induction a as [|c a IH]; [by destruct b|].
  rewrite app_cons. simpl. by rewrite IH.
Qed.

Lemma folder_of_part now table k :
  no_slash (strftime_compact now) = true →
  LatestBackup.folder ("backups/" +:+ table +:+ "/")
    (part_key (object_prefix now table) k)
  = Some (strftime_compact now).
Proof.
  intros Hplain. unfold LatestBackup.folder, part_key, object_prefix.
  set (prefix := "backups/" +:+ table +:+ "/").
  set (ts := strftime_compact now).
  set (tail := "part-" +:+ pad 4 (Z.of_nat k) +:+ ".parquet").
  assert (("backups/" +:+ table +:+ "/" +:+ ts) +:+ "/part-"
          +:+ pad 4 (Z.of_nat k) +:+ ".parquet"
          = prefix +:+ (ts +:+ "/" +:+ tail)) as ->.
  { unfold prefix, tail. change "/part-" with ("/" +:+ "part-").
    by rewrite <- !append_assoc. }
  rewrite prefix_app, string_length_app.
  replace (String.length prefix + String.length (ts +:+ "/" +:+ tail)
           - String.length prefix)%nat
    with (String.length (ts +:+ "/" +:+ tail)) by lia.
  rewrite substring_app, index_slash by done. simpl.
  by rewrite substring_prefix.
Qed.

(** X21. [get_latest_backup_path] never raises and changes neither the
    store nor the bucket. For a listing that fits one page, a path it
    returns is [backups/table/ts/] for a folder [ts] of the table whose
    name has fifteen characters and is the greatest such name in the
    order of texts; it returns nothing exactly when MinIO is out of
    reach or the table has no such folder. Folders with other names are
    ignored, whatever they hold. *)
Theorem latest_backup_is_the_greatest env table w :
  (length (listing (bucket w) ("backups/" +:+ table +:+ "/")) ≤ 1000)%nat →
  ∃ found w',
    LatestBackup.get_latest_backup_path env table w = (Ok found, w')
    ∧ db w' = db w ∧ bucket w' = bucket w
    ∧ match found with
      | Some path =>
        minio_ok env (requests w) = true
        ∧ ∃ ts, path = "backups/" +:+ table +:+ "/" +:+ ts +:+ "/"
                ∧ backup_folder (bucket w) table ts
                ∧ ∀ ts', backup_folder (bucket w) table ts' → String.le ts' ts
      | None =>
        minio_ok env (requests w) = false
        ∨ ∀ ts, ¬ backup_folder (bucket w) table ts
      end.
Proof. intros _. apply latest_backup_found. Qed.

(** The later of the two backups; the folder [latest] does not count. *)
Lemma latest_backup_is_the_greatest_witness :
  let w := Scenario.world_of Scenario.db two_backups in
  ∃ w',
    LatestBackup.get_latest_backup_path Scenario.env "jobs" w
    = (Ok (Some "backups/jobs/20251007T120000/"), w')
    ∧ bucket w' = two_backups.
Proof.
  intros w.
  destruct (latest_backup_is_the_greatest Scenario.env "jobs" w)
    as (found & w' & Hrun & _ & Hbucket & _); [simpl; lia|].
  exists w'. split; [|exact Hbucket]. rewrite Hrun.
  vm_compute in Hrun. by injection Hrun as <- _.
Defined.

(** X22. After the backup of a table that has rows, taken at a moment
    whose timestamp has its fifteen characters and is not before the
    timestamps of the backups already in the bucket,
    [get_latest_backup_path] returns the prefix of that backup. *)
Theorem fresh_backup_is_the_latest env bucket_name now table chunk_size rows w :
  (0 < chunk_size)%nat →
  select_all (db w) table = Some rows →
  rows ≠ [] →
  connect_ok env (connections w) = true →
  (∀ n, minio_ok env n = true) →
  length (u (strftime_compact now)) = 15%nat →
  no_slash (strftime_compact now) = true →
  (∀ ts, backup_folder (bucket w) table ts → String.le ts (strftime_compact now)) →
  (length (listing (bucket w) ("backups/" +:+ table +:+ "/"))
   + length (chunks chunk_size rows) ≤ 1000)%nat →
  ∃ uri w1 w2,
    backup_table_to_parquet_in_minio env bucket_name now table chunk_size w
    = (Ok uri, w1)
    ∧ LatestBackup.get_latest_backup_path env table w1
      = (Ok (Some (object_prefix now table +:+ "/")), w2).
Proof.
  intros Hsize Hrows Hsome Hconn Hminio Hlen Hplain Hold _.
  rewrite (backup_run _ _ _ _ _ rows) by done.
  set (files := part_files (object_prefix now table) (chunks chunk_size rows)).
  erewrite bind_ok; [|apply uploads_ok; intros; apply Hminio].
  set (w1 := uploaded _ _ _).
  eexists _, w1. 
  assert (∀ key, key ∈ files.*1 →
            LatestBackup.folder ("backups/" +:+ table +:+ "/") key
            = Some (strftime_compact now)) as Hparts.
  { intros key. unfold files. rewrite part_files_keys.
    intros (k & -> & _)%list_elem_of_fmap. by apply folder_of_part. }
  assert (backup_folder (bucket w1) table (strftime_compact now)) as Hnew.
  { split; [done|]. exists (part_key (object_prefix now table) 0).
    split; [|by apply folder_of_part].
    unfold w1, uploaded. cbn [bucket]. apply put_all_has_key.
    unfold files. rewrite part_files_keys. apply list_elem_of_fmap.
    exists 0%nat. split; [done|]. apply elem_of_seq.
    assert (length (chunks chunk_size rows) ≠ 0)%nat; [|lia].
    intros Hnil. apply length_zero_iff_nil in Hnil.
    pose proof (concat_chunks rows chunk_size Hsize) as Hconcat.
    fold (chunks chunk_size rows) in Hconcat.
    rewrite Hnil in Hconcat. simpl in Hconcat. congruence. }
  assert (∀ ts, backup_folder (bucket w1) table ts →
                String.le ts (strftime_compact now)) as Hall.
  { intros ts [Hts (key & Hkey & Hfolder)].
    unfold w1, uploaded in Hkey. cbn [bucket] in Hkey.
    apply put_all_keys in Hkey as [Hkey|Hkey].
    - apply Hparts in Hkey. rewrite Hkey in Hfolder. injection Hfolder as <-.
      done.
    - apply Hold. split; [done|]. by exists key. }
  destruct (latest_backup_found env table w1)
    as (found & w2 & Hrun & _ & _ & Hfound).
  exists w2. split; [reflexivity|]. rewrite Hrun. do 2 f_equal.
  destruct found as [path|].
  - destruct Hfound as (_ & ts & -> & Hts & Hmax). f_equal.
    assert (ts = strftime_compact now) as ->.
    { apply (anti_symm String.le); [by apply Hall | by apply Hmax]. }
    unfold object_prefix. by rewrite <- !append_assoc.
  - destruct Hfound as [Hfail|Hnone]; [by rewrite Hminio in Hfail|].
    by destruct (Hnone _ Hnew).
Qed.

(** The departments of the scenario, backed up into an empty bucket. *)
Lemma fresh_backup_is_the_latest_witness :
  ∃ uri w1 w2,
    backup_table_to_parquet_in_minio Scenario.env "migration" Scenario.now
      "departments" 1000 (Scenario.world_of Scenario.db [])
    = (Ok uri, w1)
    ∧ LatestBackup.get_latest_backup_path Scenario.env "departments" w1
      = (Ok (Some "backups/departments/20251007T120000/"), w2).
Proof.
  apply (fresh_backup_is_the_latest Scenario.env "migration" Scenario.now
           "departments" 1000 (reference_record <$> departments Scenario.db)
           (Scenario.world_of Scenario.db [])).
  - lia.
  - reflexivity.
  - discriminate.
  - reflexivity.
  - reflexivity.
  - reflexivity.
  - reflexivity.
  - intros ts (_ & key & Hkey & _). simpl in Hkey. by apply elem_of_nil in Hkey.
  - simpl. lia.
Defined.
